(** * VSRTL address space: sparse byte store and memory-mapped regions

    A shallow embedding of [core/vsrtl_addressspace.h]: the class
    [AddressSpace] (an [std::unordered_map] from addresses to bytes together
    with the initialization memories replayed on [reset]) and its subclass
    [AddressSpaceMM] (an [std::map] of memory-mapped regions keyed by the
    last address of each region, with reads and writes forwarded to the
    region's I/O functors).

    Machine integers are integers of [Z] with the wrap-around written out;
    the two associative containers are finite maps of stdpp; methods are
    state-passing functions in a small state-and-failure monad, so that a
    failed [assert] and an exception thrown by [unordered_map::at] are
    outcomes of the model.

    The last part embeds the ordering of the subcomponents of a
    [ComponentGraphic]: the depth-first traversal [orderSubcomponentsUtil],
    [reverseLookup] and the loops of [orderSubcomponents] that use them. *)

From Stdlib Require Import ZArith Lia List.
From stdpp Require Import gmap list fin_maps sorting relations.

Local Open Scope Z_scope.

(** ** Machine integers *)

(** Modelled from the spec: the type [VSRTL_VT_U] is declared in
    [interface/vsrtl.h]; addresses and values are the spec's 32-bit unsigned
    integers, and the native word is four bytes wide. *)
Definition VSRTL_VT_U_BITS : Z := 32.
Definition sizeof_VSRTL_VT_U : Z := 4.

Definition CHAR_BIT : Z := 8.

(** Conversion to [uint32_t] / [unsigned] / [VSRTL_VT_U]: reduction modulo
    [2^32].  A parameter of such a type is read through [to_u32], as the
    call converts its argument. *)
Definition to_u32 (x : Z) : Z := x mod 2 ^ VSRTL_VT_U_BITS.

(** Conversion to [uint8_t], the mapped type of the byte store. *)
Definition to_u8 (x : Z) : Z := x mod 2 ^ CHAR_BIT.

(** [b << k] for a byte [b] promoted to [int], as it reaches a
    [VSRTL_VT_U] through [|=]: the low 32 bits of the product.  C++ defines
    the shift of an [int] for [k < 32] only.  A read of more than four
    bytes shifts by [32] and more; there the compiled loop shifts by the low
    five bits of the count, as the shift instructions of x86-64 and AArch64
    do with a count in a register, and so does the model: the fifth byte
    of a read is or-ed onto the first. *)
Definition shl_to_u32 (b k : Z) : Z := to_u32 (Z.shiftl b (k mod 32)).

(** ** Outcomes and the state monad of the methods *)

Inductive Result (A : Type) : Type :=
| Ok (a : A)
| AssertionFailed
| OutOfRange.

Arguments Ok {A} a.
Arguments AssertionFailed {A}.
Arguments OutOfRange {A}.

Definition St (S A : Type) : Type := S -> Result (A * S).

Definition ret {S A} (a : A) : St S A := fun s => Ok (a, s).

Definition bind {S A B} (m : St S A) (k : A -> St S B) : St S B :=
  fun s =>
    match m s with
    | Ok (a, s') => k a s'
    | AssertionFailed => AssertionFailed
    | OutOfRange => OutOfRange
    end.

Definition get {S} : St S S := fun s => Ok (s, s).
Definition put {S} (s : S) : St S unit := fun _ => Ok (tt, s).

(** [assert(b)], with assertions compiled in: the program stops when [b]
    is false. *)
Definition assert {S} (b : bool) : St S unit :=
  fun s => if b then Ok (tt, s) else AssertionFailed.

Notation "'letM' x ':=' m 'in' k" := (bind m (fun x => k))
  (at level 10, x name, m at level 100, k at level 200).

(** A range-based [for] over a container whose elements are listed in [l]. *)
Fixpoint for_each {S A} (l : list A) (body : A -> St S unit) : St S unit :=
  match l with
  | [] => ret tt
  | x :: rest => letM _ := body x in for_each rest body
  end.

Definition succeeds {S A} (r : Result (A * S)) : Prop :=
  match r with Ok _ => True | _ => False end.

(** ** class AddressSpace *)

Inductive RegionType : Type := Program | IO.

(** The object: the sparse byte array and the vector of initialization
    memories, each of them an [AddressSpace] of its own. *)
#[warnings="-register-all"]
Inductive AddressSpace : Type :=
  mkAddressSpace {
    m_data : gmap Z Z;
    m_initializationMemories : list AddressSpace
  }.

Module AddressSpace.

(** A default-constructed object. *)
Definition fresh : AddressSpace :=
  {| m_data := ∅; m_initializationMemories := [] |}.

(** The object with its byte store replaced. *)
Definition set_m_data (d : gmap Z Z) (s : AddressSpace) : AddressSpace :=
  {| m_data := d; m_initializationMemories := m_initializationMemories s |}.

(** *** Members of [std::unordered_map] applied to [m_data] *)

(** [m_data[k] = v] *)
Definition data_assign (k v : Z) : St AddressSpace unit :=
  fun s => Ok (tt, set_m_data (<[k := to_u8 v]> (m_data s)) s).

(** [m_data[k]] read as a value: a missing key is inserted with a
    value-initialized byte. *)
Definition data_index (k : Z) : St AddressSpace Z :=
  fun s =>
    match m_data s !! k with
    | Some b => Ok (b, s)
    | None => Ok (0, set_m_data (<[k := 0]> (m_data s)) s)
    end.

(** [m_data.count(k)] *)
Definition data_count (k : Z) : St AddressSpace Z :=
  fun s => Ok (if m_data s !! k is Some _ then 1 else 0, s).

(** [m_data.at(k)]: throws [std::out_of_range] on a missing key. *)
Definition data_at (k : Z) : St AddressSpace Z :=
  fun s =>
    match m_data s !! k with
    | Some b => Ok (b, s)
    | None => OutOfRange
    end.

(** [m_data.clear()] *)
Definition data_clear : St AddressSpace unit :=
  fun s => Ok (tt, set_m_data ∅ s).

(** *** Methods *)

(** The loop of [writeMem], with [n] iterations left, loop counter [i]
    and the local [value].  The sum [address + i] is a 32-bit sum. *)
Fixpoint writeMem_loop (n : nat) (i address value : Z) : St AddressSpace unit :=
  match n with
  | O => ret tt
  | S n' =>
      letM _ := data_assign (to_u32 (address + i)) (Z.land value 255) in
      writeMem_loop n' (i + 1) address (Z.shiftr value 8)
  end.

(** [size] is an [int]: the loop does not run when it is negative. *)
Definition writeMem (address value size : Z) : St AddressSpace unit :=
  writeMem_loop (Z.to_nat size) 0 (to_u32 address) (to_u32 value).

Fixpoint readMem_loop (n : nat) (i address value : Z) : St AddressSpace Z :=
  match n with
  | O => ret value
  | S n' =>
      letM b := data_index address in
      readMem_loop n' (i + 1) (to_u32 (address + 1))
        (Z.lor value (shl_to_u32 b (to_u32 (i * CHAR_BIT))))
  end.

Definition readMem (address width : Z) : St AddressSpace Z :=
  readMem_loop (Z.to_nat (to_u32 width)) 0 (to_u32 address) 0.

Definition contains (address : Z) : St AddressSpace bool :=
  letM c := data_count (to_u32 address) in ret (0 <? c).

Fixpoint readMemConst_loop (n : nat) (i address value : Z) : St AddressSpace Z :=
  match n with
  | O => ret value
  | S n' =>
      letM present := contains address in
      letM term := (if (present : bool)
                    then (letM b := data_at address in
                          ret (shl_to_u32 b (to_u32 (i * CHAR_BIT))))
                    else ret 0) in
      readMemConst_loop n' (i + 1) (to_u32 (address + 1)) (Z.lor value term)
  end.

Definition readMemConst (address width : Z) : St AddressSpace Z :=
  readMemConst_loop (Z.to_nat (to_u32 width)) 0 (to_u32 address) 0.

Definition regionType (address : Z) : St AddressSpace RegionType :=
  ret Program.

(** [mem.m(...)] for [auto& mem = m_initializationMemories.emplace_back()]:
    the method runs on a default-constructed element at the back of the
    vector. *)
Definition on_emplaced_back {A} (m : St AddressSpace A) : St AddressSpace A :=
  fun s =>
    match m fresh with
    | Ok (a, mem) =>
        Ok (a, {| m_data := m_data s;
                  m_initializationMemories := m_initializationMemories s ++ [mem] |})
    | AssertionFailed => AssertionFailed
    | OutOfRange => OutOfRange
    end.

(** The loop of [addInitializationMemory] over [program[0..n)], given as
    the list of its elements, with [sizeofT] for [sizeof(T)]. *)
Fixpoint addInitializationMemory_loop (program : list Z) (sizeofT addr : Z)
  : St AddressSpace unit :=
  match program with
  | [] => ret tt
  | x :: rest =>
      letM _ := writeMem addr x sizeofT in
      addInitializationMemory_loop rest sizeofT (to_u32 (addr + sizeofT))
  end.

Definition addInitializationMemory (startAddr : Z) (program : list Z) (sizeofT : Z)
  : St AddressSpace unit :=
  on_emplaced_back (addInitializationMemory_loop program sizeofT (to_u32 startAddr)).

Definition clearInitializationMemories : St AddressSpace unit :=
  fun s => Ok (tt, {| m_data := m_data s; m_initializationMemories := [] |}).

(** [reset] of an object whose dynamic type is [AddressSpace], so that the
    virtual [writeMem] is the one above.  The elements of an
    [unordered_map] are visited in the order of [map_to_list]; the store
    that results is the same for every order
    ([replay_Permutation] below). *)
Definition replay (entries : list (Z * Z)) : St AddressSpace unit :=
  for_each entries (fun memData => writeMem memData.1 memData.2 1).

Definition reset : St AddressSpace unit :=
  letM _ := data_clear in
  letM this := get in
  for_each (m_initializationMemories this)
    (fun mem => replay (map_to_list (m_data mem))).

End AddressSpace.

(** ** class AddressSpaceMM *)

(** [std::map::lower_bound]: the entry with the least key not less than
    [a], if there is one. *)
Definition lower_bound {V} (m : gmap Z V) (a : Z) : option (Z * V) :=
  foldr (fun kv best =>
           if a <=? kv.1
           then match best with
                | Some kb => if kb.1 <=? kv.1 then best else Some kv
                | None => Some kv
                end
           else best)
        None (map_to_list m).

(** [std::map::empty] *)
Definition map_is_empty {V} (m : gmap Z V) : bool :=
  match map_to_list m with [] => true | _ => false end.

Module AddressSpaceMM.
Section WithPeripherals.

(** The state of the peripherals that the I/O functors act on; it is
    owned outside of the address space.  The two [std::function] members
    are functions on that state: [ioWrite offset value width] changes it,
    [ioRead offset width] returns a value and may change it. *)
Context {P : Type}.

Record IOFunctors : Type := {
  ioWrite : Z -> Z -> Z -> P -> P;
  ioRead : Z -> Z -> P -> Z * P
}.

Record MMapValue : Type := {
  base : Z;
  size : Z;
  io : IOFunctors
}.

(** A call of an I/O functor, recorded with the region it belongs to. *)
Inductive IOCall : Type :=
| IOWriteCall (region_base region_size offset value width : Z)
| IOReadCall (region_base region_size offset width : Z).

(** The object ([super] is the base-class subobject) together with its
    environment: the peripherals and the calls made to them so far. *)
Record State : Type := {
  super : AddressSpace;
  m_mmapRegions : gmap Z MMapValue;
  peripherals : P;
  io_calls : list IOCall
}.

(** A call of an inherited method or of [AddressSpace::m]. *)
Definition on_super {A} (m : St AddressSpace A) : St State A :=
  fun st =>
    match m (super st) with
    | Ok (a, s') =>
        Ok (a, {| super := s'; m_mmapRegions := m_mmapRegions st;
                  peripherals := peripherals st; io_calls := io_calls st |})
    | AssertionFailed => AssertionFailed
    | OutOfRange => OutOfRange
    end.

Definition call_ioWrite (r : MMapValue) (offset value width : Z) : St State unit :=
  fun st =>
    Ok (tt, {| super := super st; m_mmapRegions := m_mmapRegions st;
               peripherals := ioWrite (io r) offset value width (peripherals st);
               io_calls := io_calls st
                             ++ [IOWriteCall (base r) (size r) offset value width] |}).

Definition call_ioRead (r : MMapValue) (offset width : Z) : St State Z :=
  fun st =>
    let '(v, p) := ioRead (io r) offset width (peripherals st) in
    Ok (v, {| super := super st; m_mmapRegions := m_mmapRegions st;
              peripherals := p;
              io_calls := io_calls st ++ [IOReadCall (base r) (size r) offset width] |}).

Definition findMMapRegion (regions : gmap Z MMapValue) (address : Z)
  : option MMapValue :=
  let address := to_u32 address in
  if map_is_empty regions then None
  else match lower_bound regions address with
       | None => None
       | Some (_, r) => if address <? base r then None else Some r
       end.

Definition writeMem (address value size : Z) : St State unit :=
  fun st =>
    match findMMapRegion (m_mmapRegions st) address with
    | Some mmapregion =>
        call_ioWrite mmapregion (to_u32 (to_u32 address - base mmapregion))
          (to_u32 value) (to_u32 size) st
    | None => on_super (AddressSpace.writeMem address value size) st
    end.

Definition readMem (address width : Z) : St State Z :=
  fun st =>
    match findMMapRegion (m_mmapRegions st) address with
    | Some mmapregion =>
        call_ioRead mmapregion (to_u32 (to_u32 address - base mmapregion))
          (to_u32 width) st
    | None => on_super (AddressSpace.readMem address width) st
    end.

Definition readMemConst (address width : Z) : St State Z :=
  fun st =>
    match findMMapRegion (m_mmapRegions st) address with
    | Some mmapregion =>
        call_ioRead mmapregion (to_u32 (to_u32 address - base mmapregion))
          (to_u32 width) st
    | None => on_super (AddressSpace.readMemConst address width) st
    end.

Definition contains (address : Z) : St State bool :=
  on_super (AddressSpace.contains address).

Definition regionType (address : Z) : St State RegionType :=
  fun st =>
    match findMMapRegion (m_mmapRegions st) address with
    | Some _ => Ok (IO, st)
    | None => Ok (Program, st)
    end.

Definition addIORegion (baseAddr size : Z) (io : IOFunctors) : St State unit :=
  let baseAddr := to_u32 baseAddr in
  let size := to_u32 size in
  letM st := get in
  letM _ := assert (bool_decide (findMMapRegion (m_mmapRegions st) baseAddr = None)
                    && bool_decide (findMMapRegion (m_mmapRegions st)
                                      (to_u32 (baseAddr + size - 1)) = None)) in
  letM _ := assert (0 <? size) in
  put {| super := super st;
         m_mmapRegions := <[to_u32 (baseAddr + size - 1) :=
                              {| base := baseAddr; size := size; io := io |}]>
                            (m_mmapRegions st);
         peripherals := peripherals st; io_calls := io_calls st |}.

Definition removeIORegion (baseAddr size : Z) : St State unit :=
  let baseAddr := to_u32 baseAddr in
  let size := to_u32 size in
  letM st := get in
  letM _ := assert (bool_decide (is_Some (m_mmapRegions st
                                            !! to_u32 (baseAddr + size - 1)))) in
  put {| super := super st;
         m_mmapRegions := delete (to_u32 (baseAddr + size - 1)) (m_mmapRegions st);
         peripherals := peripherals st; io_calls := io_calls st |}.

(** *** Inherited methods *)

Definition addInitializationMemory (startAddr : Z) (program : list Z) (sizeofT : Z)
  : St State unit :=
  on_super (AddressSpace.addInitializationMemory startAddr program sizeofT).

Definition clearInitializationMemories : St State unit :=
  on_super AddressSpace.clearInitializationMemories.

(** [reset] is inherited, and its calls of the virtual [writeMem] reach the
    override above: a byte of an initialization memory whose address is
    found in a region goes to the region's functor.  The peripherals
    observe the order in which the loop visits the elements of each
    [unordered_map], which the standard leaves to the implementation:
    [order] gives, for a map, the sequence in which its elements are
    handed out. *)
Definition reset (order : gmap Z Z -> list (Z * Z)) : St State unit :=
  letM _ := on_super AddressSpace.data_clear in
  letM this := get in
  for_each (m_initializationMemories (super this))
    (fun mem =>
       for_each (order (m_data mem))
         (fun memData => writeMem memData.1 memData.2 1)).

(** A freshly constructed object in front of peripherals in state [p]. *)
Definition fresh (p : P) : State :=
  {| super := AddressSpace.fresh; m_mmapRegions := ∅;
     peripherals := p; io_calls := [] |}.

(** *** Regions as intervals of addresses *)

(** [x] lies between the base and the last address of the region, as
    integers. *)
Definition covers (r : MMapValue) (x : Z) : Prop :=
  base r <= x <= base r + size r - 1.

Definition registered (regions : gmap Z MMapValue) (r : MMapValue) : Prop :=
  exists k, regions !! k = Some r.

Definition pairwise_disjoint (regions : gmap Z MMapValue) : Prop :=
  forall k1 k2 r1 r2 x,
    regions !! k1 = Some r1 -> regions !! k2 = Some r2 -> k1 <> k2 ->
    covers r1 x -> covers r2 x -> False.

(** What [addIORegion] establishes for every entry: base and size are
    32-bit values, the size is positive, and the key is the last address
    as the 32-bit sum gives it. *)
Definition keyed_by_last (regions : gmap Z MMapValue) : Prop :=
  forall k r,
    regions !! k = Some r ->
    0 <= base r < 2 ^ 32 /\ 0 < size r < 2 ^ 32
    /\ k = to_u32 (base r + size r - 1).

(** No region runs past the last address [2^32 - 1]. *)
Definition within_address_space (regions : gmap Z MMapValue) : Prop :=
  forall k r, regions !! k = Some r -> base r + size r - 1 < 2 ^ 32.

(** No registered region has the address in its interval. *)
Definition uncovered (regions : gmap Z MMapValue) (address : Z) : Prop :=
  forall r, registered regions r -> ~ covers r (to_u32 address).

End WithPeripherals.
Arguments IOFunctors : clear implicits.
Arguments MMapValue : clear implicits.
Arguments State : clear implicits.
End AddressSpaceMM.

(** ** Functional descriptions of the loops

    What the loops of [writeMem], [readMem] and [readMemConst] compute, as
    functions of the byte store; the loops are proved equal to them below. *)

(** A byte read with absence standing for zero. *)
Definition peek (d : gmap Z Z) (k : Z) : Z := default 0 (d !! k).

Fixpoint write_bytes (n : nat) (i address value : Z) (d : gmap Z Z) : gmap Z Z :=
  match n with
  | O => d
  | S n' =>
      write_bytes n' (i + 1) address (Z.shiftr value 8)
        (<[to_u32 (address + i) := Z.land value 255]> d)
  end.

Fixpoint read_bytes (n : nat) (i address value : Z) (d : gmap Z Z) : Z :=
  match n with
  | O => value
  | S n' =>
      read_bytes n' (i + 1) (to_u32 (address + 1))
        (Z.lor value (shl_to_u32 (peek d address) (to_u32 (i * CHAR_BIT)))) d
  end.

(** The keys that the loop of [readMem] creates on its way. *)
Fixpoint touch_bytes (n : nat) (address : Z) (d : gmap Z Z) : gmap Z Z :=
  match n with
  | O => d
  | S n' =>
      touch_bytes n' (to_u32 (address + 1))
        (match d !! address with Some _ => d | None => <[address := 0]> d end)
  end.

(** ** Sequences of calls on an [AddressSpace] *)

Inductive Call : Type :=
| CallWriteMem (address value size : Z)
| CallReadMem (address width : Z)
| CallReadMemConst (address width : Z)
| CallContains (address : Z)
| CallRegionType (address : Z)
| CallAddInitializationMemory (startAddr : Z) (program : list Z) (sizeofT : Z)
| CallClearInitializationMemories
| CallReset.

Definition discard {S A} (m : St S A) : St S unit := letM _ := m in ret tt.

Definition call (c : Call) : St AddressSpace unit :=
  match c with
  | CallWriteMem address value size => AddressSpace.writeMem address value size
  | CallReadMem address width => discard (AddressSpace.readMem address width)
  | CallReadMemConst address width => discard (AddressSpace.readMemConst address width)
  | CallContains address => discard (AddressSpace.contains address)
  | CallRegionType address => discard (AddressSpace.regionType address)
  | CallAddInitializationMemory startAddr program sizeofT =>
      AddressSpace.addInitializationMemory startAddr program sizeofT
  | CallClearInitializationMemories => AddressSpace.clearInitializationMemories
  | CallReset => AddressSpace.reset
  end.

Definition calls (l : list Call) : St AddressSpace unit := for_each l call.

(** ** Sequences of calls on an [AddressSpaceMM] *)

Inductive CallMM {P : Type} : Type :=
| MMWriteMem (address value size : Z)
| MMReadMem (address width : Z)
| MMReadMemConst (address width : Z)
| MMContains (address : Z)
| MMRegionType (address : Z)
| MMAddIORegion (baseAddr size : Z) (io : AddressSpaceMM.IOFunctors P)
| MMRemoveIORegion (baseAddr size : Z)
| MMAddInitializationMemory (startAddr : Z) (program : list Z) (sizeofT : Z)
| MMClearInitializationMemories
| MMReset (order : gmap Z Z -> list (Z * Z)).

Arguments CallMM : clear implicits.

Definition call_mm {P : Type} (c : CallMM P) : St (AddressSpaceMM.State P) unit :=
  match c with
  | MMWriteMem address value size => AddressSpaceMM.writeMem address value size
  | MMReadMem address width => discard (AddressSpaceMM.readMem address width)
  | MMReadMemConst address width => discard (AddressSpaceMM.readMemConst address width)
  | MMContains address => discard (AddressSpaceMM.contains address)
  | MMRegionType address => discard (AddressSpaceMM.regionType address)
  | MMAddIORegion baseAddr size io => AddressSpaceMM.addIORegion baseAddr size io
  | MMRemoveIORegion baseAddr size => AddressSpaceMM.removeIORegion baseAddr size
  | MMAddInitializationMemory startAddr program sizeofT =>
      AddressSpaceMM.addInitializationMemory startAddr program sizeofT
  | MMClearInitializationMemories => AddressSpaceMM.clearInitializationMemories
  | MMReset order => AddressSpaceMM.reset order
  end.

Definition calls_mm {P : Type} (l : list (CallMM P)) : St (AddressSpaceMM.State P) unit :=
  for_each l call_mm.

(** The method leaves the map of regions as it is. *)
Definition keeps_regions {P A : Type} (m : St (AddressSpaceMM.State P) A) : Prop :=
  forall st a st',
    m st = Ok (a, st') ->
    AddressSpaceMM.m_mmapRegions st' = AddressSpaceMM.m_mmapRegions st.

(** The call writes the byte at address [x]: directly, or into an
    initialization memory that a later [reset] copies. *)
Definition writes (c : Call) (x : Z) : Prop :=
  match c with
  | CallWriteMem address _ size =>
      exists j, 0 <= j < size /\ x = to_u32 (address + j)
  | CallAddInitializationMemory startAddr program sizeofT =>
      exists k j, 0 <= k < Z.of_nat (length program) /\ 0 <= j < sizeofT
                  /\ x = to_u32 (startAddr + k * sizeofT + j)
  | _ => False
  end.

(** The call reads the byte at address [x] through [readMem]. *)
Definition reads_mutably (c : Call) (x : Z) : Prop :=
  match c with
  | CallReadMem address width =>
      exists j, 0 <= j < to_u32 width /\ x = to_u32 (address + j)
  | _ => False
  end.

Definition never_written (l : list Call) (x : Z) : Prop :=
  Forall (fun c => ~ writes c x) l.

Definition never_read_mutably (l : list Call) (x : Z) : Prop :=
  Forall (fun c => ~ reads_mutably c x) l.

(** Keys are 32-bit addresses and values are bytes. *)
Definition store_wf (d : gmap Z Z) : Prop :=
  forall k b, d !! k = Some b -> 0 <= k < 2 ^ 32 /\ 0 <= b < 256.

(** The writes of the initialization memories, later memories first. *)
Definition segments_union (mems : list AddressSpace) : gmap Z Z :=
  foldl (fun acc mem => m_data mem ∪ acc) ∅ mems.

(** The byte that the last initialization memory holding [x] has for it. *)
Definition last_segment_byte (mems : list AddressSpace) (x : Z) : option Z :=
  foldl (fun acc mem => match m_data mem !! x with Some b => Some b | None => acc end)
        None mems.

(** ** The initialization segments in the words of the specification *)

(** Byte [j] of a 32-bit value, the least significant byte first. *)
Definition byte_of (value j : Z) : Z := Z.land (Z.shiftr (to_u32 value) (8 * j)) 255.

(** The writes of one element of a program: its [sizeofT] bytes at
    consecutive addresses from [addr] on. *)
Definition element_writes (addr x sizeofT : Z) : list (Z * Z) :=
  (fun j => (to_u32 (addr + j), byte_of x j)) <$> seqZ 0 sizeofT.

(** The writes of a segment: those of the element [k] of the program at
    [startAddr + k * sizeofT], in the order of the elements. *)
Fixpoint segment_writes_from (k startAddr : Z) (program : list Z) (sizeofT : Z)
  : list (Z * Z) :=
  match program with
  | [] => []
  | x :: rest =>
      element_writes (startAddr + k * sizeofT) x sizeofT
      ++ segment_writes_from (k + 1) startAddr rest sizeofT
  end.

Definition segment_writes (startAddr : Z) (program : list Z) (sizeofT : Z)
  : list (Z * Z) :=
  segment_writes_from 0 startAddr program sizeofT.

(** The store that a sequence of writes leaves: at each address, the byte
    of the last write to it. *)
Definition last_writes (writes : list (Z * Z)) : gmap Z Z :=
  list_to_map (reverse writes).

(** The segments that a sequence of calls has registered and not cleared,
    each as its sequence of writes, in the order of registration. *)
Definition register (segments : list (list (Z * Z))) (c : Call)
  : list (list (Z * Z)) :=
  match c with
  | CallAddInitializationMemory startAddr program sizeofT =>
      segments ++ [segment_writes startAddr program sizeofT]
  | CallClearInitializationMemories => []
  | _ => segments
  end.

Definition registered_segments (l : list Call) : list (list (Z * Z)) :=
  foldl register [] l.

(** ** Well-formed states *)

Definition segments_wf (s : AddressSpace) : Prop :=
  Forall (fun mem => store_wf (m_data mem)) (m_initializationMemories s).

Definition wf (s : AddressSpace) : Prop := store_wf (m_data s) /\ segments_wf s.

(** The cell at [x] of a store: absent ([strict]), or absent or zero. *)
Definition cell_blank (strict : bool) (o : option Z) : Prop :=
  if strict then o = None else default 0 o = 0.

(** No byte for [x] in the live store nor in any initialization memory. *)
Definition blank_at (strict : bool) (x : Z) (s : AddressSpace) : Prop :=
  cell_blank strict (m_data s !! x)
  /\ Forall (fun mem => m_data mem !! x = None) (m_initializationMemories s).

Definition never_fails {S A} (m : St S A) : Prop := forall s, succeeds (m s).

(** ** Examples of peripherals *)

(** A peripheral that keeps the values written to it and answers a read
    with the offset it is read at. *)
Definition io_echo : AddressSpaceMM.IOFunctors (list Z) :=
  {| AddressSpaceMM.ioWrite := fun _ value _ p => value :: p;
     AddressSpaceMM.ioRead := fun offset _ p => (offset, p) |}.

Definition region (base size : Z) : AddressSpaceMM.MMapValue (list Z) :=
  {| AddressSpaceMM.base := base; AddressSpaceMM.size := size;
     AddressSpaceMM.io := io_echo |}.

Definition with_regions (regions : gmap Z (AddressSpaceMM.MMapValue (list Z)))
  : AddressSpaceMM.State (list Z) :=
  {| AddressSpaceMM.super := AddressSpace.fresh;
     AddressSpaceMM.m_mmapRegions := regions;
     AddressSpaceMM.peripherals := [];
     AddressSpaceMM.io_calls := [] |}.

(** The regions [0x2000, 0x20FF] and [0x3000, 0x30FF]. *)
Definition two_regions : gmap Z (AddressSpaceMM.MMapValue (list Z)) :=
  <[0x20FF := region 0x2000 0x100]> (<[0x30FF := region 0x3000 0x100]> ∅).

(** The region of size [0x20] at [0xFFFFFFF0], whose last address wraps to
    [0xF], and the region [0, 0xFF]. *)
Definition wrapping_regions : gmap Z (AddressSpaceMM.MMapValue (list Z)) :=
  <[0xF := region 0xFFFFFFF0 0x20]> (<[0xFF := region 0 0x100]> ∅).

(** The region [0x1800, 0x18FF] and the region [0x1000, 0x1FFF] around it. *)
Definition enclosing_regions : gmap Z (AddressSpaceMM.MMapValue (list Z)) :=
  <[0x18FF := region 0x1800 0x100]> (<[0x1FFF := region 0x1000 0x1000]> ∅).

(** The region [0x1000, 0x100F] and an initialization memory with a byte
    just below the region and two bytes at its base. *)
Definition segment_across_region : AddressSpaceMM.State (list Z) :=
  {| AddressSpaceMM.super :=
       {| m_data := <[5 := 1]> ∅;
          m_initializationMemories :=
            [ {| m_data := <[0x0FFF := 0xBB]> (<[0x1000 := 0xAA]> (<[0x1001 := 0xCC]> ∅));
                 m_initializationMemories := [] |} ] |};
     AddressSpaceMM.m_mmapRegions := <[0x100F := region 0x1000 0x10]> ∅;
     AddressSpaceMM.peripherals := [];
     AddressSpaceMM.io_calls := [] |}.

(** A store with the bytes [0x44] and [0x33] at the addresses [0] and
    [1]. *)
Definition low_two_bytes : AddressSpace :=
  {| m_data := <[0 := 0x44]> (<[1 := 0x33]> ∅); m_initializationMemories := [] |}.

(** ** What [reset] hands to the functors *)

(** The bytes of the initialization memories in the order in which [reset]
    writes them, when [order] is the order of the visit of each memory. *)
Definition replayed (order : gmap Z Z -> list (Z * Z)) (mems : list AddressSpace)
  : list (Z * Z) :=
  concat (map (fun mem => order (m_data mem)) mems).

(** One call of [ioWrite] for each byte whose address is found in a region:
    with the offset of the address in the region, the byte, and the size
    one. *)
Definition forwarded_calls {P : Type} (regions : gmap Z (AddressSpaceMM.MMapValue P))
    (entries : list (Z * Z)) : list AddressSpaceMM.IOCall :=
  omap (fun memData : Z * Z =>
          match AddressSpaceMM.findMMapRegion regions memData.1 with
          | Some r =>
              Some (AddressSpaceMM.IOWriteCall (AddressSpaceMM.base r)
                      (AddressSpaceMM.size r)
                      (to_u32 (memData.1 - AddressSpaceMM.base r)) memData.2 1)
          | None => None
          end) entries.

(** The peripherals after these calls. *)
Definition forwarded_effect {P : Type} (regions : gmap Z (AddressSpaceMM.MMapValue P))
    (entries : list (Z * Z)) (p : P) : P :=
  foldl (fun p (memData : Z * Z) =>
           match AddressSpaceMM.findMMapRegion regions memData.1 with
           | Some r =>
               AddressSpaceMM.ioWrite (AddressSpaceMM.io r)
                 (to_u32 (memData.1 - AddressSpaceMM.base r)) memData.2 1 p
           | None => p
           end) p entries.

(** ** Recorded calls *)

(** The offset of a recorded call lies within the region of its functor. *)
Definition call_in_bounds (c : AddressSpaceMM.IOCall) : Prop :=
  match c with
  | AddressSpaceMM.IOWriteCall _ region_size offset _ _ => 0 <= offset < region_size
  | AddressSpaceMM.IOReadCall _ region_size offset _ => 0 <= offset < region_size
  end.

(** The regions are keyed by their last addresses and every call made so
    far had its offset within its region. *)
Definition calls_in_bounds {P : Type} (st : AddressSpaceMM.State P) : Prop :=
  AddressSpaceMM.keyed_by_last (AddressSpaceMM.m_mmapRegions st)
  /\ Forall call_in_bounds (AddressSpaceMM.io_calls st).

(** The method keeps [calls_in_bounds]. *)
Definition keeps_bounds {P A : Type} (m : St (AddressSpaceMM.State P) A) : Prop :=
  forall st a st', calls_in_bounds st -> m st = Ok (a, st') -> calls_in_bounds st'.

(** * The order of the subcomponents of a [ComponentGraphic] *)

(** Components and their graphics are identified by the addresses of the
    objects, and [nullptr] is [0].  An [std::map] with pointer keys is
    traversed in the order of its keys. *)
Definition nullptr : Z := 0.

Definition key_le {V : Type} (a b : Z * V) : Prop := a.1 <= b.1.

#[global] Instance key_le_dec {V : Type} : RelDecision (@key_le V) :=
  fun a b => Z_le_dec a.1 b.1.

(** The elements of an [std::map] in the order of iteration. *)
Definition in_key_order {V : Type} (m : gmap Z V) : list (Z * V) :=
  merge_sort key_le (map_to_list m).

(** The loop of [reverseLookup] over the elements that remain. *)
Fixpoint reverseLookup_loop {V : Type} `{EqDecision V} (items : list (Z * V)) (v : V)
  : Z :=
  match items with
  | [] => nullptr
  | i :: items => if decide (i.2 = v) then i.1 else reverseLookup_loop items v
  end.

(** [reverseLookup] at a key type of pointers, for which [K()] is
    [nullptr]. *)
Definition reverseLookup {V : Type} `{EqDecision V} (m : gmap Z V) (v : V) : Z :=
  reverseLookup_loop (in_key_order m) v.

Module ComponentGraphic.
Section WithComponents.

(** [Component::getOutputComponents], which is declared with [Component]:
    the components that the outputs of a component lead to. *)
Context (getOutputComponents : Z -> list Z).

(** The loop over the outputs in [orderSubcomponentsUtil] and the loop over
    [visited] in [orderSubcomponents]: [visit] is called for each element
    that [visited] maps to [false] when its turn comes. *)
Fixpoint visit_unvisited
    (visit : Z -> gmap Z bool -> list Z -> option (gmap Z bool * list Z))
    (ccs : list Z) (visited : gmap Z bool) (stack : list Z)
  : option (gmap Z bool * list Z) :=
  match ccs with
  | [] => Some (visited, stack)
  | cc :: ccs =>
      if decide (visited !! cc = Some false) then
        match visit cc visited stack with
        | Some (visited, stack) => visit_unvisited visit ccs visited stack
        | None => None
        end
      else visit_unvisited visit ccs visited stack
  end.

(** The recursion of [orderSubcomponentsUtil] is bounded by [fuel]; [None]
    stands for a recursion deeper than that.  [push_front] on the deque is
    [cons]. *)
Fixpoint orderSubcomponentsUtil (fuel : nat) (c : Z) (visited : gmap Z bool)
    (stack : list Z) : option (gmap Z bool * list Z) :=
  match fuel with
  | O => None
  | S fuel =>
      match visit_unvisited (orderSubcomponentsUtil fuel) (getOutputComponents c)
              (<[c := true]> visited) stack with
      | Some (visited, stack) => Some (visited, c :: stack)
      | None => None
      end
  end.

(** [visited] as the first loop of [orderSubcomponents] leaves it. *)
Definition all_unvisited (m_subcomponents : gmap Z Z) : gmap Z bool :=
  foldl (fun visited cpt => <[cpt.2 := false]> visited) ∅
        (in_key_order m_subcomponents).

(** [stack] after the second loop of [orderSubcomponents].  The recursion
    is given one level for each component. *)
Definition orderSubcomponents_stack (m_subcomponents : gmap Z Z) : option (list Z) :=
  let visited := all_unvisited m_subcomponents in
  match visit_unvisited (orderSubcomponentsUtil (size visited))
          (in_key_order visited).*1 visited [] with
  | Some (_, stack) => Some stack
  | None => None
  end.

(** The last loop of [orderSubcomponents]: the graphic of each component
    of the stack is looked up and asserted to exist.  The result lists the
    graphics in the order in which they are positioned; the positions,
    which come from the bounding rectangles, are not part of the model,
    nor is the loop that prints the names of the components. *)
Fixpoint position_loop (m_subcomponents : gmap Z Z) (stack : list Z) : Result (list Z) :=
  match stack with
  | [] => Ok []
  | c :: stack =>
      let g := reverseLookup m_subcomponents c in
      if decide (g = nullptr) then AssertionFailed
      else match position_loop m_subcomponents stack with
           | Ok gs => Ok (g :: gs)
           | AssertionFailed => AssertionFailed
           | OutOfRange => OutOfRange
           end
  end.

Definition orderSubcomponents (m_subcomponents : gmap Z Z) : option (Result (list Z)) :=
  match orderSubcomponents_stack m_subcomponents with
  | Some stack => Some (position_loop m_subcomponents stack)
  | None => None
  end.

(** *** The graph of the subcomponents *)

(** [c] is the component of one of the graphics. *)
Definition is_subcomponent (m_subcomponents : gmap Z Z) (c : Z) : Prop :=
  exists g, m_subcomponents !! g = Some c.

(** An output of [a] leads to [b], both within [K]. *)
Definition edge_in (K : Z -> Prop) (a b : Z) : Prop :=
  K a /\ K b /\ b ∈ getOutputComponents a.

(** No component of [K] reaches itself through components of [K]. *)
Definition acyclic_in (K : Z -> Prop) : Prop := forall c, ~ tc (edge_in K) c c.

End WithComponents.
End ComponentGraphic.

(** [a] comes before [b] in [l]. *)
Definition before (l : list Z) (a b : Z) : Prop :=
  exists l1 l2 l3, l = l1 ++ a :: l2 ++ b :: l3.

(** The components that [visited] holds as not visited. *)
Definition white (visited : gmap Z bool) : gset Z :=
  dom (filter (fun kv : Z * bool => kv.2 = false) visited).

(** [visited'] is [visited] with the distinct components [new], which were
    not visited, marked as visited. *)
Definition marked (visited : gmap Z bool) (new : list Z) (visited' : gmap Z bool)
  : Prop :=
  NoDup new
  /\ (forall k, k ∈ new -> visited !! k = Some false)
  /\ (forall k, visited' !! k = if decide (k ∈ new) then Some true else visited !! k).

Section Traversal.
Context (getOutputComponents : Z -> list Z) (K : Z -> Prop).

(** What a traversal from [roots] has done when it has marked [new] and
    pushed it in front of [stack]: no output of a new component is left
    unvisited; each new component is reached from a root; and an output
    [k'] of a new component [k] comes after [k] on the stack, unless the
    traversal of [k'] had begun before and not ended, or [k'] lies on a
    cycle. *)
Definition traversed (roots : list Z) (visited : gmap Z bool) (stack new : list Z)
    (visited' : gmap Z bool) : Prop :=
  marked visited new visited'
  /\ (forall k k', k ∈ new -> k' ∈ getOutputComponents k -> visited' !! k' <> Some false)
  /\ (forall k, k ∈ new ->
        exists r, r ∈ roots /\ rtc (ComponentGraphic.edge_in getOutputComponents K) r k)
  /\ (forall k k', k ∈ new -> k' ∈ getOutputComponents k -> is_Some (visited !! k') ->
        before (new ++ stack) k k'
        \/ (visited !! k' = Some true /\ k' ∉ stack)
        \/ tc (ComponentGraphic.edge_in getOutputComponents K) k' k').

(** [visit] traverses from an unvisited component whenever at most [n]
    components are unvisited. *)
Definition visit_spec
    (visit : Z -> gmap Z bool -> list Z -> option (gmap Z bool * list Z)) (n : nat)
  : Prop :=
  forall c visited stack,
    visited !! c = Some false ->
    (size (white visited) <= n)%nat ->
    (forall k, visited !! k = Some false -> K k) ->
    exists new visited',
      visit c visited stack = Some (visited', new ++ stack)
      /\ c ∈ new
      /\ traversed [c] visited stack new visited'.

End Traversal.

(** Three components, with outputs from [0x30] to [0x10] and [0x20] and
    from [0x20] to [0x10], and their graphics. *)
Definition chain_outputs (c : Z) : list Z :=
  if decide (c = 0x30) then [0x10; 0x20]
  else if decide (c = 0x20) then [0x10] else [].

Definition chain_subcomponents : gmap Z Z :=
  <[0x300 := 0x30]> (<[0x200 := 0x10]> (<[0x100 := 0x20]> ∅)).

(** Two components whose outputs lead to each other. *)
Definition loop_outputs (c : Z) : list Z :=
  if decide (c = 0x10) then [0x20] else if decide (c = 0x20) then [0x10] else [].

Definition loop_subcomponents : gmap Z Z :=
  <[0x200 := 0x20]> (<[0x100 := 0x10]> ∅).

(** Case analysis on a lookup in a map written as a sequence of inserts. *)
Ltac lookup_cases H :=
  repeat (apply lookup_insert_Some in H as [[<- <-] | [? H]]);
  try (rewrite lookup_empty in H; discriminate).

(** ** Machine integers: lemmas *)

Lemma to_u32_range x : 0 <= to_u32 x < 2 ^ 32.
Proof. unfold to_u32, VSRTL_VT_U_BITS. apply Z.mod_pos_bound. lia. Qed.

Lemma to_u32_small x : 0 <= x < 2 ^ 32 -> to_u32 x = x.
Proof. intros H. unfold to_u32, VSRTL_VT_U_BITS. apply Z.mod_small. lia. Qed.

Lemma to_u32_idem x : to_u32 (to_u32 x) = to_u32 x.
Proof. apply to_u32_small, to_u32_range. Qed.

Lemma to_u32_add_l x y : to_u32 (to_u32 x + y) = to_u32 (x + y).
Proof. unfold to_u32. apply Zplus_mod_idemp_l. Qed.

Lemma to_u32_inj_near x y : to_u32 x = to_u32 y -> 0 <= y - x < 2 ^ 32 -> x = y.
Proof.
  unfold to_u32, VSRTL_VT_U_BITS. intros Heq Hd.
  pose proof (Z.div_mod x (2 ^ 32) ltac:(lia)) as Hx.
  pose proof (Z.div_mod y (2 ^ 32) ltac:(lia)) as Hy.
  rewrite Heq in Hx.
  assert (y - x = 2 ^ 32 * (y / 2 ^ 32 - x / 2 ^ 32)) as Hk by lia.
  assert (y / 2 ^ 32 - x / 2 ^ 32 = 0) by nia.
  lia.
Qed.

Lemma to_u8_byte v : to_u8 (Z.land v 255) = Z.land v 255.
Proof.
  unfold to_u8, CHAR_BIT. change 255 with (Z.ones 8).
  rewrite Z.land_ones by lia. apply Z.mod_mod. lia.
Qed.

Lemma byte_range v : 0 <= Z.land v 255 < 256.
Proof.
  change 255 with (Z.ones 8). rewrite Z.land_ones by lia.
  change 256 with (2 ^ 8). apply Z.mod_pos_bound. lia.
Qed.

Lemma shl_to_u32_0 k : shl_to_u32 0 k = 0.
Proof. unfold shl_to_u32. now rewrite Z.shiftl_0_l. Qed.

(** Appending the byte at position [i] to the low [i] bytes of [v]. *)
Lemma low_bytes_step v i :
  0 <= i ->
  Z.lor (Z.land v (Z.ones (8 * i)))
        (Z.shiftl (Z.land (Z.shiftr v (8 * i)) 255) (8 * i))
  = Z.land v (Z.ones (8 * (i + 1))).
Proof.
  intros Hi. apply Z.bits_inj'. intros k Hk.
  change 255 with (Z.ones 8).
  rewrite Z.lor_spec, !Z.land_spec.
  destruct (Z_lt_ge_dec k (8 * i)) as [Hlt | Hge].
  - rewrite Z.shiftl_spec_low by lia.
    rewrite !Z.ones_spec_low by lia.
    now rewrite orb_false_r.
  - rewrite Z.shiftl_spec by lia.
    rewrite Z.land_spec, Z.shiftr_spec by lia.
    rewrite (Z.ones_spec_high (8 * i)) by lia.
    rewrite andb_false_r. cbn [orb].
    replace (k - 8 * i + 8 * i) with k by lia.
    f_equal.
    destruct (Z_lt_ge_dec k (8 * (i + 1))).
    + rewrite !Z.ones_spec_low by lia. reflexivity.
    + rewrite !Z.ones_spec_high by lia. reflexivity.
Qed.

Lemma shl_byte_fits b i :
  0 <= b < 256 -> 0 <= i < 4 -> shl_to_u32 b (to_u32 (i * CHAR_BIT)) = Z.shiftl b (8 * i).
Proof.
  intros Hb Hi. unfold shl_to_u32, CHAR_BIT.
  rewrite (to_u32_small (i * 8)) by lia.
  rewrite Z.mod_small by lia.
  replace (i * 8) with (8 * i) by lia.
  apply to_u32_small. rewrite Z.shiftl_mul_pow2 by lia.
  assert (0 < 2 ^ (8 * i) <= 2 ^ 24) as H2.
  { split; [apply Z.pow_pos_nonneg; lia | apply Z.pow_le_mono_r; lia]. }
  nia.
Qed.

(** ** The byte store: the loops and their functional descriptions *)

Module AddressSpaceFacts.
Import AddressSpace.

Lemma set_m_data_id s : set_m_data (m_data s) s = s.
Proof. now destruct s. Qed.

Lemma writeMem_loop_eq n : forall i address value s,
  writeMem_loop n i address value s
  = Ok (tt, set_m_data (write_bytes n i address value (m_data s)) s).
Proof.
  induction n as [| n IH]; intros i address value s; cbn [writeMem_loop write_bytes].
  - unfold ret. now rewrite set_m_data_id.
  - unfold bind, data_assign. rewrite IH. cbn [m_data set_m_data].
    now rewrite to_u8_byte.
Qed.

Lemma peek_insert_absent d k x : d !! k = None -> peek (<[k := 0]> d) x = peek d x.
Proof.
  intros Hk. unfold peek. destruct (decide (k = x)) as [-> | Hne].
  - now rewrite lookup_insert_eq, Hk.
  - now rewrite lookup_insert_ne.
Qed.

Lemma read_bytes_ext n : forall i address value d d',
  (forall x, peek d x = peek d' x) ->
  read_bytes n i address value d = read_bytes n i address value d'.
Proof.
  induction n as [| n IH]; intros i address value d d' Hext; cbn [read_bytes].
  - reflexivity.
  - rewrite (Hext address). now apply IH.
Qed.

Lemma readMem_loop_eq n : forall i address value s,
  readMem_loop n i address value s
  = Ok (read_bytes n i address value (m_data s),
        set_m_data (touch_bytes n address (m_data s)) s).
Proof.
  induction n as [| n IH]; intros i address value s;
    cbn [readMem_loop read_bytes touch_bytes].
  - unfold ret. now rewrite set_m_data_id.
  - unfold bind, data_index, peek.
    destruct (m_data s !! address) as [b |] eqn:Hb.
    + rewrite IH. reflexivity.
    + rewrite IH. cbn [m_data set_m_data default]. f_equal. f_equal.
      apply read_bytes_ext. intros x. now apply peek_insert_absent.
Qed.

Lemma contains_eq address s :
  contains address s = Ok (bool_decide (is_Some (m_data s !! to_u32 address)), s).
Proof.
  unfold contains, bind, data_count, ret.
  destruct (m_data s !! to_u32 address); reflexivity.
Qed.

Lemma readMemConst_loop_eq n : forall i address value s,
  0 <= address < 2 ^ 32 ->
  readMemConst_loop n i address value s
  = Ok (read_bytes n i address value (m_data s), s).
Proof.
  induction n as [| n IH]; intros i address value s Ha;
    cbn [readMemConst_loop read_bytes].
  - reflexivity.
  - unfold bind at 1. rewrite contains_eq, (to_u32_small address) by exact Ha.
    unfold bind at 1. unfold peek.
    destruct (m_data s !! address) as [b |] eqn:Hb; cbn.
    + unfold bind, data_at. rewrite Hb. unfold ret.
      apply IH, to_u32_range.
    + unfold ret. rewrite shl_to_u32_0. apply IH, to_u32_range.
Qed.

Lemma writeMem_eq address value size s :
  writeMem address value size s
  = Ok (tt, set_m_data (write_bytes (Z.to_nat size) 0 (to_u32 address)
                          (to_u32 value) (m_data s)) s).
Proof. apply writeMem_loop_eq. Qed.

Lemma readMem_eq address width s :
  readMem address width s
  = Ok (read_bytes (Z.to_nat (to_u32 width)) 0 (to_u32 address) 0 (m_data s),
        set_m_data (touch_bytes (Z.to_nat (to_u32 width)) (to_u32 address)
                      (m_data s)) s).
Proof. apply readMem_loop_eq. Qed.

Lemma readMemConst_eq address width s :
  readMemConst address width s
  = Ok (read_bytes (Z.to_nat (to_u32 width)) 0 (to_u32 address) 0 (m_data s), s).
Proof. apply readMemConst_loop_eq, to_u32_range. Qed.

(** *** What [write_bytes] leaves in the store *)

Lemma write_bytes_lookup_out n : forall i address value d x,
  (forall j, 0 <= j < Z.of_nat n -> x <> to_u32 (address + i + j)) ->
  write_bytes n i address value d !! x = d !! x.
Proof.
  induction n as [| n IH]; intros i address value d x Hout; cbn [write_bytes].
  - reflexivity.
  - rewrite IH.
    + apply lookup_insert_ne. intros Heq.
      apply (Hout 0); [lia |]. now rewrite Z.add_0_r.
    + intros j Hj. replace (address + (i + 1) + j) with (address + i + (j + 1)) by lia.
      apply Hout. lia.
Qed.

Lemma write_bytes_lookup_in n : forall i address value d j,
  Z.of_nat n <= 2 ^ 32 -> 0 <= j < Z.of_nat n ->
  write_bytes n i address value d !! to_u32 (address + i + j)
  = Some (Z.land (Z.shiftr value (8 * j)) 255).
Proof.
  induction n as [| n IH]; intros i address value d j Hn Hj; [lia |].
  cbn [write_bytes].
  destruct (decide (j = 0)) as [-> | Hj0].
  - rewrite write_bytes_lookup_out.
    + rewrite Z.add_0_r, lookup_insert_eq. now rewrite Z.shiftr_0_r.
    + intros j Hj' Heq. apply to_u32_inj_near in Heq; lia.
  - replace (address + i + j) with (address + (i + 1) + (j - 1)) by lia.
    rewrite IH by lia. rewrite Z.shiftr_shiftr by lia.
    do 3 f_equal. lia.
Qed.

(** *** Reading back the low bytes of a value *)

Lemma read_bytes_low n : forall i address value d,
  0 <= i -> i + Z.of_nat n <= 4 ->
  (forall j, 0 <= j < Z.of_nat n ->
             d !! to_u32 (address + i + j)
             = Some (Z.land (Z.shiftr value (8 * (i + j))) 255)) ->
  read_bytes n i (to_u32 (address + i)) (Z.land value (Z.ones (8 * i))) d
  = Z.land value (Z.ones (8 * (i + Z.of_nat n))).
Proof.
  induction n as [| n IH]; intros i address value d Hi Hn Hd; cbn [read_bytes].
  - now rewrite Z.add_0_r.
  - unfold peek. specialize (Hd 0 ltac:(lia)) as Hd0.
    rewrite !Z.add_0_r in Hd0. rewrite Hd0. cbn [default].
    rewrite shl_byte_fits by (try apply byte_range; lia).
    rewrite low_bytes_step by lia.
    rewrite to_u32_add_l.
    replace (address + i + 1) with (address + (i + 1)) by lia.
    rewrite IH.
    + f_equal. f_equal. lia.
    + lia.
    + lia.
    + intros j Hj. replace (address + (i + 1) + j) with (address + i + (j + 1)) by lia.
      rewrite Hd by lia. do 3 f_equal. lia.
Qed.

Lemma touch_bytes_present n : forall address d,
  (forall j, 0 <= j < Z.of_nat n -> is_Some (d !! to_u32 (address + j))) ->
  touch_bytes n (to_u32 address) d = d.
Proof.
  induction n as [| n IH]; intros address d Hd; cbn [touch_bytes].
  - reflexivity.
  - destruct (Hd 0 ltac:(lia)) as [b Hb]. rewrite Z.add_0_r in Hb. rewrite Hb.
    rewrite to_u32_add_l. apply IH. intros j Hj.
    replace (address + 1 + j) with (address + (j + 1)) by lia. apply Hd. lia.
Qed.

End AddressSpaceFacts.

(** ** Write/read round trip *)

(** C5. On the plain byte store, for every address [a], every value [v] and
    every width [w] of at most the native word width, [writeMem a v w]
    succeeds, stores the bytes of [v] least-significant first at
    [a], [a+1], ... (modulo [2^32], without any alignment condition), and
    reading [w] bytes back at [a] with [readMem] or with [readMemConst]
    gives [v & ((1 << 8w) - 1)], for [v] as a 32-bit value. *)
Theorem writeMem_readMem_roundtrip (s : AddressSpace) (a v w : Z) :
  0 <= w <= sizeof_VSRTL_VT_U ->
  exists s1,
    AddressSpace.writeMem a v w s = Ok (tt, s1)
    /\ (forall j, 0 <= j < w ->
                  m_data s1 !! to_u32 (a + j)
                  = Some (Z.land (Z.shiftr (to_u32 v) (8 * j)) 255))
    /\ AddressSpace.readMem a w s1
       = Ok (Z.land (to_u32 v) (Z.shiftl 1 (8 * w) - 1), s1)
    /\ AddressSpace.readMemConst a w s1
       = Ok (Z.land (to_u32 v) (Z.shiftl 1 (8 * w) - 1), s1).
Proof.
  unfold sizeof_VSRTL_VT_U. intros Hw.
  rewrite AddressSpaceFacts.writeMem_eq. eexists. split; [reflexivity |].
  set (d1 := write_bytes _ _ _ _ _).
  assert (Hbytes : forall j, 0 <= j < w ->
             d1 !! to_u32 (a + j) = Some (Z.land (Z.shiftr (to_u32 v) (8 * j)) 255)).
  { intros j Hj. subst d1.
    rewrite <- (to_u32_add_l a j).
    replace (to_u32 a + j) with (to_u32 a + 0 + j) by lia.
    apply AddressSpaceFacts.write_bytes_lookup_in; lia. }
  assert (Hval : read_bytes (Z.to_nat (to_u32 w)) 0 (to_u32 a) 0 d1
                 = Z.land (to_u32 v) (Z.shiftl 1 (8 * w) - 1)).
  { rewrite (to_u32_small w) by lia.
    pose proof (AddressSpaceFacts.read_bytes_low (Z.to_nat w) 0 a (to_u32 v) d1) as Hr.
    rewrite Z.mul_0_r, Z.add_0_r in Hr. cbn [Z.ones Z.shiftl Z.pred Z.add] in Hr.
    rewrite Z.land_0_r in Hr. rewrite Hr.
    - rewrite Z2Nat.id by lia. rewrite Z.add_0_l.
      unfold Z.ones. now rewrite <- Z.sub_1_r.
    - lia.
    - lia.
    - intros j Hj. rewrite Z.add_0_l. apply Hbytes. lia. }
  split; [exact Hbytes |]. split.
  - rewrite AddressSpaceFacts.readMem_eq. cbn [m_data AddressSpace.set_m_data].
    rewrite Hval. do 2 f_equal.
    rewrite AddressSpaceFacts.touch_bytes_present; [reflexivity |].
    intros j Hj. rewrite Hbytes; [eauto |].
    rewrite (to_u32_small w) in Hj; lia.
  - rewrite AddressSpaceFacts.readMemConst_eq. cbn [m_data AddressSpace.set_m_data].
    now rewrite Hval.
Qed.

Lemma writeMem_readMem_roundtrip_witness :
  exists s1,
    AddressSpace.writeMem 4294967294 287454020 3 AddressSpace.fresh = Ok (tt, s1)
    /\ (forall j, 0 <= j < 3 ->
                  m_data s1 !! to_u32 (4294967294 + j)
                  = Some (Z.land (Z.shiftr (to_u32 287454020) (8 * j)) 255))
    /\ AddressSpace.readMem 4294967294 3 s1
       = Ok (Z.land (to_u32 287454020) (Z.shiftl 1 (8 * 3) - 1), s1)
    /\ AddressSpace.readMemConst 4294967294 3 s1
       = Ok (Z.land (to_u32 287454020) (Z.shiftl 1 (8 * 3) - 1), s1).
Proof.
  apply (writeMem_readMem_roundtrip AddressSpace.fresh 4294967294 287454020 3).
  unfold sizeof_VSRTL_VT_U. lia.
Defined.

(** ** Well-formed stores *)

Module StoreFacts.
Import AddressSpace.

Lemma store_wf_empty : store_wf ∅.
Proof. intros k b Hk. now rewrite lookup_empty in Hk. Qed.

Lemma store_wf_insert d k b :
  0 <= k < 2 ^ 32 -> 0 <= b < 256 -> store_wf d -> store_wf (<[k := b]> d).
Proof.
  intros Hk Hb Hd k' b' Hlook.
  destruct (decide (k = k')) as [<- | Hne].
  - rewrite lookup_insert_eq in Hlook. now inversion Hlook; subst.
  - rewrite lookup_insert_ne in Hlook by exact Hne. now apply Hd in Hlook.
Qed.

Lemma store_wf_union d1 d2 : store_wf d1 -> store_wf d2 -> store_wf (d1 ∪ d2).
Proof.
  intros H1 H2 k b Hlook. apply lookup_union_Some_raw in Hlook.
  destruct Hlook as [Hl | [_ Hr]]; eauto.
Qed.

Lemma store_wf_write_bytes n : forall i address value d,
  store_wf d -> store_wf (write_bytes n i address value d).
Proof.
  induction n as [| n IH]; intros i address value d Hd; cbn [write_bytes].
  - exact Hd.
  - apply IH, store_wf_insert; auto using to_u32_range, byte_range.
Qed.

Lemma store_wf_touch_bytes n : forall address d,
  0 <= address < 2 ^ 32 -> store_wf d -> store_wf (touch_bytes n address d).
Proof.
  induction n as [| n IH]; intros address d Ha Hd; cbn [touch_bytes].
  - exact Hd.
  - apply IH; [apply to_u32_range |].
    destruct (d !! address); [exact Hd |].
    apply store_wf_insert; auto. lia.
Qed.

Lemma peek_touch_bytes n : forall address d x,
  peek (touch_bytes n address d) x = peek d x.
Proof.
  induction n as [| n IH]; intros address d x; cbn [touch_bytes].
  - reflexivity.
  - rewrite IH. destruct (d !! address) eqn:Hd; [reflexivity |].
    now apply AddressSpaceFacts.peek_insert_absent.
Qed.

Lemma touch_bytes_lookup_out n : forall address d x,
  (forall j, 0 <= j < Z.of_nat n -> x <> to_u32 (address + j)) ->
  touch_bytes n (to_u32 address) d !! x = d !! x.
Proof.
  induction n as [| n IH]; intros address d x Hout; cbn [touch_bytes].
  - reflexivity.
  - rewrite to_u32_add_l, IH.
    + destruct (d !! to_u32 address); [reflexivity |].
      apply lookup_insert_ne. intros Heq.
      apply (Hout 0); [lia |]. now rewrite Z.add_0_r.
    + intros j Hj. replace (address + 1 + j) with (address + (j + 1)) by lia.
      apply Hout. lia.
Qed.

(** *** Replaying the entries of an initialization memory *)

Lemma foldl_insert_union (entries : list (Z * Z)) : forall d : gmap Z Z,
  NoDup entries.*1 ->
  foldl (fun acc kv => <[kv.1 := kv.2]> acc) d entries = list_to_map entries ∪ d.
Proof.
  induction entries as [| [k v] rest IH]; intros d Hnd; cbn [foldl list_to_map foldr].
  - now rewrite (left_id_L ∅ (∪)).
  - rewrite fmap_cons in Hnd. apply NoDup_cons in Hnd as [Hk Hrest].
    rewrite IH by exact Hrest. cbn [fst snd].
    rewrite <- insert_union_r by now apply not_elem_of_list_to_map_1.
    now rewrite insert_union_l.
Qed.

Lemma replay_fold entries : forall s,
  Forall (fun kv : Z * Z => 0 <= kv.1 < 2 ^ 32 /\ 0 <= kv.2 < 256) entries ->
  replay entries s
  = Ok (tt, set_m_data (foldl (fun acc kv => <[kv.1 := kv.2]> acc) (m_data s) entries) s).
Proof.
  unfold replay.
  induction entries as [| [k v] rest IH]; intros s Hwf; cbn [for_each foldl].
  - unfold ret. now rewrite AddressSpaceFacts.set_m_data_id.
  - apply Forall_cons in Hwf as [[Hk Hv] Hrest]. cbn [fst snd] in *.
    unfold bind. rewrite AddressSpaceFacts.writeMem_eq.
    rewrite IH by exact Hrest. cbn [m_data set_m_data].
    change (Z.to_nat 1) with 1%nat. cbn [write_bytes].
    rewrite Z.add_0_r, to_u32_idem, (to_u32_small k), (to_u32_small v) by lia.
    change 255 with (Z.ones 8). rewrite Z.land_ones, Z.mod_small by lia.
    reflexivity.
Qed.

(** The store after a replay does not depend on the order in which the
    [unordered_map] hands out its elements. *)
Lemma replay_Permutation (m : gmap Z Z) entries s :
  entries ≡ₚ map_to_list m -> store_wf m ->
  replay entries s = Ok (tt, set_m_data (m ∪ m_data s) s).
Proof.
  intros Hperm Hwf.
  assert (NoDup entries.*1) as Hnd.
  { rewrite Hperm. apply NoDup_fst_map_to_list. }
  rewrite replay_fold.
  - rewrite foldl_insert_union by exact Hnd.
    rewrite (list_to_map_proper entries (map_to_list m)) by assumption.
    now rewrite list_to_map_to_list.
  - apply Forall_forall. intros [k v] Hin. rewrite Hperm in Hin.
    apply elem_of_map_to_list in Hin. now apply Hwf in Hin.
Qed.

Lemma for_each_replay mems : forall s,
  Forall (fun mem => store_wf (m_data mem)) mems ->
  for_each mems (fun mem => replay (map_to_list (m_data mem))) s
  = Ok (tt, set_m_data (foldl (fun acc mem => m_data mem ∪ acc) (m_data s) mems) s).
Proof.
  induction mems as [| mem rest IH]; intros s Hwf; cbn [for_each foldl].
  - unfold ret. now rewrite AddressSpaceFacts.set_m_data_id.
  - apply Forall_cons in Hwf as [Hmem Hrest].
    unfold bind. rewrite (replay_Permutation (m_data mem)) by auto.
    rewrite IH by exact Hrest. reflexivity.
Qed.

Lemma reset_eq s :
  Forall (fun mem => store_wf (m_data mem)) (m_initializationMemories s) ->
  reset s = Ok (tt, set_m_data (segments_union (m_initializationMemories s)) s).
Proof.
  intros Hwf. unfold reset, bind, data_clear, get.
  cbn [set_m_data m_initializationMemories].
  rewrite for_each_replay by exact Hwf. reflexivity.
Qed.

Lemma foldl_union_lookup mems x : forall acc : gmap Z Z,
  foldl (fun acc mem => m_data mem ∪ acc) acc mems !! x
  = foldl (fun o mem => match m_data mem !! x with Some b => Some b | None => o end)
          (acc !! x) mems.
Proof.
  induction mems as [| mem rest IH]; intros acc; cbn [foldl].
  - reflexivity.
  - rewrite IH. f_equal. rewrite lookup_union.
    destruct (m_data mem !! x), (acc !! x); reflexivity.
Qed.

Lemma segments_union_lookup mems x :
  segments_union mems !! x = last_segment_byte mems x.
Proof.
  unfold segments_union, last_segment_byte.
  now rewrite foldl_union_lookup, lookup_empty.
Qed.

End StoreFacts.

(** ** States reached by sequences of calls *)

Module TraceFacts.
Import AddressSpace.

Lemma wf_fresh : wf fresh.
Proof. split; [apply StoreFacts.store_wf_empty | constructor]. Qed.

Lemma blank_at_fresh strict x : blank_at strict x fresh.
Proof.
  split; [| constructor]. cbn [fresh m_data]. rewrite lookup_empty.
  now destruct strict.
Qed.

Lemma store_wf_segments_union mems :
  Forall (fun mem => store_wf (m_data mem)) mems -> store_wf (segments_union mems).
Proof.
  unfold segments_union. generalize (∅ : gmap Z Z) StoreFacts.store_wf_empty.
  induction mems as [| mem rest IH]; intros acc Hacc Hwf; cbn [foldl].
  - exact Hacc.
  - apply Forall_cons in Hwf as [Hmem Hrest].
    apply IH; [now apply StoreFacts.store_wf_union | exact Hrest].
Qed.

Lemma last_segment_byte_blank mems x :
  Forall (fun mem => m_data mem !! x = None) mems -> last_segment_byte mems x = None.
Proof.
  unfold last_segment_byte. intros Hbl.
  enough (forall o : option Z,
             foldl (fun acc mem =>
                      match m_data mem !! x with Some b => Some b | None => acc end)
                   o mems = o) as Hgen by apply Hgen.
  induction Hbl as [| mem rest Hmem _ IH]; intros o; cbn [foldl].
  - reflexivity.
  - rewrite Hmem. apply IH.
Qed.

Lemma addInitializationMemory_loop_ok program : forall sizeofT addr s,
  exists d',
    addInitializationMemory_loop program sizeofT addr s = Ok (tt, set_m_data d' s)
    /\ (store_wf (m_data s) -> store_wf d')
    /\ (forall x,
          (forall k j, 0 <= k < Z.of_nat (length program) -> 0 <= j < sizeofT ->
                       x <> to_u32 (addr + k * sizeofT + j)) ->
          d' !! x = m_data s !! x).
Proof.
  induction program as [| p rest IH]; intros sizeofT addr s;
    cbn [addInitializationMemory_loop].
  - exists (m_data s). unfold ret. rewrite AddressSpaceFacts.set_m_data_id. auto.
  - unfold bind. rewrite AddressSpaceFacts.writeMem_eq.
    set (d1 := write_bytes _ _ _ _ _).
    destruct (IH sizeofT (to_u32 (addr + sizeofT)) (set_m_data d1 s))
      as (d' & Hrun & Hwf & Hout).
    exists d'. rewrite Hrun. cbn [m_data set_m_data] in *.
    split; [reflexivity |]. split.
    + intros Hs. apply Hwf. subst d1. now apply StoreFacts.store_wf_write_bytes.
    + intros x Hx. rewrite Hout.
      * subst d1. apply AddressSpaceFacts.write_bytes_lookup_out.
        intros j Hj. rewrite Z.add_0_r, to_u32_add_l.
        specialize (Hx 0 j). rewrite Z.mul_0_l, Z.add_0_r in Hx.
        apply Hx; cbn [length]; lia.
      * intros k j Hk Hj. rewrite <- Z.add_assoc, to_u32_add_l.
        replace (addr + sizeofT + (k * sizeofT + j))
          with (addr + (k + 1) * sizeofT + j) by lia.
        apply Hx; cbn [length]; lia.
Qed.

Lemma discard_eq {A} (m : St AddressSpace A) s a s' :
  m s = Ok (a, s') -> discard m s = Ok (tt, s').
Proof. intros H. unfold discard, bind. now rewrite H. Qed.

(** One call keeps the state well formed and, unless it writes [x] (or,
    for the strict form, reads it through [readMem]), keeps [x] blank. *)
Lemma call_ok strict c x s :
  wf s -> blank_at strict x s ->
  ~ writes c x -> (strict = true -> ~ reads_mutably c x) ->
  exists s', call c s = Ok (tt, s') /\ wf s' /\ blank_at strict x s'.
Proof.
  intros [Hd Hsegs] [Hcell Hbl] Hnw Hnr.
  destruct c as [a v n | a w | a w | a | a | start program sizeofT | |]; cbn [call].
  - (* writeMem *)
    rewrite AddressSpaceFacts.writeMem_eq. eexists. split; [reflexivity |].
    split; [split |]; [now apply StoreFacts.store_wf_write_bytes | exact Hsegs |].
    split; [| exact Hbl]. cbn [m_data set_m_data].
    rewrite AddressSpaceFacts.write_bytes_lookup_out; [exact Hcell |].
    intros j Hj Heq. apply Hnw. exists j.
    rewrite Z.add_0_r, to_u32_add_l in Heq. split; [lia | exact Heq].
  - (* readMem *)
    erewrite discard_eq by apply AddressSpaceFacts.readMem_eq.
    eexists. split; [reflexivity |].
    split; [split |];
      [apply StoreFacts.store_wf_touch_bytes; auto using to_u32_range
      | exact Hsegs |].
    split; [| exact Hbl]. cbn [m_data set_m_data].
    destruct strict; cbn [cell_blank] in *.
    + rewrite StoreFacts.touch_bytes_lookup_out; [exact Hcell |].
      intros j Hj Heq. apply (Hnr eq_refl). exists j. split; [lia | exact Heq].
    + fold (peek (touch_bytes (Z.to_nat (to_u32 w)) (to_u32 a) (m_data s)) x).
      now rewrite StoreFacts.peek_touch_bytes.
  - (* readMemConst *)
    erewrite discard_eq by apply AddressSpaceFacts.readMemConst_eq.
    exists s. unfold wf, blank_at. auto.
  - (* contains *)
    erewrite discard_eq by apply AddressSpaceFacts.contains_eq.
    exists s. unfold wf, blank_at. auto.
  - (* regionType *)
    exists s. unfold wf, blank_at, discard, bind, regionType, ret. auto.
  - (* addInitializationMemory *)
    unfold addInitializationMemory, on_emplaced_back.
    destruct (addInitializationMemory_loop_ok program sizeofT (to_u32 start) fresh)
      as (d' & Hrun & Hwf & Hout).
    rewrite Hrun. eexists. split; [reflexivity |].
    cbn [m_data m_initializationMemories set_m_data fresh] in *.
    split; [split |]; [exact Hd | |].
    + apply Forall_app. split; [exact Hsegs |].
      constructor; [| constructor]. apply Hwf, StoreFacts.store_wf_empty.
    + split; [exact Hcell |]. apply Forall_app. split; [exact Hbl |].
      constructor; [| constructor]. cbn [m_data].
      rewrite Hout; [apply lookup_empty |].
      intros k j Hk Hj Heq. apply Hnw. exists k, j.
      rewrite <- Z.add_assoc, to_u32_add_l, Z.add_assoc in Heq. auto.
  - (* clearInitializationMemories *)
    eexists. split; [reflexivity |].
    split; [split |]; [exact Hd | constructor |].
    split; [exact Hcell | constructor].
  - (* reset *)
    rewrite StoreFacts.reset_eq by exact Hsegs.
    eexists. split; [reflexivity |].
    split; [split |]; [now apply store_wf_segments_union | exact Hsegs |].
    split; [| exact Hbl]. cbn [m_data set_m_data].
    rewrite StoreFacts.segments_union_lookup, last_segment_byte_blank by exact Hbl.
    now destruct strict.
Qed.

Lemma calls_ok strict l x : forall s,
  wf s -> blank_at strict x s ->
  never_written l x -> (strict = true -> never_read_mutably l x) ->
  exists s', calls l s = Ok (tt, s') /\ wf s' /\ blank_at strict x s'.
Proof.
  unfold calls.
  induction l as [| c rest IH]; intros s Hwf Hblank Hnw Hnr; cbn [for_each].
  - exists s. auto.
  - apply Forall_cons in Hnw as [Hnwc Hnwrest].
    destruct (call_ok strict c x s Hwf Hblank Hnwc) as (s1 & Hrun & Hwf1 & Hblank1).
    { intros Hs. specialize (Hnr Hs). now apply Forall_cons in Hnr as [? _]. }
    destruct (IH s1 Hwf1 Hblank1 Hnwrest) as (s' & Hrun' & Hwf' & Hblank').
    { intros Hs. specialize (Hnr Hs). now apply Forall_cons in Hnr as [_ ?]. }
    exists s'. unfold bind. rewrite Hrun. auto.
Qed.

(** Every sequence of calls runs to completion, in a well-formed state. *)
Lemma calls_wf l : exists s, calls l fresh = Ok (tt, s) /\ wf s.
Proof.
  assert (forall s, wf s -> exists s', calls l s = Ok (tt, s') /\ wf s') as Hgen.
  { unfold calls. induction l as [| c rest IH]; intros s Hwf; cbn [for_each].
    - exists s. auto.
    - assert (exists s1, call c s = Ok (tt, s1) /\ wf s1) as (s1 & Hrun & Hwf1).
      { destruct c as [a v n | a w | a w | a | a | start program sizeofT | |];
          cbn [call].
        - rewrite AddressSpaceFacts.writeMem_eq. eexists. split; [reflexivity |].
          destruct Hwf. split; [now apply StoreFacts.store_wf_write_bytes | easy].
        - erewrite discard_eq by apply AddressSpaceFacts.readMem_eq.
          eexists. split; [reflexivity |]. destruct Hwf.
          split; [| easy].
          apply StoreFacts.store_wf_touch_bytes; auto using to_u32_range.
        - erewrite discard_eq by apply AddressSpaceFacts.readMemConst_eq. eauto.
        - erewrite discard_eq by apply AddressSpaceFacts.contains_eq. eauto.
        - exists s. auto.
        - unfold addInitializationMemory, on_emplaced_back.
          destruct (addInitializationMemory_loop_ok program sizeofT
                      (to_u32 start) fresh) as (d' & Hrun & Hwfd & _).
          rewrite Hrun. eexists. split; [reflexivity |]. destruct Hwf as [Hd Hsegs].
          split; [exact Hd |]. apply Forall_app. split; [exact Hsegs |].
          constructor; [| constructor]. apply Hwfd, StoreFacts.store_wf_empty.
        - eexists. split; [reflexivity |]. destruct Hwf. split; [easy | constructor].
        - destruct Hwf as [Hd Hsegs]. rewrite StoreFacts.reset_eq by exact Hsegs.
          eexists. split; [reflexivity |].
          split; [now apply store_wf_segments_union | exact Hsegs]. }
      destruct (IH s1 Hwf1) as (s' & Hrun' & Hwf').
      exists s'. unfold bind. rewrite Hrun. auto. }
  apply Hgen, wf_fresh.
Qed.

End TraceFacts.

(** ** The segments that the calls register *)

Module SegmentFacts.
Import AddressSpace.

Lemma foldl_insert_last_writes (writes : list (Z * Z)) : forall d : gmap Z Z,
  foldl (fun acc kv => <[kv.1 := kv.2]> acc) d writes = last_writes writes ∪ d.
Proof.
  unfold last_writes.
  induction writes as [| [k v] rest IH]; intros d; cbn [foldl fst snd].
  - cbn. now rewrite (left_id_L ∅ (∪)).
  - rewrite IH, reverse_cons, list_to_map_app, <- (assoc_L (∪)).
    f_equal. cbn [list_to_map foldr fst snd]. rewrite <- insert_union_l.
    now rewrite (left_id_L ∅ (∪)).
Qed.

Lemma last_writes_app (w1 w2 : list (Z * Z)) :
  last_writes (w1 ++ w2) = last_writes w2 ∪ last_writes w1.
Proof. unfold last_writes. now rewrite reverse_app, list_to_map_app. Qed.

Lemma write_bytes_writes n : forall i address value d,
  0 <= i ->
  write_bytes n i address (Z.shiftr value (8 * i)) d
  = foldl (fun acc kv => <[kv.1 := kv.2]> acc) d
      ((fun j => (to_u32 (address + j), Z.land (Z.shiftr value (8 * j)) 255))
         <$> seqZ i (Z.of_nat n)).
Proof.
  induction n as [| n IH]; intros i address value d Hi.
  - reflexivity.
  - rewrite seqZ_cons by lia.
    replace (Z.pred (Z.of_nat (S n))) with (Z.of_nat n) by lia.
    cbn [write_bytes fmap list_fmap foldl fst snd].
    rewrite Z.shiftr_shiftr by lia.
    replace (8 * i + 8) with (8 * (i + 1)) by lia.
    rewrite IH by lia. reflexivity.
Qed.

Lemma writeMem_writes address value size s :
  writeMem address value size s
  = Ok (tt, set_m_data
              (foldl (fun acc kv => <[kv.1 := kv.2]> acc) (m_data s)
                 (element_writes address value size)) s).
Proof.
  rewrite AddressSpaceFacts.writeMem_eq. do 3 f_equal.
  pose proof (write_bytes_writes (Z.to_nat size) 0 (to_u32 address) (to_u32 value)
                (m_data s) ltac:(lia)) as Hw.
  rewrite Z.mul_0_r, Z.shiftr_0_r in Hw. rewrite Hw.
  f_equal. unfold element_writes, byte_of.
  replace (seqZ 0 (Z.of_nat (Z.to_nat size))) with (seqZ 0 size)
    by (unfold seqZ; now rewrite Nat2Z.id).
  apply list_fmap_ext. intros _ j _. now rewrite to_u32_add_l.
Qed.

Lemma addInitializationMemory_loop_writes program : forall k startAddr sizeofT s,
  addInitializationMemory_loop program sizeofT (to_u32 (startAddr + k * sizeofT)) s
  = Ok (tt, set_m_data
              (foldl (fun acc kv => <[kv.1 := kv.2]> acc) (m_data s)
                 (segment_writes_from k startAddr program sizeofT)) s).
Proof.
  induction program as [| x rest IH]; intros k startAddr sizeofT s;
    cbn [addInitializationMemory_loop segment_writes_from].
  - unfold ret. cbn [foldl]. now rewrite AddressSpaceFacts.set_m_data_id.
  - unfold bind. rewrite writeMem_writes, to_u32_add_l.
    replace (startAddr + k * sizeofT + sizeofT) with (startAddr + (k + 1) * sizeofT)
      by lia.
    rewrite IH. unfold set_m_data. cbn [m_data m_initializationMemories].
    rewrite foldl_app. do 5 f_equal. unfold element_writes.
    apply list_fmap_ext. intros _ j _. now rewrite to_u32_add_l.
Qed.

(** The segment that [addInitializationMemory] appends holds the last
    write to each address among the writes of the program. *)
Lemma addInitializationMemory_eq startAddr program sizeofT s :
  addInitializationMemory startAddr program sizeofT s
  = Ok (tt, {| m_data := m_data s;
               m_initializationMemories :=
                 m_initializationMemories s
                 ++ [ {| m_data := last_writes (segment_writes startAddr program sizeofT);
                         m_initializationMemories := [] |} ] |}).
Proof.
  unfold addInitializationMemory, on_emplaced_back.
  pose proof (addInitializationMemory_loop_writes program 0 startAddr sizeofT fresh)
    as Hloop.
  rewrite Z.mul_0_l, Z.add_0_r in Hloop. rewrite Hloop. fold (segment_writes startAddr program sizeofT).
  cbn [m_data set_m_data fresh m_initializationMemories].
  rewrite foldl_insert_last_writes, (right_id_L ∅ (∪)). reflexivity.
Qed.

Lemma segments_union_last_writes (mems : list AddressSpace)
    (segments : list (list (Z * Z))) :
  map m_data mems = map last_writes segments ->
  segments_union mems = last_writes (concat segments).
Proof.
  unfold segments_union. intros Hsegs.
  enough (forall acc : gmap Z Z,
             foldl (fun acc mem => m_data mem ∪ acc) acc mems
             = last_writes (concat segments) ∪ acc) as Hgen.
  { now rewrite Hgen, (right_id_L ∅ (∪)). }
  revert segments Hsegs.
  induction mems as [| mem rest IH]; intros [| seg segments] Hsegs acc;
    try discriminate; cbn [foldl concat].
  - cbn. now rewrite (left_id_L ∅ (∪)).
  - injection Hsegs as Hmem Hrest.
    rewrite (IH segments Hrest), Hmem, last_writes_app, (assoc_L (∪)). reflexivity.
Qed.

(** One call leaves a well-formed state whose initialization memories are
    the registered segments. *)
Lemma call_registers c s (segments : list (list (Z * Z))) :
  wf s ->
  map m_data (m_initializationMemories s) = map last_writes segments ->
  exists s',
    call c s = Ok (tt, s') /\ wf s'
    /\ map m_data (m_initializationMemories s') = map last_writes (register segments c).
Proof.
  intros [Hd Hsegs] Hreg.
  destruct c as [a v n | a w | a w | a | a | start program sizeofT | |];
    cbn [call register].
  - rewrite AddressSpaceFacts.writeMem_eq. eexists. split; [reflexivity |].
    split; [| exact Hreg]. split; [now apply StoreFacts.store_wf_write_bytes | exact Hsegs].
  - erewrite TraceFacts.discard_eq by apply AddressSpaceFacts.readMem_eq.
    eexists. split; [reflexivity |]. split; [| exact Hreg].
    split; [| exact Hsegs].
    apply StoreFacts.store_wf_touch_bytes; auto using to_u32_range.
  - erewrite TraceFacts.discard_eq by apply AddressSpaceFacts.readMemConst_eq.
    exists s. unfold wf. auto.
  - erewrite TraceFacts.discard_eq by apply AddressSpaceFacts.contains_eq.
    exists s. unfold wf. auto.
  - exists s. unfold wf, discard, bind, regionType, ret. auto.
  - destruct (TraceFacts.addInitializationMemory_loop_ok program sizeofT
                (to_u32 start) fresh) as (d' & Hrun & Hwfd & _).
    pose proof (addInitializationMemory_eq start program sizeofT s) as Heq.
    unfold addInitializationMemory, on_emplaced_back in Heq |- *.
    rewrite Hrun in Heq |- *. injection Heq as Heq.
    apply app_inv_head in Heq. injection Heq as Hd'.
    eexists. split; [reflexivity |].
    cbn [m_data m_initializationMemories set_m_data fresh] in *.
    split; [split |].
    + exact Hd.
    + apply Forall_app. split; [exact Hsegs |].
      constructor; [| constructor]. apply Hwfd, StoreFacts.store_wf_empty.
    + rewrite !map_app, Hreg. cbn [map m_data]. now rewrite Hd'.
  - eexists. split; [reflexivity |]. split; [| reflexivity].
    split; [exact Hd | constructor].
  - rewrite StoreFacts.reset_eq by exact Hsegs.
    eexists. split; [reflexivity |]. split; [| exact Hreg].
    split; [now apply TraceFacts.store_wf_segments_union | exact Hsegs].
Qed.

Lemma calls_register l : forall s (segments : list (list (Z * Z))),
  wf s ->
  map m_data (m_initializationMemories s) = map last_writes segments ->
  exists s',
    calls l s = Ok (tt, s') /\ wf s'
    /\ map m_data (m_initializationMemories s')
       = map last_writes (foldl register segments l).
Proof.
  unfold calls.
  induction l as [| c rest IH]; intros s segments Hwf Hreg; cbn [for_each foldl].
  - exists s. auto.
  - destruct (call_registers c s segments Hwf Hreg) as (s1 & Hrun1 & Hwf1 & Hreg1).
    destruct (IH s1 _ Hwf1 Hreg1) as (s' & Hrun & Hwf' & Hreg').
    exists s'. unfold bind. rewrite Hrun1. auto.
Qed.

End SegmentFacts.

(** ** reset *)

(** C4. After any sequence of calls on an [AddressSpace], the
    initialization memories are the segments registered by the calls of
    [addInitializationMemory] since the last
    [clearInitializationMemories], in the order of registration, each
    holding the bytes of its program: the byte [j] of the element [k] at
    [startAddr + k * sizeof(T) + j].  [reset] then succeeds and leaves as
    live store exactly the union of the writes of these segments, the last
    write to an address taking precedence, so a later segment over an
    earlier one: nothing of the previous live store remains, and at each
    address the byte is the one of the last memory that holds it.  The
    memories themselves are unchanged, and a second [reset] changes
    nothing. *)
Theorem reset_replays_segments (l : list Call) :
  exists s s',
    calls l AddressSpace.fresh = Ok (tt, s)
    /\ map m_data (m_initializationMemories s)
       = map last_writes (registered_segments l)
    /\ AddressSpace.reset s = Ok (tt, s')
    /\ m_data s' = last_writes (concat (registered_segments l))
    /\ m_data s' = segments_union (m_initializationMemories s)
    /\ (forall x, m_data s' !! x = last_segment_byte (m_initializationMemories s) x)
    /\ m_initializationMemories s' = m_initializationMemories s
    /\ AddressSpace.reset s' = Ok (tt, s').
Proof.
  destruct (SegmentFacts.calls_register l AddressSpace.fresh [] TraceFacts.wf_fresh
              eq_refl) as (s & Hrun & [Hd Hsegs] & Hreg).
  fold (registered_segments l) in Hreg.
  exists s, (AddressSpace.set_m_data (segments_union (m_initializationMemories s)) s).
  split; [exact Hrun |].
  split; [exact Hreg |].
  split; [now apply StoreFacts.reset_eq |].
  split; [now apply SegmentFacts.segments_union_last_writes |].
  split; [reflexivity |].
  split; [intros x; apply StoreFacts.segments_union_lookup |].
  split; [reflexivity |].
  rewrite StoreFacts.reset_eq by exact Hsegs. reflexivity.
Qed.

(** ** Reading blank bytes *)

Lemma read_bytes_blank n : forall i address value d,
  (forall j, 0 <= j < Z.of_nat n -> peek d (to_u32 (address + j)) = 0) ->
  read_bytes n i (to_u32 address) value d = value.
Proof.
  induction n as [| n IH]; intros i address value d Hd; cbn [read_bytes].
  - reflexivity.
  - specialize (Hd 0 ltac:(lia)) as Hd0. rewrite Z.add_0_r in Hd0.
    rewrite Hd0, shl_to_u32_0, Z.lor_0_r, to_u32_add_l.
    apply IH. intros j Hj.
    replace (address + 1 + j) with (address + (j + 1)) by lia. apply Hd. lia.
Qed.

(** ** The ordered map of regions *)

Section LowerBound.
Context {V : Type}.

Lemma lower_bound_spec (m : gmap Z V) (a : Z) :
  match lower_bound m a with
  | Some (k, v) =>
      m !! k = Some v /\ a <= k
      /\ forall k' v', m !! k' = Some v' -> a <= k' -> k <= k'
  | None => forall k' v', m !! k' = Some v' -> k' < a
  end.
Proof.
  unfold lower_bound.
  assert (forall l : list (Z * V),
            match foldr (fun kv best =>
                           if a <=? kv.1
                           then match best with
                                | Some kb => if kb.1 <=? kv.1 then best else Some kv
                                | None => Some kv
                                end
                           else best) None l with
            | Some kv => kv ∈ l /\ a <= kv.1
                         /\ forall kv', kv' ∈ l -> a <= kv'.1 -> kv.1 <= kv'.1
            | None => forall kv', kv' ∈ l -> kv'.1 < a
            end) as Hlist.
  { induction l as [| [k v] rest IH]; cbn [foldr fst].
    - intros kv' Hin. now apply elem_of_nil in Hin.
    - destruct (foldr _ None rest) as [[kb vb] |] eqn:Hbest; cbn [fst] in *.
      + destruct IH as (Hin & Hle & Hmin).
        destruct (Z.leb_spec a k) as [Hak | Hak].
        * destruct (Z.leb_spec kb k) as [Hkb | Hkb]; cbn [fst].
          -- split; [now apply elem_of_cons; right |]. split; [exact Hle |].
             intros kv' Hin' Ha. apply elem_of_cons in Hin' as [-> | Hin'];
               [exact Hkb | now apply Hmin].
          -- split; [now apply elem_of_cons; left |]. split; [exact Hak |].
             intros kv' Hin' Ha. apply elem_of_cons in Hin' as [-> | Hin'];
               [cbn [fst]; lia |].
             specialize (Hmin kv' Hin' Ha). lia.
        * split; [now apply elem_of_cons; right |]. split; [exact Hle |].
          intros kv' Hin' Ha. apply elem_of_cons in Hin' as [-> | Hin'];
            [cbn [fst] in Ha; lia | now apply Hmin].
      + destruct (Z.leb_spec a k) as [Hak | Hak]; cbn [fst].
        * split; [now apply elem_of_cons; left |]. split; [exact Hak |].
          intros kv' Hin' Ha. apply elem_of_cons in Hin' as [-> | Hin'];
            [cbn [fst]; lia |].
          specialize (IH kv' Hin'). lia.
        * intros kv' Hin'. apply elem_of_cons in Hin' as [-> | Hin'];
            [exact Hak | now apply IH]. }
  specialize (Hlist (map_to_list m)).
  destruct (foldr _ None (map_to_list m)) as [[k v] |].
  - destruct Hlist as (Hin & Hle & Hmin). cbn [fst] in *.
    split; [now apply elem_of_map_to_list |]. split; [exact Hle |].
    intros k' v' Hk' Ha. apply (Hmin (k', v')); [now apply elem_of_map_to_list | exact Ha].
  - intros k' v' Hk'. apply (Hlist (k', v')). now apply elem_of_map_to_list.
Qed.

Lemma map_is_empty_lower_bound (m : gmap Z V) (a : Z) :
  map_is_empty m = true -> lower_bound m a = None.
Proof.
  unfold map_is_empty, lower_bound.
  destruct (map_to_list m); [reflexivity | discriminate].
Qed.

End LowerBound.

(** ** Region lookup *)

Module AddressSpaceMMFacts.
Section WithPeripherals.
Context {P : Type}.
Import AddressSpaceMM.

Implicit Types (regions : gmap Z (MMapValue P)) (r : MMapValue P) (st : State P).

Lemma findMMapRegion_eq regions a :
  findMMapRegion regions a
  = match lower_bound regions (to_u32 a) with
    | None => None
    | Some (_, r) => if to_u32 a <? base r then None else Some r
    end.
Proof.
  unfold findMMapRegion. destruct (map_is_empty regions) eqn:He; [| reflexivity].
  now rewrite map_is_empty_lower_bound.
Qed.

(** The region found is the entry with the least key from the address on,
    and its base is not above the address. *)
Lemma findMMapRegion_Some regions a r :
  findMMapRegion regions a = Some r ->
  exists k, regions !! k = Some r /\ to_u32 a <= k /\ base r <= to_u32 a
            /\ forall k' r', regions !! k' = Some r' -> to_u32 a <= k' -> k <= k'.
Proof.
  rewrite findMMapRegion_eq.
  pose proof (lower_bound_spec regions (to_u32 a)) as Hlb.
  destruct (lower_bound regions (to_u32 a)) as [[k r0] |]; [| discriminate].
  destruct (Z.ltb_spec (to_u32 a) (base r0)) as [Hlt | Hge]; [discriminate |].
  intros [= <-]. destruct Hlb as (Hk & Hle & Hmin). exists k. auto.
Qed.

Lemma findMMapRegion_None regions a :
  findMMapRegion regions a = None ->
  (forall k' r', regions !! k' = Some r' -> k' < to_u32 a)
  \/ exists k r, regions !! k = Some r /\ to_u32 a <= k /\ to_u32 a < base r
                 /\ forall k' r', regions !! k' = Some r' -> to_u32 a <= k' -> k <= k'.
Proof.
  rewrite findMMapRegion_eq.
  pose proof (lower_bound_spec regions (to_u32 a)) as Hlb.
  destruct (lower_bound regions (to_u32 a)) as [[k r0] |]; [| now left].
  destruct (Z.ltb_spec (to_u32 a) (base r0)) as [Hlt | Hge]; [| discriminate].
  intros _. right. destruct Hlb as (Hk & Hle & Hmin). exists k, r0. auto.
Qed.

Lemma last_address regions k r :
  keyed_by_last regions -> within_address_space regions ->
  regions !! k = Some r ->
  k = base r + size r - 1 /\ 0 <= base r /\ 0 < size r.
Proof.
  intros Hkey Hin Hk. specialize (Hin k r Hk).
  destruct (Hkey k r Hk) as (Hb & Hs & ->).
  rewrite to_u32_small by lia. lia.
Qed.

(** Over disjoint regions that lie within the address space, the lookup
    finds the registered region whose interval holds the address. *)
Lemma covered_found regions a r :
  keyed_by_last regions -> within_address_space regions ->
  pairwise_disjoint regions ->
  registered regions r -> covers r (to_u32 a) ->
  findMMapRegion regions a = Some r.
Proof.
  intros Hkey Hin Hdisj [k' Hk'] Hcov'.
  destruct (last_address regions k' r Hkey Hin Hk') as (Hlast' & Hb' & Hs').
  destruct (findMMapRegion regions a) as [r0 |] eqn:Hfind.
  - apply findMMapRegion_Some in Hfind as (k & Hk & Hle & Hbase & Hmin).
    destruct (last_address regions k r0 Hkey Hin Hk) as (Hlast & Hb & Hs).
    destruct (decide (k' = k)) as [-> | Hne]; [congruence |].
    exfalso. apply (Hdisj k' k r r0 (to_u32 a) Hk' Hk Hne Hcov').
    unfold covers. lia.
  - exfalso. unfold covers in Hcov'.
    apply findMMapRegion_None in Hfind as [Hall | (k & r0 & Hk & Hle & Hlt & Hmin)].
    + specialize (Hall k' r Hk'). lia.
    + destruct (last_address regions k r0 Hkey Hin Hk) as (Hlast & Hb & Hs).
      specialize (Hmin k' r Hk' ltac:(lia)).
      destruct (decide (k = k')) as [-> | Hne].
      * assert (r0 = r) by congruence. subst r0. lia.
      * apply (Hdisj k k' r0 r (base r0) Hk Hk' Hne); unfold covers; lia.
Qed.

(** A region that is found holds the address in its interval. *)
Lemma findMMapRegion_Some_covers regions a r :
  keyed_by_last regions ->
  findMMapRegion regions a = Some r ->
  registered regions r /\ covers r (to_u32 a).
Proof.
  intros Hkey Hfind.
  apply findMMapRegion_Some in Hfind as (k & Hk & Hle & Hbase & _).
  destruct (Hkey k r Hk) as (Hb & Hs & Hlast).
  split; [now exists k |]. unfold covers. split; [exact Hbase |].
  assert (k <= base r + size r - 1); [| lia].
  subst k. unfold to_u32, VSRTL_VT_U_BITS. apply Z.mod_le; lia.
Qed.

Lemma uncovered_not_found regions a :
  keyed_by_last regions -> uncovered regions a -> findMMapRegion regions a = None.
Proof.
  intros Hkey Hunc. destruct (findMMapRegion regions a) as [r |] eqn:Hfind;
    [| reflexivity].
  destruct (findMMapRegion_Some_covers regions a r Hkey Hfind) as [Hreg Hcov].
  now apply Hunc in Hcov.
Qed.

(** *** Registration keeps the entries keyed by their last address *)

Lemma keyed_by_last_empty : keyed_by_last (∅ : gmap Z (MMapValue P)).
Proof. intros k r Hk. now rewrite lookup_empty in Hk. Qed.

Lemma addIORegion_eq baseAddr size io st :
  addIORegion baseAddr size io st
  = if bool_decide (findMMapRegion (m_mmapRegions st) (to_u32 baseAddr) = None)
       && bool_decide (findMMapRegion (m_mmapRegions st)
                         (to_u32 (to_u32 baseAddr + to_u32 size - 1)) = None)
       && (0 <? to_u32 size)
    then Ok (tt, {| super := super st;
                    m_mmapRegions :=
                      <[to_u32 (to_u32 baseAddr + to_u32 size - 1) :=
                          {| base := to_u32 baseAddr; size := to_u32 size; io := io |}]>
                        (m_mmapRegions st);
                    peripherals := peripherals st; io_calls := io_calls st |})
    else AssertionFailed.
Proof.
  unfold addIORegion, bind, get, assert, put.
  destruct (bool_decide (findMMapRegion _ (to_u32 baseAddr) = None)); [| reflexivity].
  destruct (bool_decide (findMMapRegion _ _ = None)); [| reflexivity].
  destruct (0 <? to_u32 size); reflexivity.
Qed.

Lemma removeIORegion_eq baseAddr size st :
  removeIORegion baseAddr size st
  = match m_mmapRegions st !! to_u32 (to_u32 baseAddr + to_u32 size - 1) with
    | Some _ =>
        Ok (tt, {| super := super st;
                   m_mmapRegions :=
                     delete (to_u32 (to_u32 baseAddr + to_u32 size - 1))
                       (m_mmapRegions st);
                   peripherals := peripherals st; io_calls := io_calls st |})
    | None => AssertionFailed
    end.
Proof.
  unfold removeIORegion, bind, get, assert, put.
  destruct (m_mmapRegions st !! _) as [r |] eqn:Hk.
  - rewrite bool_decide_eq_true_2 by eauto. reflexivity.
  - rewrite bool_decide_eq_false_2; [reflexivity |]. now intros [? ?].
Qed.

Lemma addIORegion_keyed baseAddr size io st st' :
  keyed_by_last (m_mmapRegions st) ->
  addIORegion baseAddr size io st = Ok (tt, st') ->
  keyed_by_last (m_mmapRegions st').
Proof.
  intros Hkey. rewrite addIORegion_eq.
  destruct (_ && _ && _) eqn:Hok; [| discriminate].
  apply andb_prop in Hok as [_ Hsize]. apply Z.ltb_lt in Hsize.
  intros [= <-]. cbn [m_mmapRegions]. intros k r Hk.
  destruct (decide (to_u32 (to_u32 baseAddr + to_u32 size - 1) = k)) as [<- | Hne].
  - rewrite lookup_insert_eq in Hk. inversion Hk; subst r. cbn [base AddressSpaceMM.size].
    pose proof (to_u32_range baseAddr). pose proof (to_u32_range size).
    repeat split; lia.
  - rewrite lookup_insert_ne in Hk by exact Hne. now apply Hkey.
Qed.

Lemma removeIORegion_keyed baseAddr size st st' :
  keyed_by_last (m_mmapRegions st) ->
  removeIORegion baseAddr size st = Ok (tt, st') ->
  keyed_by_last (m_mmapRegions st').
Proof.
  intros Hkey. rewrite removeIORegion_eq.
  destruct (m_mmapRegions st !! _); [| discriminate].
  intros [= <-]. cbn [m_mmapRegions]. intros k r Hk.
  apply lookup_delete_Some in Hk as [_ Hk]. now apply Hkey.
Qed.

(** *** The regions of the states that sequences of calls lead to *)

Lemma keeps_regions_ret {A} (a : A) : keeps_regions (ret a : St (State P) A).
Proof. intros st a' st' [= _ <-]. reflexivity. Qed.

Lemma keeps_regions_bind {A B} (m : St (State P) A) (k : A -> St (State P) B) :
  keeps_regions m -> (forall a, keeps_regions (k a)) -> keeps_regions (bind m k).
Proof.
  intros Hm Hk st b st'. unfold bind.
  destruct (m st) as [[a st1] | |] eqn:Hrun; [| discriminate | discriminate].
  intros Hrun'. rewrite (Hk a st1 b st' Hrun'). exact (Hm st a st1 Hrun).
Qed.

Lemma keeps_regions_for_each {A} (l : list A) (body : A -> St (State P) unit) :
  (forall x, keeps_regions (body x)) -> keeps_regions (for_each l body).
Proof.
  intros Hbody. induction l as [| x rest IH]; cbn [for_each].
  - apply keeps_regions_ret.
  - apply keeps_regions_bind; [apply Hbody | intros _; exact IH].
Qed.

Lemma keeps_regions_discard {A} (m : St (State P) A) :
  keeps_regions m -> keeps_regions (discard m).
Proof.
  intros Hm. apply keeps_regions_bind; [exact Hm | intros a; apply keeps_regions_ret].
Qed.

Lemma keeps_regions_on_super {A} (m : St AddressSpace A) :
  keeps_regions (on_super m : St (State P) A).
Proof.
  intros st a st'. unfold on_super.
  destruct (m (super st)) as [[a0 s'] | |]; [| discriminate | discriminate].
  intros [= _ <-]. reflexivity.
Qed.

Lemma keeps_regions_writeMem a v n : keeps_regions (@writeMem P a v n).
Proof.
  intros st x st'. unfold writeMem.
  destruct (findMMapRegion (m_mmapRegions st) a) as [r |].
  - intros [= _ <-]. reflexivity.
  - apply keeps_regions_on_super.
Qed.

Lemma keeps_regions_readMem a w : keeps_regions (@readMem P a w).
Proof.
  intros st x st'. unfold readMem.
  destruct (findMMapRegion (m_mmapRegions st) a) as [r |].
  - unfold call_ioRead. destruct (ioRead _ _ _ _). intros [= _ <-]. reflexivity.
  - apply keeps_regions_on_super.
Qed.

Lemma keeps_regions_readMemConst a w : keeps_regions (@readMemConst P a w).
Proof.
  intros st x st'. unfold readMemConst.
  destruct (findMMapRegion (m_mmapRegions st) a) as [r |].
  - unfold call_ioRead. destruct (ioRead _ _ _ _). intros [= _ <-]. reflexivity.
  - apply keeps_regions_on_super.
Qed.

Lemma keeps_regions_regionType a : keeps_regions (@regionType P a).
Proof.
  intros st x st'. unfold regionType.
  destruct (findMMapRegion (m_mmapRegions st) a); intros [= _ <-]; reflexivity.
Qed.

Lemma keeps_regions_reset order : keeps_regions (@reset P order).
Proof.
  unfold reset. apply keeps_regions_bind; [apply keeps_regions_on_super |].
  intros _ st x st'. unfold bind, get.
  apply keeps_regions_for_each. intros mem.
  apply keeps_regions_for_each. intros memData. apply keeps_regions_writeMem.
Qed.

Lemma call_mm_keyed (c : CallMM P) st st' :
  keyed_by_last (m_mmapRegions st) ->
  call_mm c st = Ok (tt, st') ->
  keyed_by_last (m_mmapRegions st').
Proof.
  intros Hkey Hrun.
  destruct c as [a v n | a w | a w | a | a | b sz f | b sz | start program sizeofT |
                 | order];
    cbn [call_mm] in Hrun;
    try (now apply (addIORegion_keyed _ _ _ _ _ Hkey Hrun));
    try (now apply (removeIORegion_keyed _ _ _ _ Hkey Hrun));
    match type of Hrun with
    | ?m st = _ =>
        assert (keeps_regions m) as Hkeep
          by (try apply keeps_regions_discard;
              first [ apply keeps_regions_writeMem | apply keeps_regions_readMem
                    | apply keeps_regions_readMemConst | apply keeps_regions_regionType
                    | apply keeps_regions_reset | apply keeps_regions_on_super ])
    end;
    now rewrite (Hkeep st tt st' Hrun).
Qed.

(** In every state that a sequence of calls leads to from a new object,
    each entry of the map is keyed by the last address of its region. *)
Lemma calls_mm_keyed (l : list (CallMM P)) (p : P) st :
  calls_mm l (fresh p) = Ok (tt, st) -> keyed_by_last (m_mmapRegions st).
Proof.
  assert (forall st0, keyed_by_last (m_mmapRegions st0) ->
                      calls_mm l st0 = Ok (tt, st) ->
                      keyed_by_last (m_mmapRegions st)) as Hgen.
  { unfold calls_mm. induction l as [| c rest IH]; intros st0 Hkey; cbn [for_each].
    - intros [= <-]. exact Hkey.
    - unfold bind. destruct (call_mm c st0) as [[[] st1] | |] eqn:Hrun;
        [| discriminate | discriminate].
      apply IH. exact (call_mm_keyed c st0 st1 Hkey Hrun). }
  apply Hgen. apply keyed_by_last_empty.
Qed.

End WithPeripherals.
End AddressSpaceMMFacts.

(** ** The example states *)

Lemma two_regions_registered :
  (letM _ := AddressSpaceMM.addIORegion 0x2000 0x100 io_echo in
   AddressSpaceMM.addIORegion 0x3000 0x100 io_echo) (AddressSpaceMM.fresh [])
  = Ok (tt, with_regions two_regions).
Proof. vm_compute; reflexivity. Qed.

Lemma two_regions_keyed : AddressSpaceMM.keyed_by_last two_regions.
Proof.
  intros k r Hk. unfold two_regions in Hk.
  lookup_cases Hk; cbn; (split; [lia |]); (split; [lia |]); vm_compute; reflexivity.
Qed.

Lemma two_regions_within : AddressSpaceMM.within_address_space two_regions.
Proof. intros k r Hk. unfold two_regions in Hk. lookup_cases Hk; cbn; lia. Qed.

Lemma two_regions_disjoint : AddressSpaceMM.pairwise_disjoint two_regions.
Proof.
  intros k1 k2 r1 r2 x H1 H2 Hne. unfold two_regions in H1, H2.
  lookup_cases H1; lookup_cases H2; try congruence;
    unfold AddressSpaceMM.covers; cbn; lia.
Qed.

Lemma wrapping_regions_registered :
  (letM _ := AddressSpaceMM.addIORegion 0xFFFFFFF0 0x20 io_echo in
   AddressSpaceMM.addIORegion 0 0x100 io_echo) (AddressSpaceMM.fresh [])
  = Ok (tt, with_regions wrapping_regions).
Proof. vm_compute; reflexivity. Qed.

Lemma wrapping_regions_disjoint : AddressSpaceMM.pairwise_disjoint wrapping_regions.
Proof.
  intros k1 k2 r1 r2 x H1 H2 Hne. unfold wrapping_regions in H1, H2.
  lookup_cases H1; lookup_cases H2; try congruence;
    unfold AddressSpaceMM.covers; cbn; lia.
Qed.

Lemma wrapping_regions_low_registered :
  AddressSpaceMM.registered wrapping_regions (region 0 0x100)
  /\ AddressSpaceMM.covers (region 0 0x100) (to_u32 5).
Proof.
  split.
  - exists 0xFF. unfold wrapping_regions.
    rewrite lookup_insert_ne by lia. apply lookup_insert_eq.
  - unfold AddressSpaceMM.covers. change (to_u32 5) with 5. cbn. lia.
Qed.

Lemma enclosing_regions_registered :
  (letM _ := AddressSpaceMM.addIORegion 0x1800 0x100 io_echo in
   AddressSpaceMM.addIORegion 0x1000 0x1000 io_echo) (AddressSpaceMM.fresh [])
  = Ok (tt, with_regions enclosing_regions).
Proof. vm_compute; reflexivity. Qed.

Lemma enclosing_regions_outer_registered :
  AddressSpaceMM.registered enclosing_regions (region 0x1000 0x1000)
  /\ AddressSpaceMM.covers (region 0x1000 0x1000) (to_u32 0x1700).
Proof.
  split.
  - exists 0x1FFF. unfold enclosing_regions.
    rewrite lookup_insert_ne by lia. apply lookup_insert_eq.
  - unfold AddressSpaceMM.covers. change (to_u32 0x1700) with 0x1700. cbn. lia.
Qed.

(** The boundaries of the first of two regions and the gaps around them. *)
Example findMMapRegion_boundaries :
  AddressSpaceMM.findMMapRegion two_regions 0x2000 = Some (region 0x2000 0x100)
  /\ AddressSpaceMM.findMMapRegion two_regions 0x20FF = Some (region 0x2000 0x100)
  /\ AddressSpaceMM.findMMapRegion two_regions 0x2100 = None
  /\ AddressSpaceMM.findMMapRegion two_regions 0x1FFF = None
  /\ AddressSpaceMM.findMMapRegion two_regions 0x3100 = None.
Proof. repeat split; vm_compute; reflexivity. Qed.

(** ** Registration and removal of regions *)

(** C1. The check of [addIORegion] looks up the two end addresses of the
    new region only.  With [0x1800, 0x18FF] registered, adding
    [0x1000, 0x1FFF] passes both assertions, and the two registered regions
    overlap, at [0x1800] for one; adding [0x1000, 0x1FFF] while
    [0x1800, 0x27FF] is registered fails the assertion. *)
Theorem addIORegion_accepts_enclosing_region :
  (letM _ := AddressSpaceMM.addIORegion 0x1800 0x100 io_echo in
   AddressSpaceMM.addIORegion 0x1000 0x1000 io_echo) (AddressSpaceMM.fresh [])
  = Ok (tt, with_regions enclosing_regions)
  /\ AddressSpaceMM.registered enclosing_regions (region 0x1800 0x100)
  /\ AddressSpaceMM.registered enclosing_regions (region 0x1000 0x1000)
  /\ AddressSpaceMM.covers (region 0x1800 0x100) 0x1800
  /\ AddressSpaceMM.covers (region 0x1000 0x1000) 0x1800
  /\ ~ AddressSpaceMM.pairwise_disjoint enclosing_regions
  /\ (letM _ := AddressSpaceMM.addIORegion 0x1800 0x1000 io_echo in
      AddressSpaceMM.addIORegion 0x1000 0x1000 io_echo) (AddressSpaceMM.fresh [])
     = AssertionFailed.
Proof.
  assert (H1 : enclosing_regions !! 0x18FF = Some (region 0x1800 0x100))
    by apply lookup_insert_eq.
  assert (H2 : enclosing_regions !! 0x1FFF = Some (region 0x1000 0x1000)).
  { unfold enclosing_regions. rewrite lookup_insert_ne by lia. apply lookup_insert_eq. }
  assert (C1 : AddressSpaceMM.covers (region 0x1800 0x100) 0x1800)
    by (unfold AddressSpaceMM.covers; cbn; lia).
  assert (C2 : AddressSpaceMM.covers (region 0x1000 0x1000) 0x1800)
    by (unfold AddressSpaceMM.covers; cbn; lia).
  split; [vm_compute; reflexivity |].
  split; [now exists 0x18FF |]. split; [now exists 0x1FFF |].
  split; [exact C1 |]. split; [exact C2 |].
  split; [| vm_compute; reflexivity].
  intros Hdisj. apply (Hdisj 0x18FF 0x1FFF _ _ 0x1800 H1 H2); [lia | exact C1 | exact C2].
Qed.

(** With [0x1000, 0x10FF] registered, [removeIORegion(0x1080, 0x80)] names
    a base and a size that no registered region has; the last address
    [0x10FF] is that of the registered region, the assertion holds and the
    region is removed. *)
Lemma removeIORegion_mismatched_base_accepted :
  AddressSpaceMM.addIORegion 0x1000 0x100 io_echo (AddressSpaceMM.fresh [])
  = Ok (tt, with_regions (<[0x10FF := region 0x1000 0x100]> ∅))
  /\ AddressSpaceMM.removeIORegion 0x1080 0x80
       (with_regions (<[0x10FF := region 0x1000 0x100]> ∅))
     = Ok (tt, with_regions ∅).
Proof. split; vm_compute; reflexivity. Qed.

(** C2. [removeIORegion(base, size)] looks the map up at the last address
    [base + size - 1] (as a 32-bit sum) and at nothing else: when an entry
    has that key it is erased, whatever its base and size are, every other
    entry stays, and the rest of the state is unchanged; when no entry has
    that key the assertion fails.  There is no lookup by base address. *)
Theorem removeIORegion_by_last_address {P : Type} (st : AddressSpaceMM.State P)
    (baseAddr size : Z) :
  AddressSpaceMM.removeIORegion baseAddr size st
  = match AddressSpaceMM.m_mmapRegions st
          !! to_u32 (to_u32 baseAddr + to_u32 size - 1) with
    | Some _ =>
        Ok (tt, {| AddressSpaceMM.super := AddressSpaceMM.super st;
                   AddressSpaceMM.m_mmapRegions :=
                     delete (to_u32 (to_u32 baseAddr + to_u32 size - 1))
                       (AddressSpaceMM.m_mmapRegions st);
                   AddressSpaceMM.peripherals := AddressSpaceMM.peripherals st;
                   AddressSpaceMM.io_calls := AddressSpaceMM.io_calls st |})
    | None => AssertionFailed
    end
  /\ delete (to_u32 (to_u32 baseAddr + to_u32 size - 1))
       (AddressSpaceMM.m_mmapRegions st)
       !! to_u32 (to_u32 baseAddr + to_u32 size - 1) = None
  /\ (forall k, k <> to_u32 (to_u32 baseAddr + to_u32 size - 1) ->
                delete (to_u32 (to_u32 baseAddr + to_u32 size - 1))
                  (AddressSpaceMM.m_mmapRegions st) !! k
                = AddressSpaceMM.m_mmapRegions st !! k).
Proof.
  split; [apply AddressSpaceMMFacts.removeIORegion_eq |].
  split; [apply lookup_delete_eq |].
  intros k Hk. now apply lookup_delete_ne.
Qed.

(** ** Lookup of regions *)

(** A region that runs past the last address hides the regions above its
    wrapped key: with [0xFFFFFFF0] of size [0x20] (key [0xF]) registered
    before [0, 0xFF], the two intervals are disjoint, address [5] lies in
    the second, and the lookup of [5] finds nothing.  Alone, the first
    region is not found at [0xFFFFFFF5], which lies in its interval. *)
Lemma findMMapRegion_misses_behind_wrapping_region :
  (letM _ := AddressSpaceMM.addIORegion 0xFFFFFFF0 0x20 io_echo in
   AddressSpaceMM.addIORegion 0 0x100 io_echo) (AddressSpaceMM.fresh [])
  = Ok (tt, with_regions wrapping_regions)
  /\ AddressSpaceMM.pairwise_disjoint wrapping_regions
  /\ AddressSpaceMM.registered wrapping_regions (region 0 0x100)
  /\ AddressSpaceMM.covers (region 0 0x100) (to_u32 5)
  /\ AddressSpaceMM.findMMapRegion wrapping_regions 5 = None
  /\ AddressSpaceMM.addIORegion 0xFFFFFFF0 0x20 io_echo (AddressSpaceMM.fresh [])
     = Ok (tt, with_regions (<[0xF := region 0xFFFFFFF0 0x20]> ∅))
  /\ AddressSpaceMM.covers (region 0xFFFFFFF0 0x20) (to_u32 0xFFFFFFF5)
  /\ AddressSpaceMM.findMMapRegion (<[0xF := region 0xFFFFFFF0 0x20]> ∅) 0xFFFFFFF5
     = None.
Proof.
  split; [exact wrapping_regions_registered |].
  split; [exact wrapping_regions_disjoint |].
  split; [apply wrapping_regions_low_registered |].
  split; [apply wrapping_regions_low_registered |].
  split; [vm_compute; reflexivity |].
  split; [vm_compute; reflexivity |].
  split; [| vm_compute; reflexivity].
  unfold AddressSpaceMM.covers. change (to_u32 0xFFFFFFF5) with 0xFFFFFFF5. cbn. lia.
Qed.

(** C3. Over registered regions that are pairwise disjoint and lie within
    the 32-bit address space, [findMMapRegion] is interval containment:
    it returns a registered region whose interval [base, base + size - 1]
    holds the address, which is the only such region, and it returns
    nothing exactly when no registered region holds the address. *)
Theorem findMMapRegion_interval_containment {P : Type}
    (regions : gmap Z (AddressSpaceMM.MMapValue P)) (a : Z) :
  AddressSpaceMM.keyed_by_last regions ->
  AddressSpaceMM.within_address_space regions ->
  AddressSpaceMM.pairwise_disjoint regions ->
  match AddressSpaceMM.findMMapRegion regions a with
  | Some r =>
      AddressSpaceMM.registered regions r /\ AddressSpaceMM.covers r (to_u32 a)
      /\ forall r', AddressSpaceMM.registered regions r' ->
                    AddressSpaceMM.covers r' (to_u32 a) -> r' = r
  | None => AddressSpaceMM.uncovered regions a
  end.
Proof.
  intros Hkey Hin Hdisj.
  destruct (AddressSpaceMM.findMMapRegion regions a) as [r |] eqn:Hfind.
  - destruct (AddressSpaceMMFacts.findMMapRegion_Some_covers regions a r Hkey Hfind)
      as [Hreg Hcov].
    split; [exact Hreg |]. split; [exact Hcov |].
    intros r' Hreg' Hcov'.
    pose proof (AddressSpaceMMFacts.covered_found regions a r'
                  Hkey Hin Hdisj Hreg' Hcov') as Hfind'.
    congruence.
  - intros r' Hreg' Hcov'.
    pose proof (AddressSpaceMMFacts.covered_found regions a r'
                  Hkey Hin Hdisj Hreg' Hcov') as Hfind'.
    congruence.
Qed.

Lemma findMMapRegion_interval_containment_witness :
  (AddressSpaceMM.findMMapRegion two_regions 0x2000 = Some (region 0x2000 0x100)
   /\ AddressSpaceMM.findMMapRegion two_regions 0x20FF = Some (region 0x2000 0x100)
   /\ AddressSpaceMM.findMMapRegion two_regions 0x2100 = None)
  /\ match AddressSpaceMM.findMMapRegion two_regions 0x20FF with
     | Some r =>
         AddressSpaceMM.registered two_regions r
         /\ AddressSpaceMM.covers r (to_u32 0x20FF)
         /\ forall r', AddressSpaceMM.registered two_regions r' ->
                       AddressSpaceMM.covers r' (to_u32 0x20FF) -> r' = r
     | None => AddressSpaceMM.uncovered two_regions 0x20FF
     end
  /\ match AddressSpaceMM.findMMapRegion two_regions 0x2100 with
     | Some r =>
         AddressSpaceMM.registered two_regions r
         /\ AddressSpaceMM.covers r (to_u32 0x2100)
         /\ forall r', AddressSpaceMM.registered two_regions r' ->
                       AddressSpaceMM.covers r' (to_u32 0x2100) -> r' = r
     | None => AddressSpaceMM.uncovered two_regions 0x2100
     end.
Proof.
  split; [repeat split; vm_compute; reflexivity |].
  split.
  - exact (findMMapRegion_interval_containment two_regions 0x20FF
             two_regions_keyed two_regions_within two_regions_disjoint).
  - exact (findMMapRegion_interval_containment two_regions 0x2100
             two_regions_keyed two_regions_within two_regions_disjoint).
Defined.

(** ** Classification of addresses *)

(** Address [5] lies in the registered region [0, 0xFF] behind the wrapping
    region, and address [0x1700] in the registered region [0x1000, 0x1FFF]
    around [0x1800, 0x18FF]; [regionType] answers [Program] for both. *)
Lemma regionType_misses_covered_address :
  ((letM _ := AddressSpaceMM.addIORegion 0xFFFFFFF0 0x20 io_echo in
    AddressSpaceMM.addIORegion 0 0x100 io_echo) (AddressSpaceMM.fresh [])
   = Ok (tt, with_regions wrapping_regions)
   /\ AddressSpaceMM.registered wrapping_regions (region 0 0x100)
   /\ AddressSpaceMM.covers (region 0 0x100) (to_u32 5)
   /\ AddressSpaceMM.regionType 5 (with_regions wrapping_regions)
      = Ok (Program, with_regions wrapping_regions))
  /\ ((letM _ := AddressSpaceMM.addIORegion 0x1800 0x100 io_echo in
       AddressSpaceMM.addIORegion 0x1000 0x1000 io_echo) (AddressSpaceMM.fresh [])
      = Ok (tt, with_regions enclosing_regions)
      /\ AddressSpaceMM.registered enclosing_regions (region 0x1000 0x1000)
      /\ AddressSpaceMM.covers (region 0x1000 0x1000) (to_u32 0x1700)
      /\ AddressSpaceMM.regionType 0x1700 (with_regions enclosing_regions)
         = Ok (Program, with_regions enclosing_regions)).
Proof.
  split.
  - split; [exact wrapping_regions_registered |].
    split; [apply wrapping_regions_low_registered |].
    split; [apply wrapping_regions_low_registered |].
    vm_compute; reflexivity.
  - split; [exact enclosing_regions_registered |].
    split; [apply enclosing_regions_outer_registered |].
    split; [apply enclosing_regions_outer_registered |].
    vm_compute; reflexivity.
Qed.

(** C9. [AddressSpaceMM::regionType] answers [IO] exactly when the lookup
    of the address finds a region, and [Program] otherwise, without any
    change of state.  An address classified [IO] lies in the interval of a
    registered region; over pairwise disjoint regions within the address
    space the converse holds as well, so that [IO] is the answer exactly
    when a registered region holds the address.  The base class answers
    [Program] for every address. *)
Theorem regionType_classification {P : Type} (st : AddressSpaceMM.State P)
    (s : AddressSpace) (a : Z) :
  (exists t,
      AddressSpaceMM.regionType a st = Ok (t, st)
      /\ (t = IO <-> is_Some (AddressSpaceMM.findMMapRegion
                                (AddressSpaceMM.m_mmapRegions st) a))
      /\ (t = Program <-> AddressSpaceMM.findMMapRegion
                            (AddressSpaceMM.m_mmapRegions st) a = None)
      /\ (AddressSpaceMM.keyed_by_last (AddressSpaceMM.m_mmapRegions st) ->
          t = IO ->
          exists r, AddressSpaceMM.registered (AddressSpaceMM.m_mmapRegions st) r
                    /\ AddressSpaceMM.covers r (to_u32 a))
      /\ (AddressSpaceMM.keyed_by_last (AddressSpaceMM.m_mmapRegions st) ->
          AddressSpaceMM.within_address_space (AddressSpaceMM.m_mmapRegions st) ->
          AddressSpaceMM.pairwise_disjoint (AddressSpaceMM.m_mmapRegions st) ->
          (t = IO <-> exists r,
                        AddressSpaceMM.registered (AddressSpaceMM.m_mmapRegions st) r
                        /\ AddressSpaceMM.covers r (to_u32 a))))
  /\ AddressSpace.regionType a s = Ok (Program, s).
Proof.
  split; [| reflexivity].
  unfold AddressSpaceMM.regionType.
  pose proof (AddressSpaceMMFacts.covered_found
                (AddressSpaceMM.m_mmapRegions st) a) as Hint.
  pose proof (AddressSpaceMMFacts.findMMapRegion_Some_covers
                (AddressSpaceMM.m_mmapRegions st) a) as Hcov.
  destruct (AddressSpaceMM.findMMapRegion (AddressSpaceMM.m_mmapRegions st) a)
    as [r |].
  - exists IO. split; [reflexivity |].
    split; [split; eauto |]. split; [split; discriminate |].
    split; [intros Hkey _; exists r; now apply Hcov |].
    intros Hkey Hin Hdisj. split; [| reflexivity].
    intros _. exists r. now apply Hcov.
  - exists Program. split; [reflexivity |].
    split; [split; [discriminate | now intros [? ?]] |]. split; [easy |].
    split; [discriminate |].
    intros Hkey Hin Hdisj.
    split; [discriminate |]. intros (r & Hreg & Hr).
    now specialize (Hint r Hkey Hin Hdisj Hreg Hr).
Qed.

(** ** Dispatch of reads and writes *)

(** The byte at [5], in the registered region [0, 0xFF] behind the wrapping
    region, and the byte at [0x1700], in the registered region
    [0x1000, 0x1FFF] around [0x1800, 0x18FF], are written to and read from
    the byte store, without a call to any functor. *)
Lemma covered_access_not_forwarded :
  (AddressSpaceMM.registered wrapping_regions (region 0 0x100)
   /\ AddressSpaceMM.covers (region 0 0x100) (to_u32 5)
   /\ AddressSpaceMM.writeMem 5 0xAB 1 (with_regions wrapping_regions)
      = Ok (tt, {| AddressSpaceMM.super :=
                     AddressSpace.set_m_data (<[5 := 0xAB]> ∅) AddressSpace.fresh;
                   AddressSpaceMM.m_mmapRegions := wrapping_regions;
                   AddressSpaceMM.peripherals := [];
                   AddressSpaceMM.io_calls := [] |})
   /\ AddressSpaceMM.readMemConst 5 1 (with_regions wrapping_regions)
      = Ok (0, with_regions wrapping_regions))
  /\ (AddressSpaceMM.registered enclosing_regions (region 0x1000 0x1000)
      /\ AddressSpaceMM.covers (region 0x1000 0x1000) (to_u32 0x1700)
      /\ AddressSpaceMM.writeMem 0x1700 0xAB 1 (with_regions enclosing_regions)
         = Ok (tt, {| AddressSpaceMM.super :=
                        AddressSpace.set_m_data (<[0x1700 := 0xAB]> ∅)
                          AddressSpace.fresh;
                      AddressSpaceMM.m_mmapRegions := enclosing_regions;
                      AddressSpaceMM.peripherals := [];
                      AddressSpaceMM.io_calls := [] |})
      /\ AddressSpaceMM.readMemConst 0x1700 1 (with_regions enclosing_regions)
         = Ok (0, with_regions enclosing_regions)).
Proof.
  split.
  - split; [apply wrapping_regions_low_registered |].
    split; [apply wrapping_regions_low_registered |].
    split; vm_compute; reflexivity.
  - split; [apply enclosing_regions_outer_registered |].
    split; [apply enclosing_regions_outer_registered |].
    split; vm_compute; reflexivity.
Qed.

(** C7. When the lookup of the address finds a region, [writeMem],
    [readMem] and [readMemConst] of [AddressSpaceMM] make exactly one call,
    to that region's [ioWrite] or [ioRead], with the offset
    [address - base] (the base is not above the address, so nothing
    wraps), the value, and the size or width they were given, as 32-bit
    arguments; the byte store and the regions are as before, and a read
    returns what the functor returns.  When the lookup finds nothing, which
    is the case when no registered region holds the address, the three
    methods are those of the base class on the base subobject.  Over
    pairwise disjoint regions within the address space, the region found is
    the registered region whose interval holds the address. *)
Theorem region_access_forwarded {P : Type} (st : AddressSpaceMM.State P)
    (a v n w : Z) :
  match AddressSpaceMM.findMMapRegion (AddressSpaceMM.m_mmapRegions st) a with
  | Some r =>
      AddressSpaceMM.base r <= to_u32 a
      /\ (0 <= AddressSpaceMM.base r ->
          to_u32 (to_u32 a - AddressSpaceMM.base r) = to_u32 a - AddressSpaceMM.base r)
      /\ AddressSpaceMM.writeMem a v n st
         = Ok (tt, {| AddressSpaceMM.super := AddressSpaceMM.super st;
                      AddressSpaceMM.m_mmapRegions := AddressSpaceMM.m_mmapRegions st;
                      AddressSpaceMM.peripherals :=
                        AddressSpaceMM.ioWrite (AddressSpaceMM.io r)
                          (to_u32 (to_u32 a - AddressSpaceMM.base r)) (to_u32 v)
                          (to_u32 n) (AddressSpaceMM.peripherals st);
                      AddressSpaceMM.io_calls :=
                        AddressSpaceMM.io_calls st
                          ++ [AddressSpaceMM.IOWriteCall (AddressSpaceMM.base r)
                                (AddressSpaceMM.size r)
                                (to_u32 (to_u32 a - AddressSpaceMM.base r))
                                (to_u32 v) (to_u32 n)] |})
      /\ AddressSpaceMM.readMem a w st
         = Ok ((AddressSpaceMM.ioRead (AddressSpaceMM.io r)
                  (to_u32 (to_u32 a - AddressSpaceMM.base r)) (to_u32 w)
                  (AddressSpaceMM.peripherals st)).1,
               {| AddressSpaceMM.super := AddressSpaceMM.super st;
                  AddressSpaceMM.m_mmapRegions := AddressSpaceMM.m_mmapRegions st;
                  AddressSpaceMM.peripherals :=
                    (AddressSpaceMM.ioRead (AddressSpaceMM.io r)
                       (to_u32 (to_u32 a - AddressSpaceMM.base r)) (to_u32 w)
                       (AddressSpaceMM.peripherals st)).2;
                  AddressSpaceMM.io_calls :=
                    AddressSpaceMM.io_calls st
                      ++ [AddressSpaceMM.IOReadCall (AddressSpaceMM.base r)
                            (AddressSpaceMM.size r)
                            (to_u32 (to_u32 a - AddressSpaceMM.base r)) (to_u32 w)] |})
      /\ AddressSpaceMM.readMemConst a w st = AddressSpaceMM.readMem a w st
  | None =>
      AddressSpaceMM.writeMem a v n st
      = AddressSpaceMM.on_super (AddressSpace.writeMem a v n) st
      /\ AddressSpaceMM.readMem a w st
         = AddressSpaceMM.on_super (AddressSpace.readMem a w) st
      /\ AddressSpaceMM.readMemConst a w st
         = AddressSpaceMM.on_super (AddressSpace.readMemConst a w) st
  end
  /\ (AddressSpaceMM.keyed_by_last (AddressSpaceMM.m_mmapRegions st) ->
      AddressSpaceMM.uncovered (AddressSpaceMM.m_mmapRegions st) a ->
      AddressSpaceMM.findMMapRegion (AddressSpaceMM.m_mmapRegions st) a = None)
  /\ (AddressSpaceMM.keyed_by_last (AddressSpaceMM.m_mmapRegions st) ->
      AddressSpaceMM.within_address_space (AddressSpaceMM.m_mmapRegions st) ->
      AddressSpaceMM.pairwise_disjoint (AddressSpaceMM.m_mmapRegions st) ->
      forall r, AddressSpaceMM.registered (AddressSpaceMM.m_mmapRegions st) r ->
                AddressSpaceMM.covers r (to_u32 a) ->
                AddressSpaceMM.findMMapRegion (AddressSpaceMM.m_mmapRegions st) a
                = Some r).
Proof.
  split; [| split].
  - unfold AddressSpaceMM.writeMem, AddressSpaceMM.readMem, AddressSpaceMM.readMemConst.
    destruct (AddressSpaceMM.findMMapRegion (AddressSpaceMM.m_mmapRegions st) a)
      as [r |] eqn:Hfind; [| auto].
    apply AddressSpaceMMFacts.findMMapRegion_Some in Hfind
      as (k & Hk & Hle & Hbase & Hmin).
    split; [exact Hbase |].
    split.
    { intros Hb. apply to_u32_small. pose proof (to_u32_range a). lia. }
    split; [reflexivity |].
    split; [| reflexivity].
    unfold AddressSpaceMM.call_ioRead. now destruct (AddressSpaceMM.ioRead _ _ _ _).
  - apply AddressSpaceMMFacts.uncovered_not_found.
  - intros Hkey Hin Hdisj r Hreg Hcov.
    now apply AddressSpaceMMFacts.covered_found.
Qed.

(** C10. The dispatch looks at the starting address only.  When the lookup
    of the starting address finds no region, which is the case when no
    registered region holds it, [writeMem] puts all [n] bytes into the byte
    store, at the addresses [a], [a+1], ... whether or not registered
    regions hold some of them, and [readMem] and [readMemConst] assemble
    their value from the byte store alone; the regions and the peripherals
    are not changed and no functor is called.  No access is split: a
    [writeMem] or a [readMem] either makes one call to a functor and leaves
    the byte store as it is, or calls no functor and leaves the peripherals
    as they are. *)
Theorem unmapped_start_uses_store {P : Type} (st : AddressSpaceMM.State P)
    (a v n w : Z) :
  (AddressSpaceMM.findMMapRegion (AddressSpaceMM.m_mmapRegions st) a = None
   \/ (AddressSpaceMM.keyed_by_last (AddressSpaceMM.m_mmapRegions st)
       /\ AddressSpaceMM.uncovered (AddressSpaceMM.m_mmapRegions st) a) ->
   exists s1 s2,
     AddressSpaceMM.writeMem a v n st
     = Ok (tt, {| AddressSpaceMM.super := s1;
                  AddressSpaceMM.m_mmapRegions := AddressSpaceMM.m_mmapRegions st;
                  AddressSpaceMM.peripherals := AddressSpaceMM.peripherals st;
                  AddressSpaceMM.io_calls := AddressSpaceMM.io_calls st |})
     /\ (n <= 2 ^ 32 ->
         forall j, 0 <= j < n ->
                   m_data s1 !! to_u32 (a + j)
                   = Some (Z.land (Z.shiftr (to_u32 v) (8 * j)) 255))
     /\ AddressSpaceMM.readMem a w st
        = Ok (read_bytes (Z.to_nat (to_u32 w)) 0 (to_u32 a) 0
                (m_data (AddressSpaceMM.super st)),
              {| AddressSpaceMM.super := s2;
                 AddressSpaceMM.m_mmapRegions := AddressSpaceMM.m_mmapRegions st;
                 AddressSpaceMM.peripherals := AddressSpaceMM.peripherals st;
                 AddressSpaceMM.io_calls := AddressSpaceMM.io_calls st |})
     /\ AddressSpaceMM.readMemConst a w st
        = Ok (read_bytes (Z.to_nat (to_u32 w)) 0 (to_u32 a) 0
                (m_data (AddressSpaceMM.super st)), st))
  /\ (exists st',
        AddressSpaceMM.writeMem a v n st = Ok (tt, st')
        /\ ((AddressSpaceMM.super st' = AddressSpaceMM.super st
             /\ exists c, AddressSpaceMM.io_calls st'
                          = AddressSpaceMM.io_calls st ++ [c])
            \/ (AddressSpaceMM.io_calls st' = AddressSpaceMM.io_calls st
                /\ AddressSpaceMM.peripherals st' = AddressSpaceMM.peripherals st)))
  /\ (exists x st',
        AddressSpaceMM.readMem a w st = Ok (x, st')
        /\ ((AddressSpaceMM.super st' = AddressSpaceMM.super st
             /\ exists c, AddressSpaceMM.io_calls st'
                          = AddressSpaceMM.io_calls st ++ [c])
            \/ (AddressSpaceMM.io_calls st' = AddressSpaceMM.io_calls st
                /\ AddressSpaceMM.peripherals st' = AddressSpaceMM.peripherals st))).
Proof.
  split; [| split].
  - intros Hstart.
    assert (Hfind : AddressSpaceMM.findMMapRegion (AddressSpaceMM.m_mmapRegions st) a
                    = None).
    { destruct Hstart as [Hnone | [Hkey Hunc]]; [exact Hnone |].
      now apply AddressSpaceMMFacts.uncovered_not_found. }
    unfold AddressSpaceMM.writeMem, AddressSpaceMM.readMem,
      AddressSpaceMM.readMemConst, AddressSpaceMM.on_super.
    rewrite Hfind, AddressSpaceFacts.writeMem_eq, AddressSpaceFacts.readMem_eq,
      AddressSpaceFacts.readMemConst_eq.
    eexists _, _. split; [reflexivity |].
    split; [| split; [reflexivity | now destruct st]].
    intros Hn j Hj. cbn [m_data AddressSpace.set_m_data].
    rewrite <- (to_u32_add_l a j).
    replace (to_u32 a + j) with (to_u32 a + 0 + j) by lia.
    apply AddressSpaceFacts.write_bytes_lookup_in; lia.
  - unfold AddressSpaceMM.writeMem, AddressSpaceMM.on_super.
    destruct (AddressSpaceMM.findMMapRegion _ a) as [r |].
    + eexists. split; [reflexivity |]. left. cbn. eauto.
    + rewrite AddressSpaceFacts.writeMem_eq.
      eexists. split; [reflexivity |]. right. cbn. auto.
  - unfold AddressSpaceMM.readMem, AddressSpaceMM.on_super.
    destruct (AddressSpaceMM.findMMapRegion _ a) as [r |].
    + unfold AddressSpaceMM.call_ioRead.
      destruct (AddressSpaceMM.ioRead _ _ _ _) as [x p'].
      eexists _, _. split; [reflexivity |]. left. cbn. eauto.
    + rewrite AddressSpaceFacts.readMem_eq.
      eexists _, _. split; [reflexivity |]. right. cbn. auto.
Qed.

Lemma single_region_keyed :
  AddressSpaceMM.keyed_by_last (<[0x100F := region 0x1000 0x10]> ∅).
Proof.
  intros k r Hk.
  lookup_cases Hk; cbn; (split; [lia |]); (split; [lia |]); vm_compute; reflexivity.
Qed.

Lemma single_region_uncovered :
  AddressSpaceMM.uncovered (<[0x100F := region 0x1000 0x10]> ∅) 0x0FFE.
Proof.
  intros r [k Hk]. change (to_u32 0x0FFE) with 0x0FFE.
  lookup_cases Hk. unfold AddressSpaceMM.covers. cbn. lia.
Qed.

(** A write of four bytes at [0x0FFE] with [0x1000, 0x100F] registered: the
    last two bytes have addresses of the region and are stored all the
    same. *)
Lemma unmapped_start_uses_store_witness :
  exists s1 s2,
    AddressSpaceMM.writeMem 0x0FFE 0x11223344 4
      (with_regions (<[0x100F := region 0x1000 0x10]> ∅))
    = Ok (tt, {| AddressSpaceMM.super := s1;
                 AddressSpaceMM.m_mmapRegions := <[0x100F := region 0x1000 0x10]> ∅;
                 AddressSpaceMM.peripherals := [];
                 AddressSpaceMM.io_calls := [] |})
    /\ (4 <= 2 ^ 32 ->
        forall j, 0 <= j < 4 ->
                  m_data s1 !! to_u32 (0x0FFE + j)
                  = Some (Z.land (Z.shiftr (to_u32 0x11223344) (8 * j)) 255))
    /\ AddressSpaceMM.readMem 0x0FFE 4
         (with_regions (<[0x100F := region 0x1000 0x10]> ∅))
       = Ok (read_bytes (Z.to_nat (to_u32 4)) 0 (to_u32 0x0FFE) 0
               (m_data AddressSpace.fresh),
             {| AddressSpaceMM.super := s2;
                AddressSpaceMM.m_mmapRegions := <[0x100F := region 0x1000 0x10]> ∅;
                AddressSpaceMM.peripherals := [];
                AddressSpaceMM.io_calls := [] |})
    /\ AddressSpaceMM.readMemConst 0x0FFE 4
         (with_regions (<[0x100F := region 0x1000 0x10]> ∅))
       = Ok (read_bytes (Z.to_nat (to_u32 4)) 0 (to_u32 0x0FFE) 0
               (m_data AddressSpace.fresh),
             with_regions (<[0x100F := region 0x1000 0x10]> ∅)).
Proof.
  refine (proj1 (unmapped_start_uses_store
                   (with_regions (<[0x100F := region 0x1000 0x10]> ∅))
                   0x0FFE 0x11223344 4 4) _).
  right. split; [exact single_region_keyed | exact single_region_uncovered].
Defined.

(** The four bytes of that write in the store, two of them at addresses of
    the region, and the reads of the region at [0x1000] afterwards: a read
    of one byte at [0x1005] returns what the functor returns for offset [5],
    and the store has no entry at [0x1005]. *)
Example region_precedence :
  (letM _ := AddressSpaceMM.writeMem 0x0FFE 0x11223344 4 in
   letM v := AddressSpaceMM.readMem 0x1005 1 in
   letM c := AddressSpaceMM.contains 0x1005 in
   ret (v, c))
    (with_regions (<[0x100F := region 0x1000 0x10]> ∅))
  = Ok ((5, false),
        {| AddressSpaceMM.super :=
             AddressSpace.set_m_data
               (<[0x0FFE := 0x44]> (<[0x0FFF := 0x33]>
                  (<[0x1000 := 0x22]> (<[0x1001 := 0x11]> ∅))))
               AddressSpace.fresh;
           AddressSpaceMM.m_mmapRegions := <[0x100F := region 0x1000 0x10]> ∅;
           AddressSpaceMM.peripherals := [];
           AddressSpaceMM.io_calls := [AddressSpaceMM.IOReadCall 0x1000 0x10 5 1] |}).
Proof. vm_compute. reflexivity. Qed.

(** ** readMemConst *)

(** C6. [readMemConst] never changes the byte store: for every state,
    address and width it returns a value and the state it was called in, so
    that [contains], at any address, answers after the call what it answers
    without it; in particular it stays [false] on an address that has no
    entry.  An absent byte counts as zero: the value is the one read from
    the store with a zero byte put at any absent address, and it is [0]
    when all the bytes read are absent.  On an [AddressSpaceMM] the call may
    reach a peripheral, and leaves the byte store and the regions as they
    were. *)
Theorem readMemConst_does_not_mutate (s : AddressSpace) (a w : Z) :
  exists v,
    AddressSpace.readMemConst a w s = Ok (v, s)
    /\ (forall x,
          (letM _ := AddressSpace.readMemConst a w in AddressSpace.contains x) s
          = AddressSpace.contains x s)
    /\ (forall x,
          m_data s !! to_u32 x = None ->
          (letM _ := AddressSpace.readMemConst a w in AddressSpace.contains x) s
          = Ok (false, s))
    /\ (forall x,
          m_data s !! x = None ->
          AddressSpace.readMemConst a w
            (AddressSpace.set_m_data (<[x := 0]> (m_data s)) s)
          = Ok (v, AddressSpace.set_m_data (<[x := 0]> (m_data s)) s))
    /\ ((forall j, 0 <= j < to_u32 w -> m_data s !! to_u32 (a + j) = None) -> v = 0)
    /\ (forall (P : Type) (st : AddressSpaceMM.State P),
          AddressSpaceMM.super st = s ->
          exists v' st',
            AddressSpaceMM.readMemConst a w st = Ok (v', st')
            /\ AddressSpaceMM.super st' = s
            /\ AddressSpaceMM.m_mmapRegions st' = AddressSpaceMM.m_mmapRegions st).
Proof.
  rewrite AddressSpaceFacts.readMemConst_eq. eexists. split; [reflexivity |].
  split; [| split; [| split; [| split]]].
  - intros x. unfold bind. now rewrite AddressSpaceFacts.readMemConst_eq.
  - intros x Hx. unfold bind. rewrite AddressSpaceFacts.readMemConst_eq.
    rewrite AddressSpaceFacts.contains_eq, Hx. reflexivity.
  - intros x Hx. rewrite AddressSpaceFacts.readMemConst_eq.
    cbn [m_data AddressSpace.set_m_data]. do 2 f_equal.
    apply AddressSpaceFacts.read_bytes_ext. intros y.
    now apply AddressSpaceFacts.peek_insert_absent.
  - intros Habs. apply read_bytes_blank. intros j Hj.
    unfold peek. rewrite Habs; [reflexivity |].
    pose proof (to_u32_range w). lia.
  - intros P st Hsuper. unfold AddressSpaceMM.readMemConst.
    destruct (AddressSpaceMM.findMMapRegion _ a) as [r |].
    + unfold AddressSpaceMM.call_ioRead.
      destruct (AddressSpaceMM.ioRead _ _ _ _) as [v' p'].
      eexists _, _. split; [reflexivity |]. cbn. auto.
    + unfold AddressSpaceMM.on_super.
      rewrite AddressSpaceFacts.readMemConst_eq.
      eexists _, _. split; [reflexivity |]. cbn. auto.
Qed.

(** ** Addresses that were never written *)

Lemma never_written_peek l x s :
  calls l AddressSpace.fresh = Ok (tt, s) -> never_written l x -> peek (m_data s) x = 0.
Proof.
  intros Hrun Hnw.
  destruct (TraceFacts.calls_ok false l x AddressSpace.fresh)
    as (s' & Hrun' & _ & Hcell & _);
    [apply TraceFacts.wf_fresh | apply TraceFacts.blank_at_fresh | exact Hnw
    | discriminate |].
  rewrite Hrun in Hrun'. injection Hrun' as <-. exact Hcell.
Qed.

Lemma never_touched_absent l x s :
  calls l AddressSpace.fresh = Ok (tt, s) ->
  never_written l x -> never_read_mutably l x -> m_data s !! x = None.
Proof.
  intros Hrun Hnw Hnr.
  destruct (TraceFacts.calls_ok true l x AddressSpace.fresh)
    as (s' & Hrun' & _ & Hcell & _);
    [apply TraceFacts.wf_fresh | apply TraceFacts.blank_at_fresh | exact Hnw
    | intros _; exact Hnr |].
  rewrite Hrun in Hrun'. injection Hrun' as <-. exact Hcell.
Qed.

Lemma accesses_never_fail :
  (forall a v n, never_fails (AddressSpace.writeMem a v n))
  /\ (forall a w, never_fails (AddressSpace.readMem a w))
  /\ (forall a w, never_fails (AddressSpace.readMemConst a w))
  /\ (forall a, never_fails (AddressSpace.contains a))
  /\ (forall (P : Type) a v n, never_fails (@AddressSpaceMM.writeMem P a v n))
  /\ (forall (P : Type) a w, never_fails (@AddressSpaceMM.readMem P a w))
  /\ (forall (P : Type) a w, never_fails (@AddressSpaceMM.readMemConst P a w))
  /\ (forall (P : Type) a, never_fails (@AddressSpaceMM.contains P a)).
Proof.
  repeat split; intros; intros s;
    unfold AddressSpaceMM.writeMem, AddressSpaceMM.readMem,
      AddressSpaceMM.readMemConst, AddressSpaceMM.contains,
      AddressSpaceMM.on_super, AddressSpaceMM.call_ioWrite, AddressSpaceMM.call_ioRead;
    try destruct (AddressSpaceMM.findMMapRegion _ _);
    try destruct (AddressSpaceMM.ioRead _ _ _ _);
    rewrite ?AddressSpaceFacts.writeMem_eq, ?AddressSpaceFacts.readMem_eq,
      ?AddressSpaceFacts.readMemConst_eq, ?AddressSpaceFacts.contains_eq;
    exact I.
Qed.

(** After [readMem] of one byte at address [16] of a new object, no byte was
    ever written at [16], and [contains(16)] is [true]. *)
Lemma readMem_creates_entry :
  never_written [CallReadMem 16 1] 16
  /\ calls [CallReadMem 16 1] AddressSpace.fresh
     = Ok (tt, AddressSpace.set_m_data (<[16 := 0]> ∅) AddressSpace.fresh)
  /\ AddressSpace.contains 16 (AddressSpace.set_m_data (<[16 := 0]> ∅) AddressSpace.fresh)
     = Ok (true, AddressSpace.set_m_data (<[16 := 0]> ∅) AddressSpace.fresh).
Proof.
  split; [| split; vm_compute; reflexivity].
  constructor; [| constructor]. intros H. exact H.
Qed.

(** C8. In the state after any sequence of calls on a new object, for an
    address [a] and a width [w] such that none of the calls wrote any of
    the [w] bytes from [a] on: [readMem] returns [0] and [readMemConst]
    returns [0]; if moreover none of the calls read the byte at [a] through
    [readMem], [contains] returns [false].  The same holds for an
    [AddressSpaceMM] over that byte store when the lookup of [a] finds no
    region, as it does when no registered region holds [a].  No read, write
    or [contains] fails, in any state. *)
Theorem unwritten_reads_zero (l : list Call) (a w : Z) :
  (forall j, 0 <= j < to_u32 w -> never_written l (to_u32 (a + j))) ->
  exists s,
    calls l AddressSpace.fresh = Ok (tt, s)
    /\ (exists s', AddressSpace.readMem a w s = Ok (0, s'))
    /\ AddressSpace.readMemConst a w s = Ok (0, s)
    /\ (never_written l (to_u32 a) -> never_read_mutably l (to_u32 a) ->
        AddressSpace.contains a s = Ok (false, s))
    /\ (forall (P : Type) (st : AddressSpaceMM.State P),
          AddressSpaceMM.super st = s ->
          AddressSpaceMM.findMMapRegion (AddressSpaceMM.m_mmapRegions st) a = None
          \/ (AddressSpaceMM.keyed_by_last (AddressSpaceMM.m_mmapRegions st)
              /\ AddressSpaceMM.uncovered (AddressSpaceMM.m_mmapRegions st) a) ->
          (exists st', AddressSpaceMM.readMem a w st = Ok (0, st'))
          /\ AddressSpaceMM.readMemConst a w st = Ok (0, st)
          /\ (never_written l (to_u32 a) -> never_read_mutably l (to_u32 a) ->
              AddressSpaceMM.contains a st = Ok (false, st)))
    /\ (forall a v n, never_fails (AddressSpace.writeMem a v n))
    /\ (forall a w, never_fails (AddressSpace.readMem a w))
    /\ (forall a w, never_fails (AddressSpace.readMemConst a w))
    /\ (forall a, never_fails (AddressSpace.contains a))
    /\ (forall (P : Type) a v n, never_fails (@AddressSpaceMM.writeMem P a v n))
    /\ (forall (P : Type) a w, never_fails (@AddressSpaceMM.readMem P a w))
    /\ (forall (P : Type) a w, never_fails (@AddressSpaceMM.readMemConst P a w))
    /\ (forall (P : Type) a, never_fails (@AddressSpaceMM.contains P a)).
Proof.
  intros Hnw.
  destruct (TraceFacts.calls_wf l) as (s & Hrun & _).
  exists s. split; [exact Hrun |].
  assert (Hzero : read_bytes (Z.to_nat (to_u32 w)) 0 (to_u32 a) 0 (m_data s) = 0).
  { apply read_bytes_blank. intros j Hj.
    apply (never_written_peek l _ s Hrun), Hnw.
    pose proof (to_u32_range w). lia. }
  assert (Hcont : never_written l (to_u32 a) -> never_read_mutably l (to_u32 a) ->
                  AddressSpace.contains a s = Ok (false, s)).
  { intros Ha Hr. rewrite AddressSpaceFacts.contains_eq.
    now rewrite (never_touched_absent l _ s Hrun Ha Hr). }
  split; [rewrite AddressSpaceFacts.readMem_eq, Hzero; eauto |].
  split; [now rewrite AddressSpaceFacts.readMemConst_eq, Hzero |].
  split; [exact Hcont |].
  split; [| exact accesses_never_fail].
  intros P st Hsuper Hstart.
  assert (Hfind : AddressSpaceMM.findMMapRegion (AddressSpaceMM.m_mmapRegions st) a
                  = None).
  { destruct Hstart as [Hnone | [Hkey Hunc]]; [exact Hnone |].
    now apply AddressSpaceMMFacts.uncovered_not_found. }
  unfold AddressSpaceMM.readMem, AddressSpaceMM.readMemConst, AddressSpaceMM.contains,
    AddressSpaceMM.on_super.
  rewrite Hfind, Hsuper, AddressSpaceFacts.readMem_eq, AddressSpaceFacts.readMemConst_eq,
    Hzero.
  split; [eauto |]. split; [subst s; now destruct st |].
  intros Ha Hr. rewrite (Hcont Ha Hr). subst s. now destruct st.
Qed.

(** Bytes [0..3] are written and bytes [2..5] are read through [readMem];
    the bytes at [6] and [7] are neither. *)
Lemma unwritten_reads_zero_witness :
  exists s,
    calls [CallWriteMem 0 0x11223344 4; CallReadMem 2 4] AddressSpace.fresh = Ok (tt, s)
    /\ (exists s', AddressSpace.readMem 6 2 s = Ok (0, s'))
    /\ AddressSpace.readMemConst 6 2 s = Ok (0, s)
    /\ AddressSpace.contains 6 s = Ok (false, s).
Proof.
  assert (Hnw : forall x, 6 <= x < 8 ->
                  never_written [CallWriteMem 0 0x11223344 4; CallReadMem 2 4] x).
  { intros x Hx. constructor; [| constructor; [| constructor]].
    - intros (i & Hi & Heq).
      assert (i = 0 \/ i = 1 \/ i = 2 \/ i = 3) as [-> | [-> | [-> | ->]]] by lia;
        vm_compute in Heq; lia.
    - intros H. exact H. }
  assert (Hnr : never_read_mutably [CallWriteMem 0 0x11223344 4; CallReadMem 2 4] 6).
  { constructor; [| constructor; [| constructor]].
    - intros H. exact H.
    - intros (i & Hi & Heq). change (to_u32 4) with 4 in Hi.
      assert (i = 0 \/ i = 1 \/ i = 2 \/ i = 3) as [-> | [-> | [-> | ->]]] by lia;
        vm_compute in Heq; discriminate. }
  destruct (unwritten_reads_zero
              [CallWriteMem 0 0x11223344 4; CallReadMem 2 4] 6 2)
    as (s & Hrun & Hread & Hconst & Hcont & _).
  - intros j Hj. change (to_u32 2) with 2 in Hj. apply Hnw.
    assert (j = 0 \/ j = 1) as [-> | ->] by lia;
      [change (to_u32 (6 + 0)) with 6 | change (to_u32 (6 + 1)) with 7]; lia.
  - exists s. split; [exact Hrun |]. split; [exact Hread |]. split; [exact Hconst |].
    apply Hcont; [apply Hnw; change (to_u32 6) with 6; lia | exact Hnr].
Defined.

(** ** Scenarios of [reset] *)

(** Four 32-bit words at address [0]; the write of [99] at [4] is gone
    after the second [reset]. *)
Example reset_restores_segment :
  exists s,
    (letM _ := AddressSpace.addInitializationMemory 0 [1; 2; 3; 4] 4 in
     letM _ := AddressSpace.reset in
     letM x0 := AddressSpace.readMem 0 4 in
     letM x1 := AddressSpace.readMem 4 4 in
     letM x3 := AddressSpace.readMem 12 4 in
     letM _ := AddressSpace.writeMem 4 99 4 in
     letM y := AddressSpace.readMem 4 4 in
     letM _ := AddressSpace.reset in
     letM z := AddressSpace.readMem 4 4 in
     ret [x0; x1; x3; y; z]) AddressSpace.fresh
    = Ok ([1; 2; 4; 99; 2], s).
Proof. eexists. vm_compute. reflexivity. Qed.

(** Two memories that overlap at addresses [2] and [3]: the bytes of the
    one added later are the ones in the store after [reset], and the byte
    written at [9] before is gone. *)
Example reset_later_segment_wins :
  exists s,
    (letM _ := AddressSpace.writeMem 9 0x77 1 in
     letM _ := AddressSpace.addInitializationMemory 0 [0xA1; 0xA2; 0xA3; 0xA4] 1 in
     letM _ := AddressSpace.addInitializationMemory 2 [0xB1; 0xB2; 0xB3] 1 in
     letM _ := AddressSpace.reset in
     letM this := get in
     ret (map (fun x => m_data this !! x) [0; 1; 2; 3; 4; 5; 9])) AddressSpace.fresh
    = Ok ([Some 0xA1; Some 0xA2; Some 0xB1; Some 0xB2; Some 0xB3; None; None], s).
Proof. eexists. vm_compute. reflexivity. Qed.

(** The segments that these calls register, as sequences of writes, and
    the store that the specification describes for them: the second
    segment wins at the addresses [2] and [3]. *)
Example registered_segments_overlap :
  registered_segments
    [CallWriteMem 9 0x77 1;
     CallAddInitializationMemory 0 [0xA1; 0xA2; 0xA3; 0xA4] 1;
     CallAddInitializationMemory 2 [0xB1; 0xB2; 0xB3] 1]
  = [[(0, 0xA1); (1, 0xA2); (2, 0xA3); (3, 0xA4)]; [(2, 0xB1); (3, 0xB2); (4, 0xB3)]]
  /\ map (fun x =>
            last_writes
              [(0, 0xA1); (1, 0xA2); (2, 0xA3); (3, 0xA4); (2, 0xB1); (3, 0xB2); (4, 0xB3)]
            !! x) [0; 1; 2; 3; 4; 5; 9]
     = [Some 0xA1; Some 0xA2; Some 0xB1; Some 0xB2; Some 0xB3; None; None].
Proof. split; vm_compute; reflexivity. Qed.

(** A 16-bit element is registered as its two bytes, the low one first. *)
Example segment_writes_of_halfwords :
  segment_writes 0x100 [0x1234; 0xABCD] 2
  = [(0x100, 0x34); (0x101, 0x12); (0x102, 0xCD); (0x103, 0xAB)].
Proof. vm_compute. reflexivity. Qed.

(** ** A read of more than four bytes *)

(** With the bytes [1] to [8] at the addresses [0] to [7], a read of eight
    bytes or-s the bytes [5] to [8] onto the bytes [1] to [4]. *)
Example readMem_eight_bytes :
  exists s s',
    calls [CallWriteMem 0 0x04030201 4; CallWriteMem 4 0x08070605 4] AddressSpace.fresh
    = Ok (tt, s)
    /\ AddressSpace.readMem 0 8 s = Ok (0x0C070605, s')
    /\ AddressSpace.readMemConst 0 8 s = Ok (0x0C070605, s).
Proof.
  eexists _, _. split; [vm_compute; reflexivity |].
  split; vm_compute; reflexivity.
Qed.

(** * Further properties of the byte store *)

(** ** Reads depend on the bytes of their range only *)

Lemma read_bytes_ext_range n : forall i address value d d',
  (forall j, 0 <= j < Z.of_nat n ->
             peek d (to_u32 (address + j)) = peek d' (to_u32 (address + j))) ->
  read_bytes n i (to_u32 address) value d = read_bytes n i (to_u32 address) value d'.
Proof.
  induction n as [| n IH]; intros i address value d d' Hext; cbn [read_bytes].
  - reflexivity.
  - specialize (Hext 0 ltac:(lia)) as H0. rewrite Z.add_0_r in H0. rewrite H0.
    rewrite to_u32_add_l. apply IH. intros j Hj.
    replace (address + 1 + j) with (address + (j + 1)) by lia. apply Hext. lia.
Qed.

Lemma touch_bytes_keeps n : forall address d x b,
  d !! x = Some b -> touch_bytes n address d !! x = Some b.
Proof.
  induction n as [| n IH]; intros address d x b Hx; cbn [touch_bytes]; [exact Hx |].
  apply IH. destruct (d !! address) eqn:Ha; [exact Hx |].
  rewrite lookup_insert_ne; [exact Hx |]. intros ->. congruence.
Qed.

Lemma touch_bytes_lookup_in n : forall address d j,
  0 <= j < Z.of_nat n ->
  is_Some (touch_bytes n (to_u32 address) d !! to_u32 (address + j)).
Proof.
  induction n as [| n IH]; intros address d j Hj; [lia |].
  cbn [touch_bytes]. rewrite to_u32_add_l.
  destruct (decide (j = 0)) as [-> | Hj0].
  - rewrite Z.add_0_r.
    destruct (d !! to_u32 address) as [b |] eqn:Hd.
    + rewrite (touch_bytes_keeps _ _ _ _ b Hd). eauto.
    + rewrite (touch_bytes_keeps _ _ _ _ 0); [eauto |]. apply lookup_insert_eq.
  - replace (address + j) with (address + 1 + (j - 1)) by lia. apply IH. lia.
Qed.

Lemma touch_bytes_zero n : forall address d x,
  d !! x = None ->
  touch_bytes n address d !! x = None \/ touch_bytes n address d !! x = Some 0.
Proof.
  induction n as [| n IH]; intros address d x Hx; cbn [touch_bytes]; [now left |].
  destruct (d !! address) eqn:Ha; [now apply IH |].
  destruct (decide (address = x)) as [-> | Hne].
  - right. apply touch_bytes_keeps. apply lookup_insert_eq.
  - apply IH. now rewrite lookup_insert_ne.
Qed.

(** X1. [writeMem(a, v, n)] changes the bytes at [a], ..., [a + n - 1] only:
    every other address keeps its entry or its absence, the initialization
    memories are unchanged, and a constant read whose range does not meet
    the written one returns the same value after the write as before. *)
Theorem writeMem_frame (s : AddressSpace) (a v n a' w' : Z) :
  exists s',
    AddressSpace.writeMem a v n s = Ok (tt, s')
    /\ m_initializationMemories s' = m_initializationMemories s
    /\ (forall x, (forall j, 0 <= j < n -> x <> to_u32 (a + j)) ->
                  m_data s' !! x = m_data s !! x)
    /\ ((forall i j, 0 <= i < to_u32 w' -> 0 <= j < n ->
                     to_u32 (a' + i) <> to_u32 (a + j)) ->
        exists r, AddressSpace.readMemConst a' w' s = Ok (r, s)
                  /\ AddressSpace.readMemConst a' w' s' = Ok (r, s')).
Proof.
  rewrite AddressSpaceFacts.writeMem_eq. eexists. split; [reflexivity |].
  split; [reflexivity |].
  assert (Hout : forall x, (forall j, 0 <= j < n -> x <> to_u32 (a + j)) ->
             write_bytes (Z.to_nat n) 0 (to_u32 a) (to_u32 v) (m_data s) !! x
             = m_data s !! x).
  { intros x Hx. apply AddressSpaceFacts.write_bytes_lookup_out.
    intros j Hj. rewrite Z.add_0_r, to_u32_add_l. apply Hx. lia. }
  split; [exact Hout |].
  intros Hdisj. rewrite !AddressSpaceFacts.readMemConst_eq.
  eexists. split; [reflexivity |]. cbn [m_data AddressSpace.set_m_data].
  do 2 f_equal. apply read_bytes_ext_range. intros i Hi.
  unfold peek. rewrite Hout; [reflexivity |].
  intros j Hj. apply Hdisj; [| exact Hj].
  pose proof (to_u32_range w'). lia.
Qed.

(** X2. The size of a write at its edges: with a size of zero or less
    [writeMem] changes nothing, and with a size above four the bytes from
    the fifth on are stored as zero, the 32-bit value being used up. *)
Theorem writeMem_size_edges (s : AddressSpace) (a v n : Z) :
  (n <= 0 -> AddressSpace.writeMem a v n s = Ok (tt, s))
  /\ (n <= 2 ^ 32 ->
      exists s', AddressSpace.writeMem a v n s = Ok (tt, s')
                 /\ forall j, 4 <= j < n -> m_data s' !! to_u32 (a + j) = Some 0).
Proof.
  rewrite AddressSpaceFacts.writeMem_eq. split.
  - intros Hn. replace (Z.to_nat n) with 0%nat by lia. cbn [write_bytes].
    now rewrite AddressSpaceFacts.set_m_data_id.
  - intros Hn. eexists. split; [reflexivity |]. intros j Hj.
    cbn [m_data AddressSpace.set_m_data].
    rewrite <- (to_u32_add_l a j).
    replace (to_u32 a + j) with (to_u32 a + 0 + j) by lia.
    rewrite AddressSpaceFacts.write_bytes_lookup_in by lia.
    f_equal. rewrite Z.shiftr_div_pow2 by lia.
    pose proof (to_u32_range v) as Hv.
    assert (2 ^ 32 <= 2 ^ (8 * j)) by (apply Z.pow_le_mono_r; lia).
    rewrite Z.div_small by lia. reflexivity.
Qed.

(** X3. For a width of at most four bytes, within which every shift of the
    two loops is defined, [readMem] and [readMemConst] return the same
    value, in every state and for every address.  What [readMem] changes in
    the store are zero bytes put at absent addresses: every entry stays as
    it is, an absent address stays absent or gets a zero, the
    initialization memories are unchanged, and every constant read of at
    most four bytes returns afterwards what it returned before. *)
Theorem readMem_agrees_with_readMemConst (s : AddressSpace) (a w : Z) :
  to_u32 w <= 4 ->
  exists v s',
    AddressSpace.readMem a w s = Ok (v, s')
    /\ AddressSpace.readMemConst a w s = Ok (v, s)
    /\ m_initializationMemories s' = m_initializationMemories s
    /\ (forall x b, m_data s !! x = Some b -> m_data s' !! x = Some b)
    /\ (forall x, m_data s !! x = None ->
                  m_data s' !! x = None \/ m_data s' !! x = Some 0)
    /\ (forall a' w',
          to_u32 w' <= 4 ->
          exists r,
            AddressSpace.readMemConst a' w' s = Ok (r, s)
            /\ AddressSpace.readMemConst a' w' s' = Ok (r, s')).
Proof.
  intros _.
  rewrite AddressSpaceFacts.readMem_eq, AddressSpaceFacts.readMemConst_eq.
  eexists _, _. split; [reflexivity |]. split; [reflexivity |].
  split; [reflexivity |]. cbn [m_data AddressSpace.set_m_data].
  split; [intros x b; apply touch_bytes_keeps |].
  split; [intros x; apply touch_bytes_zero |].
  intros a' w' _. rewrite !AddressSpaceFacts.readMemConst_eq.
  eexists. split; [reflexivity |]. cbn [m_data AddressSpace.set_m_data].
  do 2 f_equal. apply AddressSpaceFacts.read_bytes_ext. intros x.
  apply StoreFacts.peek_touch_bytes.
Qed.

(** A read of four bytes at [0xFFFFFFFE], which wraps to the bytes stored
    at [0] and [1]. *)
Lemma readMem_agrees_with_readMemConst_witness :
  to_u32 4 <= 4
  /\ exists v s',
       AddressSpace.readMem 0xFFFFFFFE 4 low_two_bytes = Ok (v, s')
       /\ AddressSpace.readMemConst 0xFFFFFFFE 4 low_two_bytes = Ok (v, low_two_bytes)
       /\ m_initializationMemories s' = m_initializationMemories low_two_bytes
       /\ (forall x b, m_data low_two_bytes !! x = Some b -> m_data s' !! x = Some b)
       /\ (forall x, m_data low_two_bytes !! x = None ->
                     m_data s' !! x = None \/ m_data s' !! x = Some 0)
       /\ (forall a' w',
             to_u32 w' <= 4 ->
             exists r,
               AddressSpace.readMemConst a' w' low_two_bytes = Ok (r, low_two_bytes)
               /\ AddressSpace.readMemConst a' w' s' = Ok (r, s')).
Proof.
  assert (Hw : to_u32 4 <= 4) by (vm_compute; discriminate).
  split; [exact Hw |].
  exact (readMem_agrees_with_readMemConst low_two_bytes 0xFFFFFFFE 4 Hw).
Defined.

(** X4. After [readMem(a, w)] every byte of the range has an entry, so that
    [contains] is true at [a], ..., [a + w - 1], and a second [readMem] of
    the same range returns the same value and changes nothing. *)
Theorem readMem_fills_its_range (s : AddressSpace) (a w : Z) :
  exists v s',
    AddressSpace.readMem a w s = Ok (v, s')
    /\ (forall j, 0 <= j < to_u32 w ->
                  AddressSpace.contains (a + j) s' = Ok (true, s'))
    /\ AddressSpace.readMem a w s' = Ok (v, s').
Proof.
  rewrite AddressSpaceFacts.readMem_eq. eexists _, _. split; [reflexivity |].
  set (d' := touch_bytes _ _ _).
  assert (Hin : forall j, 0 <= j < to_u32 w -> is_Some (d' !! to_u32 (a + j))).
  { intros j Hj. subst d'. apply touch_bytes_lookup_in. lia. }
  split.
  - intros j Hj. rewrite AddressSpaceFacts.contains_eq.
    cbn [m_data AddressSpace.set_m_data].
    rewrite bool_decide_eq_true_2 by now apply Hin. reflexivity.
  - rewrite AddressSpaceFacts.readMem_eq. cbn [m_data AddressSpace.set_m_data].
    rewrite AddressSpaceFacts.touch_bytes_present.
    + do 2 f_equal. apply AddressSpaceFacts.read_bytes_ext. intros x.
      subst d'. apply StoreFacts.peek_touch_bytes.
    + intros j Hj. apply Hin. lia.
Qed.

(** ** Initialization memories *)

(** What the loop of [addInitializationMemory] leaves in the memory: the
    bytes of each element, least significant first, when the elements do
    not run over one another. *)
Lemma addInitializationMemory_loop_content program : forall sizeofT addr s,
  0 < sizeofT -> Z.of_nat (length program) * sizeofT <= 2 ^ 32 ->
  exists d',
    AddressSpace.addInitializationMemory_loop program sizeofT addr s
    = Ok (tt, AddressSpace.set_m_data d' s)
    /\ (store_wf (m_data s) -> store_wf d')
    /\ forall k x j,
         program !! k = Some x -> 0 <= j < sizeofT ->
         d' !! to_u32 (addr + Z.of_nat k * sizeofT + j)
         = Some (Z.land (Z.shiftr (to_u32 x) (8 * j)) 255).
Proof.
  induction program as [| p rest IH]; intros sizeofT addr s Hsz Hlen;
    cbn [AddressSpace.addInitializationMemory_loop].
  - exists (m_data s). unfold ret. rewrite AddressSpaceFacts.set_m_data_id.
    split; [reflexivity |]. split; [auto |]. intros k x j Hk. discriminate.
  - cbn [length] in Hlen.
    assert (0 <= Z.of_nat (length rest) * sizeofT) by nia.
    unfold bind. rewrite AddressSpaceFacts.writeMem_eq.
    set (d1 := write_bytes _ _ _ _ _).
    destruct (TraceFacts.addInitializationMemory_loop_ok rest sizeofT
                (to_u32 (addr + sizeofT)) (AddressSpace.set_m_data d1 s))
      as (d' & Hrun & Hwf & Hout).
    destruct (IH sizeofT (to_u32 (addr + sizeofT)) (AddressSpace.set_m_data d1 s))
      as (d2 & Hrun2 & _ & Hin); [lia | lia |].
    rewrite Hrun in Hrun2. injection Hrun2 as Hd. subst d2.
    exists d'. rewrite Hrun. cbn [m_data AddressSpace.set_m_data] in *.
    split; [reflexivity |]. split.
    + intros Hs. apply Hwf. subst d1. now apply StoreFacts.store_wf_write_bytes.
    + intros k x j Hk Hj. destruct k as [| k]; cbn in Hk.
      * injection Hk as ->. rewrite Hout.
        -- subst d1. change (Z.of_nat 0 * sizeofT) with 0. rewrite Z.add_0_r.
           rewrite <- (to_u32_add_l addr j).
           replace (to_u32 addr + j) with (to_u32 addr + 0 + j) by lia.
           apply AddressSpaceFacts.write_bytes_lookup_in; lia.
        -- intros k' j' Hk' Hj' Heq. change (Z.of_nat 0 * sizeofT) with 0 in Heq.
           replace (to_u32 (addr + sizeofT) + k' * sizeofT + j')
             with (to_u32 (addr + sizeofT) + (k' * sizeofT + j')) in Heq by lia.
           rewrite to_u32_add_l in Heq.
           apply to_u32_inj_near in Heq; nia.
      * specialize (Hin k x j Hk Hj).
        replace (to_u32 (addr + sizeofT) + Z.of_nat k * sizeofT + j)
          with (to_u32 (addr + sizeofT) + (Z.of_nat k * sizeofT + j)) in Hin by lia.
        rewrite to_u32_add_l in Hin. rewrite <- Hin.
        f_equal. f_equal. lia.
Qed.

(** X5. [addInitializationMemory(start, program, n)] followed by [reset]
    loads the program: in the state after any sequence of calls, for
    elements of [sizeofT] bytes, one to four, whose [n * sizeofT] bytes fit
    the address space, the call leaves the live store as it is, and after
    [reset] a read of [sizeofT] bytes at [start + k * sizeofT], with
    [readMem] or [readMemConst], returns the low [sizeofT] bytes of the
    element [program[k]]. *)
Theorem addInitializationMemory_reset_loads (l : list Call)
    (start : Z) (program : list Z) (sizeofT : Z) :
  1 <= sizeofT <= 4 -> Z.of_nat (length program) * sizeofT <= 2 ^ 32 ->
  exists s s1 s2,
    calls l AddressSpace.fresh = Ok (tt, s)
    /\ AddressSpace.addInitializationMemory start program sizeofT s = Ok (tt, s1)
    /\ m_data s1 = m_data s
    /\ AddressSpace.reset s1 = Ok (tt, s2)
    /\ forall k x,
         program !! k = Some x ->
         AddressSpace.readMemConst (start + Z.of_nat k * sizeofT) sizeofT s2
         = Ok (Z.land (to_u32 x) (Z.shiftl 1 (8 * sizeofT) - 1), s2)
         /\ AddressSpace.readMem (start + Z.of_nat k * sizeofT) sizeofT s2
            = Ok (Z.land (to_u32 x) (Z.shiftl 1 (8 * sizeofT) - 1), s2).
Proof.
  intros Hsz Hlen.
  destruct (TraceFacts.calls_wf l) as (s & Hrun & Hd & Hsegs).
  destruct (addInitializationMemory_loop_content program sizeofT (to_u32 start)
              AddressSpace.fresh) as (d' & Hloop & Hwf & Hin); [lia | exact Hlen |].
  exists s. eexists _, _. split; [exact Hrun |].
  unfold AddressSpace.addInitializationMemory, AddressSpace.on_emplaced_back.
  rewrite Hloop. split; [reflexivity |]. split; [reflexivity |].
  assert (Hsegs1 : Forall (fun mem => store_wf (m_data mem))
                     (m_initializationMemories s
                        ++ [AddressSpace.set_m_data d' AddressSpace.fresh])).
  { apply Forall_app. split; [exact Hsegs |]. constructor; [| constructor].
    apply Hwf, StoreFacts.store_wf_empty. }
  rewrite StoreFacts.reset_eq by exact Hsegs1. split; [reflexivity |].
  cbn [m_data m_initializationMemories AddressSpace.set_m_data].
  set (d2 := segments_union _).
  assert (Hbytes : forall k x j, program !! k = Some x -> 0 <= j < sizeofT ->
             d2 !! to_u32 (start + Z.of_nat k * sizeofT + j)
             = Some (Z.land (Z.shiftr (to_u32 x) (8 * j)) 255)).
  { intros k x j Hk Hj. subst d2. unfold segments_union.
    rewrite foldl_app. cbn [foldl m_data AddressSpace.set_m_data].
    rewrite lookup_union, <- Z.add_assoc, <- (to_u32_add_l start), Z.add_assoc.
    rewrite (Hin k x j Hk Hj). now destruct (foldl _ _ _ !! _). }
  intros k x Hk.
  assert (Hval : read_bytes (Z.to_nat (to_u32 sizeofT)) 0
                   (to_u32 (start + Z.of_nat k * sizeofT)) 0 d2
                 = Z.land (to_u32 x) (Z.shiftl 1 (8 * sizeofT) - 1)).
  { rewrite (to_u32_small sizeofT) by lia.
    pose proof (AddressSpaceFacts.read_bytes_low (Z.to_nat sizeofT) 0
                  (start + Z.of_nat k * sizeofT) (to_u32 x) d2) as Hr.
    rewrite Z.mul_0_r, Z.add_0_r in Hr. cbn [Z.ones Z.shiftl Z.pred Z.add] in Hr.
    rewrite Z.land_0_r in Hr. rewrite Hr.
    - rewrite Z2Nat.id by lia. rewrite Z.add_0_l.
      unfold Z.ones. now rewrite <- Z.sub_1_r.
    - lia.
    - lia.
    - intros j Hj. rewrite Z.add_0_l. apply (Hbytes k x j Hk). lia. }
  rewrite AddressSpaceFacts.readMemConst_eq, AddressSpaceFacts.readMem_eq.
  cbn [m_data AddressSpace.set_m_data]. rewrite Hval.
  split; [reflexivity |]. do 2 f_equal.
  rewrite AddressSpaceFacts.touch_bytes_present; [reflexivity |].
  intros j Hj. rewrite (Hbytes k x j Hk); [eauto |].
  rewrite (to_u32_small sizeofT) in Hj; lia.
Qed.

Lemma addInitializationMemory_reset_loads_witness :
  exists s s1 s2,
    calls [CallWriteMem 4 99 4] AddressSpace.fresh = Ok (tt, s)
    /\ AddressSpace.addInitializationMemory 0 [1; 2; 3; 4] 4 s = Ok (tt, s1)
    /\ m_data s1 = m_data s
    /\ AddressSpace.reset s1 = Ok (tt, s2)
    /\ forall k x,
         [1; 2; 3; 4] !! k = Some x ->
         AddressSpace.readMemConst (0 + Z.of_nat k * 4) 4 s2
         = Ok (Z.land (to_u32 x) (Z.shiftl 1 (8 * 4) - 1), s2)
         /\ AddressSpace.readMem (0 + Z.of_nat k * 4) 4 s2
            = Ok (Z.land (to_u32 x) (Z.shiftl 1 (8 * 4) - 1), s2).
Proof.
  refine (addInitializationMemory_reset_loads [CallWriteMem 4 99 4] 0 [1; 2; 3; 4] 4
            _ _).
  - lia.
  - cbn. lia.
Defined.

(** X6. [clearInitializationMemories] followed by [reset] leaves an empty
    object, whatever the state before: the store has no entry, there is no
    initialization memory, every read returns zero and [contains] is false
    for every address. *)
Theorem clear_then_reset_empties (s : AddressSpace) :
  (letM _ := AddressSpace.clearInitializationMemories in AddressSpace.reset) s
  = Ok (tt, AddressSpace.fresh)
  /\ (forall a w, AddressSpace.readMemConst a w AddressSpace.fresh
                  = Ok (0, AddressSpace.fresh))
  /\ (forall a w, exists s', AddressSpace.readMem a w AddressSpace.fresh = Ok (0, s'))
  /\ (forall a, AddressSpace.contains a AddressSpace.fresh
                = Ok (false, AddressSpace.fresh)).
Proof.
  split; [reflexivity |].
  assert (Hzero : forall a w,
             read_bytes (Z.to_nat (to_u32 w)) 0 (to_u32 a) 0 (m_data AddressSpace.fresh)
             = 0).
  { intros a w. apply read_bytes_blank. intros j Hj.
    unfold peek. cbn [m_data AddressSpace.fresh]. now rewrite lookup_empty. }
  split; [intros a w; now rewrite AddressSpaceFacts.readMemConst_eq, Hzero |].
  split; [intros a w; rewrite AddressSpaceFacts.readMem_eq, Hzero; eauto |].
  intros a. rewrite AddressSpaceFacts.contains_eq.
  cbn [m_data AddressSpace.fresh]. now rewrite lookup_empty.
Qed.

(** ** Bounds *)

Lemma lor_lt_pow2 a b n :
  0 <= n -> 0 <= a < 2 ^ n -> 0 <= b < 2 ^ n -> 0 <= Z.lor a b < 2 ^ n.
Proof.
  intros Hn Ha Hb.
  assert (0 <= Z.lor a b) as Hnn by (apply Z.lor_nonneg; lia).
  split; [exact Hnn |].
  destruct (Z.eq_dec (Z.lor a b) 0) as [-> | Hnz]; [lia |].
  apply Z.log2_lt_pow2; [lia |].
  rewrite Z.log2_lor by lia.
  destruct (Z.eq_dec a 0) as [-> | Ha0], (Z.eq_dec b 0) as [-> | Hb0].
  - now rewrite Z.lor_0_l in Hnz.
  - rewrite Z.max_r by apply Z.log2_nonneg. apply Z.log2_lt_pow2; lia.
  - rewrite Z.max_l by apply Z.log2_nonneg. apply Z.log2_lt_pow2; lia.
  - apply Z.max_lub_lt; apply Z.log2_lt_pow2; lia.
Qed.

Lemma read_bytes_lt_word n : forall i address value d,
  0 <= value < 2 ^ 32 -> 0 <= read_bytes n i address value d < 2 ^ 32.
Proof.
  induction n as [| n IH]; intros i address value d Hv; cbn [read_bytes]; [exact Hv |].
  apply IH. apply lor_lt_pow2; [lia | exact Hv |].
  unfold shl_to_u32. apply to_u32_range.
Qed.

Lemma read_bytes_lt_width n : forall i address value d,
  store_wf d -> 0 <= i -> i + Z.of_nat n <= 4 ->
  0 <= value < 2 ^ (8 * i) ->
  0 <= read_bytes n i address value d < 2 ^ (8 * (i + Z.of_nat n)).
Proof.
  induction n as [| n IH]; intros i address value d Hwf Hi Hn Hv; cbn [read_bytes].
  - now rewrite Z.add_0_r.
  - replace (i + Z.of_nat (S n)) with (i + 1 + Z.of_nat n) by lia.
    apply IH; [exact Hwf | lia | lia |].
    assert (2 ^ (8 * i) <= 2 ^ (8 * (i + 1))) by (apply Z.pow_le_mono_r; lia).
    assert (0 <= peek d address < 256) as Hb.
    { unfold peek. destruct (d !! address) as [b |] eqn:Hd; cbn [default]; [| lia].
      now apply Hwf in Hd. }
    apply lor_lt_pow2; [lia | lia |].
    rewrite shl_byte_fits by lia. rewrite Z.shiftl_mul_pow2 by lia.
    assert (0 < 2 ^ (8 * i)) by (apply Z.pow_pos_nonneg; lia).
    replace (8 * (i + 1)) with (8 + 8 * i) by lia.
    rewrite Z.pow_add_r by lia. change (2 ^ 8) with 256. nia.
Qed.

(** X7. In the state after any sequence of calls, every key of the live
    store and of each initialization memory is a 32-bit address and every
    value is a byte; a read returns a 32-bit value, for every address and
    width, and a value below [2^(8w)] for a width [w] of at most four. *)
Theorem reads_are_bounded (l : list Call) (a w : Z) :
  exists s v s',
    calls l AddressSpace.fresh = Ok (tt, s)
    /\ store_wf (m_data s)
    /\ Forall (fun mem => store_wf (m_data mem)) (m_initializationMemories s)
    /\ AddressSpace.readMemConst a w s = Ok (v, s)
    /\ AddressSpace.readMem a w s = Ok (v, s')
    /\ 0 <= v < 2 ^ 32
    /\ (0 <= w <= 4 -> v < 2 ^ (8 * w)).
Proof.
  destruct (TraceFacts.calls_wf l) as (s & Hrun & Hd & Hsegs).
  exists s. eexists _, _.
  rewrite AddressSpaceFacts.readMemConst_eq, AddressSpaceFacts.readMem_eq.
  split; [exact Hrun |]. split; [exact Hd |].
  split; [exact Hsegs |]. split; [reflexivity |]. split; [reflexivity |].
  split; [apply read_bytes_lt_word; lia |].
  intros Hw. rewrite (to_u32_small w) by lia.
  pose proof (read_bytes_lt_width (Z.to_nat w) 0 (to_u32 a) 0 (m_data s) Hd) as Hb.
  rewrite Z2Nat.id, Z.add_0_l in Hb by lia. apply Hb; cbn; lia.
Qed.

(** * Further properties of the regions *)

(** ** Lookup over disjoint regions within the address space *)

Section RegionLookup.
Context {P : Type}.
Import AddressSpaceMM.

Implicit Types (regions : gmap Z (MMapValue P)) (r : MMapValue P) (st : State P).

Lemma not_found_uncovered regions a :
  keyed_by_last regions -> within_address_space regions ->
  pairwise_disjoint regions ->
  findMMapRegion regions a = None -> uncovered regions a.
Proof.
  intros Hkey Hin Hdisj Hfind r Hreg Hcov.
  rewrite (AddressSpaceMMFacts.covered_found regions a r Hkey Hin Hdisj Hreg Hcov)
    in Hfind.
  discriminate.
Qed.

Lemma found_iff_covered regions a r :
  keyed_by_last regions -> within_address_space regions ->
  pairwise_disjoint regions ->
  findMMapRegion regions a = Some r <-> registered regions r /\ covers r (to_u32 a).
Proof.
  intros Hkey Hin Hdisj. split.
  - now apply AddressSpaceMMFacts.findMMapRegion_Some_covers.
  - intros [Hreg Hcov]. now apply AddressSpaceMMFacts.covered_found.
Qed.

(** A successful [addIORegion] put its entry under a key that was free. *)
Lemma addIORegion_key_fresh st st' baseAddr size io :
  keyed_by_last (m_mmapRegions st) -> within_address_space (m_mmapRegions st) ->
  addIORegion baseAddr size io st = Ok (tt, st') ->
  m_mmapRegions st !! to_u32 (to_u32 baseAddr + to_u32 size - 1) = None.
Proof.
  intros Hkey Hin. rewrite AddressSpaceMMFacts.addIORegion_eq.
  destruct (_ && _ && _) eqn:Hok; [| discriminate]. intros _.
  apply andb_prop in Hok as [Hok _]. apply andb_prop in Hok as [_ H2].
  apply bool_decide_eq_true_1 in H2.
  set (key := to_u32 (to_u32 baseAddr + to_u32 size - 1)) in *.
  destruct (m_mmapRegions st !! key) as [r0 |] eqn:Hk0; [exfalso | reflexivity].
  destruct (AddressSpaceMMFacts.last_address _ key r0 Hkey Hin Hk0) as (Hlast & Hb & Hs).
  assert (to_u32 key = key) as Hkk by (subst key; apply to_u32_idem).
  apply AddressSpaceMMFacts.findMMapRegion_None in H2
    as [Hall | (k & r & Hk & Hle & Hlt & Hmin)].
  - specialize (Hall key r0 Hk0). lia.
  - specialize (Hmin key r0 Hk0 ltac:(lia)).
    assert (k = key) by lia. subst k.
    assert (r = r0) by congruence. subst r. lia.
Qed.

(** What an accepted [addIORegion] did. *)
Lemma addIORegion_accepted st st' baseAddr size io :
  addIORegion baseAddr size io st = Ok (tt, st') ->
  findMMapRegion (m_mmapRegions st) (to_u32 baseAddr) = None
  /\ findMMapRegion (m_mmapRegions st) (to_u32 (to_u32 baseAddr + to_u32 size - 1)) = None
  /\ 0 < to_u32 size
  /\ m_mmapRegions st'
     = <[to_u32 (to_u32 baseAddr + to_u32 size - 1) :=
           {| base := to_u32 baseAddr; size := to_u32 size; io := io |}]>
         (m_mmapRegions st).
Proof.
  rewrite AddressSpaceMMFacts.addIORegion_eq.
  destruct (_ && _ && _) eqn:Hok; [| discriminate].
  apply andb_prop in Hok as [Hok H3]. apply andb_prop in Hok as [H1 H2].
  apply bool_decide_eq_true_1 in H1, H2. apply Z.ltb_lt in H3.
  intros [= <-]. auto.
Qed.

(** A region registered before either misses the accepted region or lies
    strictly inside it. *)
Lemma accepted_region_dichotomy regions (b sz : Z) r :
  keyed_by_last regions -> within_address_space regions ->
  pairwise_disjoint regions ->
  0 <= b -> b + sz - 1 < 2 ^ 32 -> 0 < sz ->
  findMMapRegion regions b = None ->
  findMMapRegion regions (b + sz - 1) = None ->
  registered regions r ->
  (base r + AddressSpaceMM.size r - 1 < b \/ b + sz - 1 < base r)
  \/ (b < base r /\ base r + AddressSpaceMM.size r - 1 < b + sz - 1).
Proof.
  intros Hkey Hin Hdisj Hb Hnowrap Hsz H1 H2 Hreg.
  pose proof (not_found_uncovered regions b Hkey Hin Hdisj H1 r Hreg) as Hub.
  pose proof (not_found_uncovered regions (b + sz - 1) Hkey Hin Hdisj H2 r Hreg) as Hul.
  rewrite to_u32_small in Hub, Hul by lia.
  destruct Hreg as [k Hk].
  destruct (AddressSpaceMMFacts.last_address _ k r Hkey Hin Hk) as (Hlast & Hbr & Hsr).
  unfold covers in *. lia.
Qed.

(** Without a registered region inside the accepted one, the regions stay
    pairwise disjoint. *)
Lemma accepted_region_disjoint regions (b sz : Z) (io : IOFunctors P) :
  keyed_by_last regions -> within_address_space regions ->
  pairwise_disjoint regions ->
  0 <= b -> b + sz - 1 < 2 ^ 32 -> 0 < sz ->
  findMMapRegion regions b = None ->
  findMMapRegion regions (b + sz - 1) = None ->
  (forall r, registered regions r ->
             ~ (b < base r /\ base r + AddressSpaceMM.size r - 1 < b + sz - 1)) ->
  pairwise_disjoint (<[b + sz - 1 := {| base := b; size := sz; io := io |}]> regions).
Proof.
  intros Hkey Hin Hdisj Hb Hnowrap Hsz H1 H2 Hnone k1 k2 r1 r2 x Hk1 Hk2 Hne Hc1 Hc2.
  assert (Hmiss : forall k r, regions !! k = Some r ->
            covers r x -> covers {| base := b; size := sz; io := io |} x -> False).
  { intros k r Hk Hc Hcn.
    assert (registered regions r) as Hreg by now exists k.
    destruct (accepted_region_dichotomy regions b sz r Hkey Hin Hdisj Hb Hnowrap Hsz
                H1 H2 Hreg) as [Hd | Hinside]; [| now apply (Hnone r Hreg)].
    unfold covers in Hc, Hcn. cbn [base AddressSpaceMM.size] in Hcn. lia. }
  apply lookup_insert_Some in Hk1 as [[<- <-] | [Hn1 Hk1]];
    apply lookup_insert_Some in Hk2 as [[<- <-] | [Hn2 Hk2]].
  - congruence.
  - exact (Hmiss k2 r2 Hk2 Hc2 Hc1).
  - exact (Hmiss k1 r1 Hk1 Hc1 Hc2).
  - exact (Hdisj k1 k2 r1 r2 x Hk1 Hk2 Hne Hc1 Hc2).
Qed.

(** X8. The check of [addIORegion] on the two end addresses excludes every
    overlap but one.  In a state whose regions are pairwise disjoint and
    lie within the address space, when a region that itself lies within
    the address space is accepted, each region registered before is either
    disjoint from the new one or lies strictly inside it; all of them stay
    registered, the new one is registered under its last address, and when
    none lies inside the new one the regions are pairwise disjoint again. *)
Theorem addIORegion_excludes_partial_overlap st st' (baseAddr size : Z)
    (io : IOFunctors P) :
  keyed_by_last (m_mmapRegions st) -> within_address_space (m_mmapRegions st) ->
  pairwise_disjoint (m_mmapRegions st) ->
  to_u32 baseAddr + to_u32 size - 1 < 2 ^ 32 ->
  addIORegion baseAddr size io st = Ok (tt, st') ->
  m_mmapRegions st' !! (to_u32 baseAddr + to_u32 size - 1)
  = Some {| base := to_u32 baseAddr; size := to_u32 size; io := io |}
  /\ (forall r, registered (m_mmapRegions st) r -> registered (m_mmapRegions st') r)
  /\ keyed_by_last (m_mmapRegions st')
  /\ within_address_space (m_mmapRegions st')
  /\ (forall r,
        registered (m_mmapRegions st) r ->
        (forall x, covers r x ->
                   covers {| base := to_u32 baseAddr; size := to_u32 size; io := io |} x ->
                   False)
        \/ (to_u32 baseAddr < base r
            /\ base r + AddressSpaceMM.size r - 1 < to_u32 baseAddr + to_u32 size - 1))
  /\ ((forall r,
         registered (m_mmapRegions st) r ->
         ~ (to_u32 baseAddr < base r
            /\ base r + AddressSpaceMM.size r - 1 < to_u32 baseAddr + to_u32 size - 1)) ->
      pairwise_disjoint (m_mmapRegions st')).
Proof.
  intros Hkey Hin Hdisj Hnowrap Hadd.
  pose proof (addIORegion_key_fresh st st' baseAddr size io Hkey Hin Hadd) as Hfresh.
  pose proof (AddressSpaceMMFacts.addIORegion_keyed _ _ _ _ _ Hkey Hadd) as Hkey'.
  destruct (addIORegion_accepted st st' baseAddr size io Hadd) as (H1 & H2 & H3 & Hmap).
  pose proof (to_u32_range baseAddr) as Hb.
  rewrite (to_u32_small (to_u32 baseAddr + to_u32 size - 1)) in * by lia.
  rewrite Hmap in *.
  split; [apply lookup_insert_eq |].
  split.
  { intros r [k Hk]. exists k. rewrite lookup_insert_ne; [exact Hk |].
    intros <-. congruence. }
  split; [exact Hkey' |].
  split.
  { intros k r Hk. apply lookup_insert_Some in Hk as [[<- <-] | [_ Hk]];
      [cbn; lia | now apply (Hin k r)]. }
  split.
  - intros r Hreg.
    destruct (accepted_region_dichotomy _ (to_u32 baseAddr) (to_u32 size) r
                Hkey Hin Hdisj ltac:(lia) Hnowrap H3 H1 H2 Hreg) as [Hd | Hinside];
      [left | now right].
    intros x Hc Hcn. unfold covers in Hc, Hcn. cbn [base AddressSpaceMM.size] in Hcn. lia.
  - intros Hnone.
    now apply accepted_region_disjoint.
Qed.

End RegionLookup.

Lemma addIORegion_excludes_partial_overlap_witness :
  AddressSpaceMM.addIORegion 0x2800 0x100 io_echo (with_regions two_regions)
  = Ok (tt, with_regions (<[0x28FF := region 0x2800 0x100]> two_regions))
  /\ <[0x28FF := region 0x2800 0x100]> two_regions !! (to_u32 0x2800 + to_u32 0x100 - 1)
     = Some (region (to_u32 0x2800) (to_u32 0x100))
  /\ AddressSpaceMM.pairwise_disjoint (<[0x28FF := region 0x2800 0x100]> two_regions).
Proof.
  assert (Hadd : AddressSpaceMM.addIORegion 0x2800 0x100 io_echo
                   (with_regions two_regions)
                 = Ok (tt, with_regions (<[0x28FF := region 0x2800 0x100]> two_regions)))
    by (vm_compute; reflexivity).
  destruct (addIORegion_excludes_partial_overlap
              (with_regions two_regions)
              (with_regions (<[0x28FF := region 0x2800 0x100]> two_regions))
              0x2800 0x100 io_echo
              two_regions_keyed two_regions_within two_regions_disjoint)
    as (Hnew & _ & _ & _ & _ & Hdisj).
  - vm_compute. reflexivity.
  - exact Hadd.
  - split; [exact Hadd |]. split; [exact Hnew |].
    apply Hdisj. intros r [k Hk] [Hlo Hhi].
    cbn [AddressSpaceMM.m_mmapRegions with_regions] in Hk. unfold two_regions in Hk.
    change (to_u32 0x2800) with 0x2800 in *. change (to_u32 0x100) with 0x100 in *.
    lookup_cases Hk; cbn in Hlo, Hhi; lia.
Defined.

Section RegionRemoval.
Context {P : Type}.
Import AddressSpaceMM.

Implicit Types (regions : gmap Z (MMapValue P)) (r : MMapValue P) (st : State P).

(** X9. Registering a region and removing it again, with the same base and
    size, gives back the state before, when the regions registered before
    lie within the address space. *)
Theorem addIORegion_removeIORegion_restores st st1 (baseAddr size : Z)
    (io : IOFunctors P) :
  keyed_by_last (m_mmapRegions st) -> within_address_space (m_mmapRegions st) ->
  addIORegion baseAddr size io st = Ok (tt, st1) ->
  removeIORegion baseAddr size st1 = Ok (tt, st).
Proof.
  intros Hkey Hin Hadd.
  pose proof (addIORegion_key_fresh st st1 baseAddr size io Hkey Hin Hadd) as Hfresh.
  rewrite AddressSpaceMMFacts.addIORegion_eq in Hadd.
  destruct (_ && _ && _); [| discriminate]. injection Hadd as <-.
  rewrite AddressSpaceMMFacts.removeIORegion_eq. cbn [m_mmapRegions super peripherals io_calls].
  rewrite lookup_insert_eq, delete_insert_eq, delete_id by exact Hfresh.
  now destruct st.
Qed.

Lemma subset_keyed regions k :
  keyed_by_last regions -> keyed_by_last (delete k regions).
Proof. intros H k' r Hk. apply lookup_delete_Some in Hk as [_ Hk]. now apply H. Qed.

Lemma subset_within regions k :
  within_address_space regions -> within_address_space (delete k regions).
Proof. intros H k' r Hk. apply lookup_delete_Some in Hk as [_ Hk]. now apply (H k'). Qed.

Lemma subset_disjoint regions k :
  pairwise_disjoint regions -> pairwise_disjoint (delete k regions).
Proof.
  intros H k1 k2 r1 r2 x Hk1 Hk2.
  apply lookup_delete_Some in Hk1 as [_ Hk1]. apply lookup_delete_Some in Hk2 as [_ Hk2].
  now apply H.
Qed.

(** X10. Removing a region unmaps its addresses and no others.  In a state
    whose regions are pairwise disjoint and lie within the address space,
    after a successful [removeIORegion] the regions are again pairwise
    disjoint and within the address space, the lookup of an address of the
    removed region finds nothing, and the lookup of any other address finds
    what it found before. *)
Theorem removeIORegion_unmaps_its_region st st' (baseAddr size : Z) :
  keyed_by_last (m_mmapRegions st) -> within_address_space (m_mmapRegions st) ->
  pairwise_disjoint (m_mmapRegions st) ->
  removeIORegion baseAddr size st = Ok (tt, st') ->
  exists r,
    m_mmapRegions st !! to_u32 (to_u32 baseAddr + to_u32 size - 1) = Some r
    /\ keyed_by_last (m_mmapRegions st')
    /\ within_address_space (m_mmapRegions st')
    /\ pairwise_disjoint (m_mmapRegions st')
    /\ forall x,
         (covers r (to_u32 x) -> findMMapRegion (m_mmapRegions st') x = None)
         /\ (~ covers r (to_u32 x) ->
             findMMapRegion (m_mmapRegions st') x = findMMapRegion (m_mmapRegions st) x).
Proof.
  intros Hkey Hin Hdisj. rewrite AddressSpaceMMFacts.removeIORegion_eq.
  set (key := to_u32 (to_u32 baseAddr + to_u32 size - 1)).
  destruct (m_mmapRegions st !! key) as [r |] eqn:Hk; [| discriminate].
  intros [= <-]. cbn [m_mmapRegions]. exists r.
  pose proof (subset_keyed _ key Hkey) as Hkey'.
  pose proof (subset_within _ key Hin) as Hin'.
  pose proof (subset_disjoint _ key Hdisj) as Hdisj'.
  split; [reflexivity |]. split; [exact Hkey' |]. split; [exact Hin' |].
  split; [exact Hdisj' |]. intros x. split.
  - intros Hcov. apply AddressSpaceMMFacts.uncovered_not_found; [exact Hkey' |].
    intros r' [k' Hk'] Hcov'. apply lookup_delete_Some in Hk' as [Hne Hk'].
    exact (Hdisj key k' r r' (to_u32 x) Hk Hk' Hne Hcov Hcov').
  - intros Hncov.
    destruct (findMMapRegion (m_mmapRegions st) x) as [r1 |] eqn:Hfind.
    + apply (found_iff_covered _ x r1 Hkey Hin Hdisj) in Hfind as [[k1 Hk1] Hcov1].
      apply (found_iff_covered _ x r1 Hkey' Hin' Hdisj'). split; [| exact Hcov1].
      exists k1. apply lookup_delete_Some. split; [| exact Hk1].
      intros <-. congruence.
    + apply AddressSpaceMMFacts.uncovered_not_found; [exact Hkey' |].
      intros r' [k' Hk'] Hcov'. apply lookup_delete_Some in Hk' as [_ Hk'].
      apply (not_found_uncovered _ x Hkey Hin Hdisj Hfind r'); [now exists k' | exact Hcov'].
Qed.

(** X11. Registering a region maps its addresses and no others.  In a state
    whose regions are pairwise disjoint and lie within the address space,
    after a successful [addIORegion] of a region that lies within the
    address space and has no registered region inside it, the lookup of an
    address of the new region finds the new region, and the lookup of any
    other address finds what it found before. *)
Theorem addIORegion_maps_its_region st st' (baseAddr size : Z) (io : IOFunctors P) :
  keyed_by_last (m_mmapRegions st) -> within_address_space (m_mmapRegions st) ->
  pairwise_disjoint (m_mmapRegions st) ->
  to_u32 baseAddr + to_u32 size - 1 < 2 ^ 32 ->
  (forall r,
     registered (m_mmapRegions st) r ->
     ~ (to_u32 baseAddr < base r
        /\ base r + AddressSpaceMM.size r - 1 < to_u32 baseAddr + to_u32 size - 1)) ->
  addIORegion baseAddr size io st = Ok (tt, st') ->
  forall x,
    (covers {| base := to_u32 baseAddr; size := to_u32 size; io := io |} (to_u32 x) ->
     findMMapRegion (m_mmapRegions st') x
     = Some {| base := to_u32 baseAddr; size := to_u32 size; io := io |})
    /\ (~ covers {| base := to_u32 baseAddr; size := to_u32 size; io := io |} (to_u32 x) ->
        findMMapRegion (m_mmapRegions st') x = findMMapRegion (m_mmapRegions st) x).
Proof.
  intros Hkey Hin Hdisj Hnowrap Hnone Hadd x.
  pose proof (addIORegion_key_fresh st st' baseAddr size io Hkey Hin Hadd) as Hfresh.
  pose proof (AddressSpaceMMFacts.addIORegion_keyed _ _ _ _ _ Hkey Hadd) as Hkey'.
  destruct (addIORegion_accepted st st' baseAddr size io Hadd) as (H1 & H2 & H3 & Hmap).
  pose proof (to_u32_range baseAddr) as Hb.
  rewrite (to_u32_small (to_u32 baseAddr + to_u32 size - 1)) in * by lia.
  rewrite Hmap in *.
  set (new := {| base := to_u32 baseAddr; size := to_u32 size; io := io |}) in *.
  assert (Hin' : within_address_space
                   (<[to_u32 baseAddr + to_u32 size - 1 := new]> (m_mmapRegions st))).
  { intros k r Hk. apply lookup_insert_Some in Hk as [[<- <-] | [_ Hk]];
      [cbn; lia | now apply (Hin k r)]. }
  assert (Hdisj' : pairwise_disjoint
                     (<[to_u32 baseAddr + to_u32 size - 1 := new]> (m_mmapRegions st)))
    by (apply accepted_region_disjoint; auto; lia).
  split.
  - intros Hcov. apply (found_iff_covered _ x new Hkey' Hin' Hdisj').
    split; [| exact Hcov]. eexists. apply lookup_insert_eq.
  - intros Hncov.
    destruct (findMMapRegion (m_mmapRegions st) x) as [r1 |] eqn:Hfind.
    + apply (found_iff_covered _ x r1 Hkey Hin Hdisj) in Hfind as [[k1 Hk1] Hcov1].
      apply (found_iff_covered _ x r1 Hkey' Hin' Hdisj'). split; [| exact Hcov1].
      exists k1. rewrite lookup_insert_ne; [exact Hk1 |]. intros <-. congruence.
    + apply AddressSpaceMMFacts.uncovered_not_found; [exact Hkey' |].
      intros r' [k' Hk'] Hcov'.
      apply lookup_insert_Some in Hk' as [[_ <-] | [_ Hk']]; [now apply Hncov |].
      apply (not_found_uncovered _ x Hkey Hin Hdisj Hfind r'); [now exists k' | exact Hcov'].
Qed.

End RegionRemoval.

Lemma addIORegion_removeIORegion_restores_witness :
  AddressSpaceMM.addIORegion 0x2800 0x100 io_echo (with_regions two_regions)
  = Ok (tt, with_regions (<[0x28FF := region 0x2800 0x100]> two_regions))
  /\ AddressSpaceMM.removeIORegion 0x2800 0x100
       (with_regions (<[0x28FF := region 0x2800 0x100]> two_regions))
     = Ok (tt, with_regions two_regions).
Proof.
  assert (Hadd : AddressSpaceMM.addIORegion 0x2800 0x100 io_echo
                   (with_regions two_regions)
                 = Ok (tt, with_regions (<[0x28FF := region 0x2800 0x100]> two_regions)))
    by (vm_compute; reflexivity).
  split; [exact Hadd |].
  exact (addIORegion_removeIORegion_restores
           (with_regions two_regions)
           (with_regions (<[0x28FF := region 0x2800 0x100]> two_regions))
           0x2800 0x100 io_echo two_regions_keyed two_regions_within Hadd).
Defined.

Lemma removeIORegion_unmaps_its_region_witness :
  exists r,
    two_regions !! to_u32 (to_u32 0x2000 + to_u32 0x100 - 1) = Some r
    /\ AddressSpaceMM.keyed_by_last (<[0x30FF := region 0x3000 0x100]> ∅)
    /\ AddressSpaceMM.within_address_space (<[0x30FF := region 0x3000 0x100]> ∅)
    /\ AddressSpaceMM.pairwise_disjoint (<[0x30FF := region 0x3000 0x100]> ∅)
    /\ forall x,
         (AddressSpaceMM.covers r (to_u32 x) ->
          AddressSpaceMM.findMMapRegion (<[0x30FF := region 0x3000 0x100]> ∅) x = None)
         /\ (~ AddressSpaceMM.covers r (to_u32 x) ->
             AddressSpaceMM.findMMapRegion (<[0x30FF := region 0x3000 0x100]> ∅) x
             = AddressSpaceMM.findMMapRegion two_regions x).
Proof.
  refine (removeIORegion_unmaps_its_region
            (with_regions two_regions)
            (with_regions (<[0x30FF := region 0x3000 0x100]> ∅))
            0x2000 0x100 two_regions_keyed two_regions_within two_regions_disjoint _).
  vm_compute. reflexivity.
Defined.

Lemma addIORegion_maps_its_region_witness :
  AddressSpaceMM.findMMapRegion (<[0x28FF := region 0x2800 0x100]> two_regions) 0x2850
  = Some (region 0x2800 0x100)
  /\ AddressSpaceMM.findMMapRegion (<[0x28FF := region 0x2800 0x100]> two_regions) 0x2000
     = AddressSpaceMM.findMMapRegion two_regions 0x2000.
Proof.
  assert (Hadd : AddressSpaceMM.addIORegion 0x2800 0x100 io_echo
                   (with_regions two_regions)
                 = Ok (tt, with_regions (<[0x28FF := region 0x2800 0x100]> two_regions)))
    by (vm_compute; reflexivity).
  assert (Hnone : forall r,
            AddressSpaceMM.registered two_regions r ->
            ~ (to_u32 0x2800 < AddressSpaceMM.base r
               /\ AddressSpaceMM.base r + AddressSpaceMM.size r - 1
                  < to_u32 0x2800 + to_u32 0x100 - 1)).
  { intros r [k Hk] [Hlo Hhi]. unfold two_regions in Hk.
    change (to_u32 0x2800) with 0x2800 in *. change (to_u32 0x100) with 0x100 in *.
    lookup_cases Hk; cbn in Hlo, Hhi; lia. }
  assert (Hnowrap : to_u32 0x2800 + to_u32 0x100 - 1 < 2 ^ 32)
    by (vm_compute; reflexivity).
  split.
  - apply (addIORegion_maps_its_region
             (with_regions two_regions)
             (with_regions (<[0x28FF := region 0x2800 0x100]> two_regions))
             0x2800 0x100 io_echo two_regions_keyed two_regions_within
             two_regions_disjoint Hnowrap Hnone Hadd 0x2850).
    unfold AddressSpaceMM.covers. cbn. vm_compute. split; discriminate.
  - apply (addIORegion_maps_its_region
             (with_regions two_regions)
             (with_regions (<[0x28FF := region 0x2800 0x100]> two_regions))
             0x2800 0x100 io_echo two_regions_keyed two_regions_within
             two_regions_disjoint Hnowrap Hnone Hadd 0x2000).
    unfold AddressSpaceMM.covers. cbn. vm_compute. intros [H _]. now apply H.
Defined.

(** ** The offsets that the functors receive *)

Section FunctorOffsets.
Context {P : Type}.
Import AddressSpaceMM.

Implicit Types (regions : gmap Z (MMapValue P)) (r : MMapValue P) (st : State P).

Lemma found_offset_in_bounds regions a r :
  keyed_by_last regions ->
  findMMapRegion regions a = Some r ->
  0 <= to_u32 (to_u32 a - base r) < AddressSpaceMM.size r.
Proof.
  intros Hkey Hfind.
  destruct (AddressSpaceMMFacts.findMMapRegion_Some_covers regions a r Hkey Hfind)
    as [[k Hk] Hcov].
  destruct (Hkey k r Hk) as (Hb & Hs & _). unfold covers in Hcov.
  pose proof (to_u32_range a). rewrite to_u32_small by lia. lia.
Qed.

Lemma keeps_bounds_ret {A} (a : A) : keeps_bounds (ret a : St (State P) A).
Proof. intros st a' st' Hinv [= _ <-]. exact Hinv. Qed.

Lemma keeps_bounds_bind {A B} (m : St (State P) A) (k : A -> St (State P) B) :
  keeps_bounds m -> (forall a, keeps_bounds (k a)) -> keeps_bounds (bind m k).
Proof.
  intros Hm Hk st b st' Hinv. unfold bind.
  destruct (m st) as [[a st1] | |] eqn:Hrun; [| discriminate | discriminate].
  apply (Hk a st1 b st'). exact (Hm st a st1 Hinv Hrun).
Qed.

Lemma keeps_bounds_for_each {A} (l : list A) (body : A -> St (State P) unit) :
  (forall x, keeps_bounds (body x)) -> keeps_bounds (for_each l body).
Proof.
  intros Hbody. induction l as [| x rest IH]; cbn [for_each].
  - apply keeps_bounds_ret.
  - apply keeps_bounds_bind; [apply Hbody | intros _; exact IH].
Qed.

Lemma keeps_bounds_discard {A} (m : St (State P) A) :
  keeps_bounds m -> keeps_bounds (discard m).
Proof.
  intros Hm. apply keeps_bounds_bind; [exact Hm | intros a; apply keeps_bounds_ret].
Qed.

Lemma keeps_bounds_on_super {A} (m : St AddressSpace A) :
  keeps_bounds (on_super m : St (State P) A).
Proof.
  intros st a st' Hinv. unfold on_super.
  destruct (m (super st)) as [[a0 s'] | |]; [| discriminate | discriminate].
  intros [= _ <-]. exact Hinv.
Qed.

Lemma keeps_bounds_writeMem a v n : keeps_bounds (@writeMem P a v n).
Proof.
  intros st x st' [Hkey Hcalls]. unfold writeMem.
  destruct (findMMapRegion (m_mmapRegions st) a) as [r |] eqn:Hfind.
  - intros [= _ <-]. split; [exact Hkey |]. cbn [io_calls].
    apply Forall_app. split; [exact Hcalls |]. constructor; [| constructor].
    exact (found_offset_in_bounds _ a r Hkey Hfind).
  - now apply keeps_bounds_on_super.
Qed.

Lemma keeps_bounds_call_ioRead a w r st x st' :
  calls_in_bounds st -> findMMapRegion (m_mmapRegions st) a = Some r ->
  call_ioRead r (to_u32 (to_u32 a - base r)) (to_u32 w) st = Ok (x, st') ->
  calls_in_bounds st'.
Proof.
  intros [Hkey Hcalls] Hfind. unfold call_ioRead. destruct (ioRead _ _ _ _).
  intros [= _ <-]. split; [exact Hkey |]. cbn [io_calls].
  apply Forall_app. split; [exact Hcalls |]. constructor; [| constructor].
  exact (found_offset_in_bounds _ a r Hkey Hfind).
Qed.

Lemma keeps_bounds_readMem a w : keeps_bounds (@readMem P a w).
Proof.
  intros st x st' Hinv. unfold readMem.
  destruct (findMMapRegion (m_mmapRegions st) a) as [r |] eqn:Hfind.
  - now apply keeps_bounds_call_ioRead.
  - now apply keeps_bounds_on_super.
Qed.

Lemma keeps_bounds_readMemConst a w : keeps_bounds (@readMemConst P a w).
Proof.
  intros st x st' Hinv. unfold readMemConst.
  destruct (findMMapRegion (m_mmapRegions st) a) as [r |] eqn:Hfind.
  - now apply keeps_bounds_call_ioRead.
  - now apply keeps_bounds_on_super.
Qed.

Lemma keeps_bounds_regionType a : keeps_bounds (@regionType P a).
Proof.
  intros st x st' Hinv. unfold regionType.
  destruct (findMMapRegion (m_mmapRegions st) a); intros [= _ <-]; exact Hinv.
Qed.

Lemma keeps_bounds_reset order : keeps_bounds (@reset P order).
Proof.
  unfold reset. apply keeps_bounds_bind; [apply keeps_bounds_on_super |].
  intros _ st x st'. unfold bind, get.
  apply keeps_bounds_for_each. intros mem.
  apply keeps_bounds_for_each. intros memData. apply keeps_bounds_writeMem.
Qed.

Lemma keeps_bounds_addIORegion b sz f : keeps_bounds (@addIORegion P b sz f).
Proof.
  intros st [] st' [Hkey Hcalls] Hrun.
  split; [exact (AddressSpaceMMFacts.addIORegion_keyed _ _ _ _ _ Hkey Hrun) |].
  rewrite AddressSpaceMMFacts.addIORegion_eq in Hrun.
  destruct (_ && _ && _); [| discriminate]. now injection Hrun as <-.
Qed.

Lemma keeps_bounds_removeIORegion b sz : keeps_bounds (@removeIORegion P b sz).
Proof.
  intros st [] st' [Hkey Hcalls] Hrun.
  split; [exact (AddressSpaceMMFacts.removeIORegion_keyed _ _ _ _ Hkey Hrun) |].
  rewrite AddressSpaceMMFacts.removeIORegion_eq in Hrun.
  destruct (m_mmapRegions st !! _); [| discriminate]. now injection Hrun as <-.
Qed.

Lemma keeps_bounds_call_mm (c : CallMM P) : keeps_bounds (call_mm c).
Proof.
  destruct c; cbn [call_mm];
    try apply keeps_bounds_discard;
    first [ apply keeps_bounds_writeMem | apply keeps_bounds_readMem
          | apply keeps_bounds_readMemConst | apply keeps_bounds_regionType
          | apply keeps_bounds_reset | apply keeps_bounds_addIORegion
          | apply keeps_bounds_removeIORegion | apply keeps_bounds_on_super ].
Qed.

(** X12. Every call that an [AddressSpaceMM] ever makes to a functor has
    its offset within the region of that functor: in the state after any
    sequence of calls on a new object, each recorded call has
    [0 <= offset < size] for the size of its region.  (The width of the
    access is not compared with the size.) *)
Theorem functor_offsets_in_bounds (l : list (CallMM P)) (p : P) st :
  calls_mm l (fresh p) = Ok (tt, st) ->
  Forall call_in_bounds (io_calls st)
  /\ forall a r, findMMapRegion (m_mmapRegions st) a = Some r ->
                 0 <= to_u32 a - base r < AddressSpaceMM.size r.
Proof.
  intros Hrun.
  assert (calls_in_bounds st) as [Hkey Hcalls].
  { apply (keeps_bounds_for_each l call_mm keeps_bounds_call_mm (fresh p) tt st);
      [| exact Hrun].
    split; [apply AddressSpaceMMFacts.keyed_by_last_empty | constructor]. }
  split; [exact Hcalls |]. intros a r Hfind.
  pose proof (found_offset_in_bounds _ a r Hkey Hfind) as Hoff.
  destruct (AddressSpaceMMFacts.findMMapRegion_Some_covers _ a r Hkey Hfind)
    as [[k Hk] Hcov].
  destruct (Hkey k r Hk) as (Hb & _). unfold covers in Hcov.
  pose proof (to_u32_range a). rewrite to_u32_small in Hoff by lia. exact Hoff.
Qed.

End FunctorOffsets.

(** A write and a read in a region of sixteen bytes; the read of four bytes
    at offset [15] runs past the region. *)
Lemma functor_offsets_in_bounds_witness :
  calls_mm [MMAddIORegion 0x1000 0x10 io_echo; MMWriteMem 0x1005 7 4; MMReadMem 0x100F 4]
    (AddressSpaceMM.fresh [])
  = Ok (tt, {| AddressSpaceMM.super := AddressSpace.fresh;
               AddressSpaceMM.m_mmapRegions := <[0x100F := region 0x1000 0x10]> ∅;
               AddressSpaceMM.peripherals := [7];
               AddressSpaceMM.io_calls :=
                 [AddressSpaceMM.IOWriteCall 0x1000 0x10 5 7 4;
                  AddressSpaceMM.IOReadCall 0x1000 0x10 15 4] |})
  /\ Forall call_in_bounds
       [AddressSpaceMM.IOWriteCall 0x1000 0x10 5 7 4;
        AddressSpaceMM.IOReadCall 0x1000 0x10 15 4].
Proof.
  assert (Hrun : calls_mm [MMAddIORegion 0x1000 0x10 io_echo; MMWriteMem 0x1005 7 4;
                           MMReadMem 0x100F 4] (AddressSpaceMM.fresh [])
                 = Ok (tt, {| AddressSpaceMM.super := AddressSpace.fresh;
                              AddressSpaceMM.m_mmapRegions :=
                                <[0x100F := region 0x1000 0x10]> ∅;
                              AddressSpaceMM.peripherals := [7];
                              AddressSpaceMM.io_calls :=
                                [AddressSpaceMM.IOWriteCall 0x1000 0x10 5 7 4;
                                 AddressSpaceMM.IOReadCall 0x1000 0x10 15 4] |}))
    by (vm_compute; reflexivity).
  split; [exact Hrun |].
  exact (proj1 (functor_offsets_in_bounds _ _ _ Hrun)).
Defined.

(** ** [reset] of an [AddressSpaceMM] *)

Section ResetWithRegions.
Context {P : Type}.
Import AddressSpaceMM.

Implicit Types (st : State P) (regions : gmap Z (MMapValue P)).

Lemma forwarded_calls_app regions (l1 l2 : list (Z * Z)) :
  forwarded_calls regions (l1 ++ l2)
  = forwarded_calls regions l1 ++ forwarded_calls regions l2.
Proof. apply omap_app. Qed.

Lemma forwarded_effect_app regions (l1 l2 : list (Z * Z)) (p : P) :
  forwarded_effect regions (l1 ++ l2) p
  = forwarded_effect regions l2 (forwarded_effect regions l1 p).
Proof. apply foldl_app. Qed.

Lemma reset_entries_spec (entries : list (Z * Z)) : forall st,
  NoDup entries.*1 ->
  Forall (fun kv : Z * Z => 0 <= kv.1 < 2 ^ 32 /\ 0 <= kv.2 < 256) entries ->
  exists st',
    for_each entries (fun memData => writeMem memData.1 memData.2 1) st = Ok (tt, st')
    /\ m_mmapRegions st' = m_mmapRegions st
    /\ m_initializationMemories (super st') = m_initializationMemories (super st)
    /\ (forall x, m_data (super st') !! x
          = match findMMapRegion (m_mmapRegions st) x with
            | Some _ => m_data (super st) !! x
            | None => (list_to_map entries ∪ m_data (super st)) !! x
            end)
    /\ io_calls st' = io_calls st ++ forwarded_calls (m_mmapRegions st) entries
    /\ peripherals st' = forwarded_effect (m_mmapRegions st) entries (peripherals st).
Proof.
  induction entries as [| [k b] rest IH]; intros st Hnd Hwf; cbn [for_each].
  - exists st. (split; [| split; [| split; [| split; [| split]]]]); try reflexivity.
    + intros x. cbn [list_to_map foldr]. rewrite (left_id_L ∅ (∪)).
      now destruct (findMMapRegion _ x).
    + cbn. now rewrite app_nil_r.
  - cbn [fmap list_fmap fst] in Hnd. apply NoDup_cons in Hnd as [Hfresh Hnd].
    apply Forall_cons in Hwf as [[Hk Hb] Hwf]. cbn [fst snd] in *.
    unfold bind, writeMem at 1.
    unfold forwarded_calls, forwarded_effect. cbn [omap list_omap foldl fst snd].
    fold (forwarded_calls (m_mmapRegions st) rest).
    destruct (findMMapRegion (m_mmapRegions st) k) as [r |] eqn:Hfind.
    + unfold call_ioWrite.
      match goal with |- context [for_each _ _ ?st1] =>
        destruct (IH st1 Hnd Hwf) as (st' & Hrun & Hreg & Hmem & Hdata & Hcalls & Hper) end.
      cbn [super m_mmapRegions peripherals io_calls] in *.
      exists st'. rewrite Hrun.
      (split; [| split; [| split; [| split; [| split]]]]); try assumption;
        try reflexivity.
      * intros x. rewrite Hdata. destruct (findMMapRegion _ x) eqn:Hx; [reflexivity |].
        assert (x <> k) by congruence.
        rewrite list_to_map_cons, !lookup_union, lookup_insert_ne by congruence.
        reflexivity.
      * rewrite Hcalls, <- app_assoc. cbn [app].
        now rewrite (to_u32_small k), (to_u32_small b), (to_u32_small 1) by lia.
      * rewrite Hper. unfold forwarded_effect.
        now rewrite (to_u32_small k), (to_u32_small b), (to_u32_small 1) by lia.
    + unfold on_super. rewrite AddressSpaceFacts.writeMem_eq.
      match goal with |- context [for_each _ _ ?st1] =>
        destruct (IH st1 Hnd Hwf) as (st' & Hrun & Hreg & Hmem & Hdata & Hcalls & Hper) end.
      cbn [super m_mmapRegions peripherals io_calls AddressSpace.set_m_data
           m_data m_initializationMemories] in *.
      exists st'. rewrite Hrun.
      (split; [| split; [| split; [| split; [| split]]]]); try assumption;
        try reflexivity.
      intros x. rewrite Hdata.
      change (Z.to_nat 1) with 1%nat. cbn [write_bytes].
      rewrite Z.add_0_r, to_u32_idem, (to_u32_small k), (to_u32_small b) by lia.
      change 255 with (Z.ones 8). rewrite Z.land_ones, Z.mod_small by lia.
      destruct (findMMapRegion _ x) eqn:Hx.
      * assert (x <> k) by congruence. now rewrite lookup_insert_ne by congruence.
      * rewrite list_to_map_cons.
        rewrite <- insert_union_r by now apply not_elem_of_list_to_map_1.
        now rewrite insert_union_l.
Qed.

Lemma reset_segments_spec order (mems : list AddressSpace) : forall st,
  Forall (fun mem => store_wf (m_data mem)) mems ->
  Forall (fun mem => order (m_data mem) ≡ₚ map_to_list (m_data mem)) mems ->
  exists st',
    for_each mems
      (fun mem => for_each (order (m_data mem))
                    (fun memData => writeMem memData.1 memData.2 1)) st
    = Ok (tt, st')
    /\ m_mmapRegions st' = m_mmapRegions st
    /\ m_initializationMemories (super st') = m_initializationMemories (super st)
    /\ (forall x, m_data (super st') !! x
          = match findMMapRegion (m_mmapRegions st) x with
            | Some _ => m_data (super st) !! x
            | None => foldl (fun acc mem => m_data mem ∪ acc) (m_data (super st)) mems !! x
            end)
    /\ io_calls st'
       = io_calls st ++ forwarded_calls (m_mmapRegions st) (replayed order mems)
    /\ peripherals st'
       = forwarded_effect (m_mmapRegions st) (replayed order mems) (peripherals st).
Proof.
  induction mems as [| mem rest IH]; intros st Hwf Horder;
    cbn [for_each foldl replayed map concat].
  - exists st. (split; [| split; [| split; [| split; [| split]]]]); try reflexivity.
    + intros x. now destruct (findMMapRegion _ x).
    + cbn. now rewrite app_nil_r.
  - apply Forall_cons in Hwf as [Hmem Hrest].
    apply Forall_cons in Horder as [Hperm Hperms].
    destruct (reset_entries_spec (order (m_data mem)) st)
      as (st1 & Hrun1 & Hreg1 & Hmem1 & Hdata1 & Hcalls1 & Hper1).
    { rewrite Hperm. apply NoDup_fst_map_to_list. }
    { apply Forall_forall. intros [k v] Hin. rewrite Hperm in Hin.
      apply elem_of_map_to_list in Hin. now apply Hmem in Hin. }
    destruct (IH st1 Hrest Hperms) as (st' & Hrun & Hreg & Hmems & Hdata & Hcalls & Hper).
    exists st'. unfold bind. rewrite Hrun1, Hrun.
    rewrite Hreg1 in Hreg, Hdata, Hcalls, Hper. rewrite Hmem1 in Hmems.
    rewrite (list_to_map_proper _ (map_to_list (m_data mem))) in Hdata1;
      [| rewrite Hperm; apply NoDup_fst_map_to_list | exact Hperm].
    rewrite list_to_map_to_list in Hdata1.
    (split; [| split; [| split; [| split; [| split]]]]); try assumption;
      try reflexivity.
    + intros x. rewrite Hdata. specialize (Hdata1 x).
      destruct (findMMapRegion _ x); [exact Hdata1 |].
      rewrite !StoreFacts.foldl_union_lookup. now rewrite Hdata1.
    + fold (replayed order rest).
      now rewrite Hcalls, Hcalls1, forwarded_calls_app, app_assoc.
    + fold (replayed order rest).
      now rewrite Hper, Hper1, forwarded_effect_app.
Qed.

(** X13. [reset] of an [AddressSpaceMM] whose initialization memories hold
    bytes at 32-bit addresses (as their C++ types say), for every order in
    which the loop may visit the elements of each memory.  It succeeds and
    keeps the regions and the initialization memories.  Each byte whose
    address [findMMapRegion] finds in a region goes to the functor of that
    region and not to the store: the calls made are exactly one [ioWrite]
    for each such byte, in the order of the visit, with the offset of the
    address in the region, the byte, and the size one, and the peripherals
    are what these calls make of them.  Afterwards the store has no entry at
    an address found in a region, and at every other address it holds the
    byte of the last initialization memory that has one. *)
Theorem reset_skips_io_regions (order : gmap Z Z -> list (Z * Z)) st :
  segments_wf (super st) ->
  Forall (fun mem => order (m_data mem) ≡ₚ map_to_list (m_data mem))
         (m_initializationMemories (super st)) ->
  exists st',
    reset order st = Ok (tt, st')
    /\ m_mmapRegions st' = m_mmapRegions st
    /\ m_initializationMemories (super st') = m_initializationMemories (super st)
    /\ (forall x, m_data (super st') !! x
          = match findMMapRegion (m_mmapRegions st) x with
            | Some _ => None
            | None => last_segment_byte (m_initializationMemories (super st)) x
            end)
    /\ io_calls st'
       = io_calls st
         ++ forwarded_calls (m_mmapRegions st)
              (replayed order (m_initializationMemories (super st)))
    /\ peripherals st'
       = forwarded_effect (m_mmapRegions st)
           (replayed order (m_initializationMemories (super st))) (peripherals st).
Proof.
  intros Hwf Horder. unfold reset, bind, on_super, AddressSpace.data_clear, get.
  cbn [super AddressSpace.set_m_data m_initializationMemories].
  match goal with |- context [for_each _ _ ?st0] =>
    destruct (reset_segments_spec order (m_initializationMemories (super st)) st0
                Hwf Horder)
      as (st' & Hrun & Hreg & Hmems & Hdata & Hcalls & Hper) end.
  cbn [super m_mmapRegions peripherals io_calls m_data m_initializationMemories] in *.
  exists st'. rewrite Hrun.
  (split; [| split; [| split; [| split; [| split]]]]); try assumption;
    try reflexivity.
  intros x. rewrite Hdata. destruct (findMMapRegion _ x).
  - apply lookup_empty.
  - apply (StoreFacts.segments_union_lookup (m_initializationMemories (super st)) x).
Qed.

End ResetWithRegions.

(** The [reset] of [segment_across_region] with the elements visited in the
    order of their addresses and in the opposite order: the store is the
    same, the calls of the functor come in the order of the visit, and the
    peripherals, which keep the last value first, differ. *)
Lemma reset_of_segment_across_region :
  AddressSpaceMM.reset in_key_order segment_across_region
  = Ok (tt, {| AddressSpaceMM.super :=
                 {| m_data := <[0x0FFF := 0xBB]> ∅;
                    m_initializationMemories :=
                      m_initializationMemories
                        (AddressSpaceMM.super segment_across_region) |};
               AddressSpaceMM.m_mmapRegions := <[0x100F := region 0x1000 0x10]> ∅;
               AddressSpaceMM.peripherals := [0xCC; 0xAA];
               AddressSpaceMM.io_calls :=
                 [AddressSpaceMM.IOWriteCall 0x1000 0x10 0 0xAA 1;
                  AddressSpaceMM.IOWriteCall 0x1000 0x10 1 0xCC 1] |})
  /\ AddressSpaceMM.reset (fun m => reverse (in_key_order m)) segment_across_region
     = Ok (tt, {| AddressSpaceMM.super :=
                    {| m_data := <[0x0FFF := 0xBB]> ∅;
                       m_initializationMemories :=
                         m_initializationMemories
                           (AddressSpaceMM.super segment_across_region) |};
                  AddressSpaceMM.m_mmapRegions := <[0x100F := region 0x1000 0x10]> ∅;
                  AddressSpaceMM.peripherals := [0xAA; 0xCC];
                  AddressSpaceMM.io_calls :=
                    [AddressSpaceMM.IOWriteCall 0x1000 0x10 1 0xCC 1;
                     AddressSpaceMM.IOWriteCall 0x1000 0x10 0 0xAA 1] |}).
Proof. split; vm_compute; reflexivity. Qed.

(** * The order of the subcomponents: lemmas *)

(** ** Iteration over an [std::map] *)

#[global] Instance key_le_trans {V : Type} : Transitive (@key_le V).
Proof. intros a b c. unfold key_le. lia. Qed.

#[global] Instance key_le_total {V : Type} : Total (@key_le V).
Proof. intros a b. unfold key_le. lia. Qed.

Lemma in_key_order_Permutation {V : Type} (m : gmap Z V) :
  in_key_order m ≡ₚ map_to_list m.
Proof. apply merge_sort_Permutation. Qed.

Lemma elem_of_in_key_order {V : Type} (m : gmap Z V) k v :
  (k, v) ∈ in_key_order m <-> m !! k = Some v.
Proof. rewrite in_key_order_Permutation. apply elem_of_map_to_list. Qed.

Lemma in_key_order_sorted {V : Type} (m : gmap Z V) :
  StronglySorted key_le (in_key_order m).
Proof. apply StronglySorted_merge_sort; apply _. Qed.

Lemma reverseLookup_loop_spec {V : Type} `{EqDecision V} (items : list (Z * V)) v :
  StronglySorted key_le items ->
  ((reverseLookup_loop items v, v) ∈ items
   /\ forall k, (k, v) ∈ items -> reverseLookup_loop items v <= k)
  \/ (reverseLookup_loop items v = nullptr /\ forall k, (k, v) ∉ items).
Proof.
  induction items as [| [k0 v0] rest IH]; intros Hsorted; cbn [reverseLookup_loop].
  - right. split; [reflexivity |]. intros k Hin. now apply elem_of_nil in Hin.
  - apply StronglySorted_inv in Hsorted as [Hrest Hle]. cbn [fst snd].
    destruct (decide (v0 = v)) as [-> | Hne].
    + left. split; [apply elem_of_cons; now left |].
      intros k Hin. apply elem_of_cons in Hin as [[= ->] | Hin]; [lia |].
      rewrite Forall_forall in Hle. exact (Hle _ Hin).
    + destruct (IH Hrest) as [[Hin Hleast] | [Hnull Hnone]].
      * left. split; [apply elem_of_cons; now right |].
        intros k Hk. apply elem_of_cons in Hk as [[= -> ->] | Hk]; [easy |].
        now apply Hleast.
      * right. split; [exact Hnull |].
        intros k Hk. apply elem_of_cons in Hk as [[= -> ->] | Hk]; [easy |].
        exact (Hnone k Hk).
Qed.

(** X14. [reverseLookup] returns the least key that the map gives the
    value [v], and [nullptr] when no key has this value; so for a value
    held by one key only, it inverts the lookup. *)
Theorem reverseLookup_least_key {V : Type} `{EqDecision V} (m : gmap Z V) (v : V) :
  ((m !! reverseLookup m v = Some v
    /\ forall k, m !! k = Some v -> reverseLookup m v <= k)
   \/ (reverseLookup m v = nullptr /\ forall k, m !! k <> Some v))
  /\ forall k, m !! k = Some v ->
               (forall k', m !! k' = Some v -> k' = k) ->
               reverseLookup m v = k.
Proof.
  unfold reverseLookup.
  destruct (reverseLookup_loop_spec (in_key_order m) v (in_key_order_sorted m))
    as [[Hin Hleast] | [Hnull Hnone]].
  - apply elem_of_in_key_order in Hin. split.
    + left. split; [exact Hin |].
      intros k Hk. apply Hleast. now apply elem_of_in_key_order.
    + intros k _ Huniq. now apply Huniq.
  - split.
    + right. split; [exact Hnull |].
      intros k Hk. apply (Hnone k). now apply elem_of_in_key_order.
    + intros k Hk _. exfalso. apply (Hnone k). now apply elem_of_in_key_order.
Qed.

(** ** The depth-first traversal *)

Lemma elem_of_white visited k : k ∈ white visited <-> visited !! k = Some false.
Proof.
  unfold white. rewrite elem_of_dom. unfold is_Some. split.
  - intros [b Hb]. apply map_lookup_filter_Some in Hb as [Hb Hf].
    cbn in Hf. now subst.
  - intros Hk. exists false. apply map_lookup_filter_Some. now split.
Qed.

Lemma white_size_le visited : (size (white visited) <= size visited)%nat.
Proof.
  unfold white. rewrite size_dom. apply map_subseteq_size, map_filter_subseteq.
Qed.

Lemma white_insert_true visited c :
  visited !! c = Some false ->
  (size (white (<[c := true]> visited)) < size (white visited))%nat.
Proof.
  intros Hc. apply subset_size. split.
  - intros k. rewrite !elem_of_white, lookup_insert_Some.
    intros [[_ [=]] | [_ Hk]]. exact Hk.
  - intros Hsub. specialize (Hsub c). rewrite !elem_of_white, lookup_insert_eq in Hsub.
    now specialize (Hsub Hc).
Qed.

Lemma marked_nil visited : marked visited [] visited.
Proof.
  split; [constructor |]. split.
  - intros k Hk. now apply elem_of_nil in Hk.
  - intros k. destruct (decide (k ∈ [])) as [Hk |]; [| reflexivity].
    now apply elem_of_nil in Hk.
Qed.

Lemma marked_unvisited_before v new v' k :
  marked v new v' -> v' !! k = Some false -> v !! k = Some false.
Proof.
  intros (_ & _ & Hlook). rewrite Hlook.
  destruct (decide (k ∈ new)); [discriminate | auto].
Qed.

Lemma marked_white_subseteq v new v' : marked v new v' -> white v' ⊆ white v.
Proof.
  intros Hm k. rewrite !elem_of_white. apply (marked_unvisited_before _ _ _ _ Hm).
Qed.

Lemma marked_visited_after v new v' k :
  marked v new v' -> v !! k <> Some false -> v' !! k <> Some false.
Proof. intros Hm Hk Hk'. apply Hk. exact (marked_unvisited_before _ _ _ _ Hm Hk'). Qed.

Lemma marked_is_Some v new v' k :
  marked v new v' -> is_Some (v !! k) -> is_Some (v' !! k).
Proof.
  intros (_ & _ & Hlook) Hk. rewrite Hlook.
  destruct (decide (k ∈ new)); [now exists true | exact Hk].
Qed.

Lemma marked_app v n1 v1 n2 v2 :
  marked v n1 v1 -> marked v1 n2 v2 -> marked v (n2 ++ n1) v2.
Proof.
  intros (Hnd1 & Hw1 & Hl1) (Hnd2 & Hw2 & Hl2). split; [| split].
  - apply NoDup_app. split; [exact Hnd2 |]. split; [| exact Hnd1].
    intros k Hk2 Hk1. specialize (Hw2 k Hk2). rewrite Hl1 in Hw2.
    now rewrite decide_True in Hw2 by exact Hk1.
  - intros k Hk. apply elem_of_app in Hk as [Hk | Hk]; [| now apply Hw1].
    specialize (Hw2 k Hk). rewrite Hl1 in Hw2.
    destruct (decide (k ∈ n1)); [discriminate | exact Hw2].
  - intros k. rewrite Hl2, Hl1.
    destruct (decide (k ∈ n2)) as [Hk2 | Hk2].
    + now rewrite decide_True by (apply elem_of_app; now left).
    + destruct (decide (k ∈ n1)) as [Hk1 | Hk1].
      * now rewrite decide_True by (apply elem_of_app; now right).
      * rewrite decide_False; [reflexivity |].
        intros Hk. apply elem_of_app in Hk as [Hk | Hk]; contradiction.
Qed.

Lemma marked_cons v c new v' :
  v !! c = Some false -> marked (<[c := true]> v) new v' -> marked v (c :: new) v'.
Proof.
  intros Hc (Hnd & Hw & Hl). split; [| split].
  - apply NoDup_cons. split; [| exact Hnd].
    intros Hin. specialize (Hw c Hin). now rewrite lookup_insert_eq in Hw.
  - intros k Hk. apply elem_of_cons in Hk as [-> | Hk]; [exact Hc |].
    specialize (Hw k Hk). apply lookup_insert_Some in Hw as [[_ [=]] | [_ Hw]].
    exact Hw.
  - intros k. rewrite Hl.
    destruct (decide (k ∈ new)) as [Hk | Hk].
    + now rewrite decide_True by (apply elem_of_cons; now right).
    + destruct (decide (k = c)) as [-> | Hne].
      * rewrite lookup_insert_eq. now rewrite decide_True by (apply elem_of_cons; now left).
      * rewrite lookup_insert_ne by congruence. rewrite decide_False; [reflexivity |].
        intros Hin. apply elem_of_cons in Hin as [-> | Hin]; contradiction.
Qed.

Lemma before_app_l l0 l a b : before l a b -> before (l0 ++ l) a b.
Proof.
  intros (l1 & l2 & l3 & ->). exists (l0 ++ l1), l2, l3. now rewrite <- app_assoc.
Qed.

Lemma before_app_lr l1 l2 a b : a ∈ l1 -> b ∈ l2 -> before (l1 ++ l2) a b.
Proof.
  intros Ha Hb. apply list_elem_of_split in Ha as (p & q & ->).
  apply list_elem_of_split in Hb as (r & t & ->).
  exists p, (q ++ r), t. rewrite <- !app_assoc. reflexivity.
Qed.

Section TraversalFacts.
Context (getOutputComponents : Z -> list Z) (K : Z -> Prop).

Import ComponentGraphic.

Lemma visit_unvisited_spec visit n :
  visit_spec getOutputComponents K visit n ->
  forall ccs v s,
    (size (white v) <= n)%nat ->
    (forall k, v !! k = Some false -> K k) ->
    exists new v',
      visit_unvisited visit ccs v s = Some (v', new ++ s)
      /\ traversed getOutputComponents K ccs v s new v'
      /\ forall cc, cc ∈ ccs -> v' !! cc <> Some false.
Proof.
  intros Hvisit.
  induction ccs as [| cc rest IH]; intros v s Hsize HK;
    cbn [visit_unvisited].
  - exists [], v. split; [reflexivity |]. split.
    + split; [apply marked_nil |].
      split; [| split]; [intros k k' Hin | intros k Hin | intros k k' Hin];
        now apply elem_of_nil in Hin.
    + intros cc Hin. now apply elem_of_nil in Hin.
  - destruct (decide (v !! cc = Some false)) as [Hcc | Hcc].
    + destruct (Hvisit cc v s Hcc Hsize HK)
        as (n1 & v1 & Hrun1 & Hin1 & Hm1 & Hcl1 & Hre1 & Hor1).
      rewrite Hrun1.
      destruct (IH v1 (n1 ++ s))
        as (n2 & v2 & Hrun2 & (Hm2 & Hcl2 & Hre2 & Hor2) & Hnw2).
      { pose proof (marked_white_subseteq _ _ _ Hm1) as Hsub.
        apply subseteq_size in Hsub. lia. }
      { intros k Hk. apply HK. exact (marked_unvisited_before _ _ _ _ Hm1 Hk). }
      exists (n2 ++ n1), v2. rewrite Hrun2, <- app_assoc.
      split; [reflexivity |]. split; [split; [| split; [| split]] |].
      * exact (marked_app _ _ _ _ _ Hm1 Hm2).
      * intros k k' Hk Hk'. apply elem_of_app in Hk as [Hk | Hk].
        -- exact (Hcl2 k k' Hk Hk').
        -- apply (marked_visited_after _ _ _ _ Hm2). exact (Hcl1 k k' Hk Hk').
      * intros k Hk. apply elem_of_app in Hk as [Hk | Hk].
        -- destruct (Hre2 k Hk) as (r & Hr & Hpath). exists r.
           split; [apply elem_of_cons; now right | exact Hpath].
        -- destruct (Hre1 k Hk) as (r & Hr & Hpath).
           apply list_elem_of_singleton in Hr as ->. exists cc.
           split; [apply elem_of_cons; now left | exact Hpath].
      * intros k k' Hk Hk' Hsome. rewrite <- app_assoc.
        apply elem_of_app in Hk as [Hk | Hk].
        -- destruct (Hor2 k k' Hk Hk') as [Hb | [[Htrue Hnot] | Hcyc]].
           { exact (marked_is_Some _ _ _ _ Hm1 Hsome). }
           ++ left. exact Hb.
           ++ right. left. apply not_elem_of_app in Hnot as [Hn1 Hs].
              split; [| exact Hs]. destruct Hm1 as (_ & _ & Hl1).
              rewrite Hl1 in Htrue.
              destruct (decide (k' ∈ n1)); [contradiction | exact Htrue].
           ++ right. right. exact Hcyc.
        -- destruct (Hor1 k k' Hk Hk' Hsome) as [Hb | [Hgrey | Hcyc]].
           ++ left. now apply before_app_l.
           ++ right. left. exact Hgrey.
           ++ right. right. exact Hcyc.
      * intros cc' Hin. apply elem_of_cons in Hin as [-> | Hin].
        -- apply (marked_visited_after _ _ _ _ Hm2).
           destruct Hm1 as (_ & _ & Hl1). rewrite Hl1.
           now rewrite decide_True by exact Hin1.
        -- now apply Hnw2.
    + destruct (IH v s Hsize HK) as (new & v' & Hrun & (Hm & Hcl & Hre & Hor) & Hnw).
      exists new, v'. split; [exact Hrun |].
      split; [split; [| split; [| split]] |]; try assumption.
      * intros k Hk. destruct (Hre k Hk) as (r & Hr & Hpath). exists r.
        split; [apply elem_of_cons; now right | exact Hpath].
      * intros cc' Hin. apply elem_of_cons in Hin as [-> | Hin]; [| now apply Hnw].
        now apply (marked_visited_after _ _ _ _ Hm).
Qed.

Lemma rtc_edge_source r k : rtc (edge_in getOutputComponents K) r k -> K k -> K r.
Proof. intros Hpath Hk. destruct Hpath as [| r y k [Hr _] _]; assumption. Qed.

Lemma orderSubcomponentsUtil_spec fuel :
  visit_spec getOutputComponents K (orderSubcomponentsUtil getOutputComponents fuel) fuel.
Proof.
  induction fuel as [| fuel IH]; intros c v s Hc Hsize HK;
    pose proof (white_insert_true v c Hc) as Hlt; [lia |].
  cbn [orderSubcomponentsUtil].
  destruct (visit_unvisited_spec _ fuel IH (getOutputComponents c) (<[c := true]> v) s)
    as (n' & v' & Hrun & (Hm & Hcl & Hre & Hor) & Hnw).
  { lia. }
  { intros k Hk. apply HK. apply lookup_insert_Some in Hk as [[_ [=]] | [_ Hk]].
    exact Hk. }
  exists (c :: n'), v'. rewrite Hrun. split; [reflexivity |].
  split; [apply elem_of_cons; now left |].
  assert (Hm' : marked v (c :: n') v') by now apply marked_cons.
  assert (HKnew : forall k, k ∈ c :: n' -> K k).
  { intros k Hk. apply HK. destruct Hm' as (_ & Hw & _). now apply Hw. }
  assert (Hreach : forall k, k ∈ c :: n' -> rtc (edge_in getOutputComponents K) c k).
  { intros k Hk. pose proof (HKnew k Hk) as HKk.
    apply elem_of_cons in Hk as [-> | Hk]; [apply rtc_refl |].
    destruct (Hre k Hk) as (r & Hr & Hpath).
    apply (rtc_l _ _ r); [| exact Hpath].
    split; [now apply HK |]. split; [exact (rtc_edge_source r k Hpath HKk) | exact Hr]. }
  split; [exact Hm' |]. split; [| split].
  - intros k k' Hk Hk'. apply elem_of_cons in Hk as [-> | Hk];
      [now apply Hnw | exact (Hcl k k' Hk Hk')].
  - intros k Hk. exists c. split; [now apply list_elem_of_singleton | now apply Hreach].
  - intros k k' Hk Hk' Hsome.
    destruct (decide (k' = c)) as [-> | Hne].
    { right. right. eapply tc_rtc_l; [apply Hreach; exact Hk |]. apply tc_once.
      split; [now apply HKnew |]. split; [now apply HK | exact Hk']. }
    apply elem_of_cons in Hk as [-> | Hk].
    + pose proof (Hnw k' Hk') as Hnw'. destruct Hm as (_ & _ & Hl). rewrite Hl in Hnw'.
      destruct (decide (k' ∈ n')) as [Hin | Hnin].
      * left. apply (before_app_lr [c] (n' ++ s));
          [now apply list_elem_of_singleton | apply elem_of_app; now left].
      * rewrite lookup_insert_ne in Hnw' by congruence.
        destruct Hsome as [[] Hb]; [| congruence].
        destruct (decide (k' ∈ s)) as [Hs | Hs].
        -- left. apply (before_app_lr [c] (n' ++ s));
             [now apply list_elem_of_singleton | apply elem_of_app; now right].
        -- right. left. now split.
    + destruct (Hor k k' Hk Hk') as [Hb | [[Htrue Hnot] | Hcyc]].
      { now rewrite lookup_insert_ne by congruence. }
      * left. exact (before_app_l [c] _ _ _ Hb).
      * right. left. rewrite lookup_insert_ne in Htrue by congruence. now split.
      * right. right. exact Hcyc.
Qed.

End TraversalFacts.

(** ** [orderSubcomponents] *)

Section OrderSubcomponents.
Context (getOutputComponents : Z -> list Z).
Import ComponentGraphic.

Lemma foldl_unvisited_lookup (items : list (Z * Z)) c : forall acc : gmap Z bool,
  foldl (fun visited cpt => <[cpt.2 := false]> visited) acc items !! c
  = if decide (c ∈ items.*2) then Some false else acc !! c.
Proof.
  induction items as [| [g c0] rest IH]; intros acc; cbn [foldl fmap list_fmap snd].
  - rewrite decide_False; [reflexivity | apply not_elem_of_nil].
  - rewrite IH. destruct (decide (c ∈ rest.*2)) as [Hin | Hnin].
    + now rewrite decide_True by (apply elem_of_cons; now right).
    + destruct (decide (c = c0)) as [-> | Hne].
      * rewrite lookup_insert_eq.
        now rewrite decide_True by (apply elem_of_cons; now left).
      * rewrite lookup_insert_ne by congruence.
        rewrite decide_False; [reflexivity |].
        intros Hin. apply elem_of_cons in Hin as [-> | Hin]; contradiction.
Qed.

Lemma elem_of_subcomponents (m : gmap Z Z) c :
  c ∈ (in_key_order m).*2 <-> is_subcomponent m c.
Proof.
  rewrite list_elem_of_fmap. split.
  - intros ([g c'] & -> & Hin). exists g. now apply elem_of_in_key_order.
  - intros [g Hg]. exists (g, c). split; [reflexivity | now apply elem_of_in_key_order].
Qed.

Lemma all_unvisited_lookup (m : gmap Z Z) c b :
  all_unvisited m !! c = Some b <-> b = false /\ is_subcomponent m c.
Proof.
  unfold all_unvisited. rewrite foldl_unvisited_lookup, lookup_empty.
  destruct (decide (c ∈ (in_key_order m).*2)) as [Hin | Hnin].
  - apply elem_of_subcomponents in Hin.
    split; [intros [= <-]; now split | now intros [-> _]].
  - split; [discriminate |]. intros [_ Hs]. now apply elem_of_subcomponents in Hs.
Qed.

Lemma orderSubcomponents_stack_traversed (m : gmap Z Z) :
  exists stack v',
    orderSubcomponents_stack getOutputComponents m = Some stack
    /\ traversed getOutputComponents (is_subcomponent m)
         (in_key_order (all_unvisited m)).*1 (all_unvisited m) [] stack v'
    /\ forall c, is_subcomponent m c -> v' !! c <> Some false.
Proof.
  unfold orderSubcomponents_stack.
  destruct (visit_unvisited_spec getOutputComponents (is_subcomponent m) _
              (size (all_unvisited m))
              (orderSubcomponentsUtil_spec getOutputComponents (is_subcomponent m) _)
              (in_key_order (all_unvisited m)).*1 (all_unvisited m) [])
    as (new & v' & Hrun & Htr & Hnw).
  { apply white_size_le. }
  { intros k Hk. now apply all_unvisited_lookup in Hk. }
  cbn zeta. rewrite Hrun, app_nil_r. exists new, v'.
  split; [reflexivity |]. split; [exact Htr |].
  intros c Hc. apply Hnw. apply list_elem_of_fmap. exists (c, false).
  split; [reflexivity |]. apply elem_of_in_key_order, all_unvisited_lookup. now split.
Qed.

Lemma traversed_all_subcomponents (m : gmap Z Z) roots stack v' :
  traversed getOutputComponents (is_subcomponent m) roots (all_unvisited m) [] stack v' ->
  (forall c, is_subcomponent m c -> v' !! c <> Some false) ->
  forall c, c ∈ stack <-> is_subcomponent m c.
Proof.
  intros ((_ & Hw & Hl) & _) Hnw c. split.
  - intros Hin. now apply Hw, all_unvisited_lookup in Hin.
  - intros Hc. specialize (Hnw c Hc). rewrite Hl in Hnw.
    destruct (decide (c ∈ stack)) as [Hin | _]; [exact Hin |].
    exfalso. apply Hnw. apply all_unvisited_lookup. now split.
Qed.

(** X15. The traversal of [orderSubcomponents] ends for every graph of
    outputs, with cycles or without, and its stack holds each component
    that has a graphic exactly once.  A component comes before each of its
    outputs among the subcomponents, unless that output lies on a cycle
    of outputs within the subcomponents; so when there is no such cycle
    the stack is a topological order. *)
Theorem orderSubcomponents_stack_order (m : gmap Z Z) :
  exists stack,
    orderSubcomponents_stack getOutputComponents m = Some stack
    /\ NoDup stack
    /\ (forall c, c ∈ stack <-> is_subcomponent m c)
    /\ (forall c cc,
          is_subcomponent m c -> is_subcomponent m cc -> cc ∈ getOutputComponents c ->
          before stack c cc
          \/ tc (edge_in getOutputComponents (is_subcomponent m)) cc cc)
    /\ (acyclic_in getOutputComponents (is_subcomponent m) ->
        forall c cc,
          is_subcomponent m c -> is_subcomponent m cc -> cc ∈ getOutputComponents c ->
          before stack c cc).
Proof.
  destruct (orderSubcomponents_stack_traversed m) as (stack & v' & Hrun & Htr & Hnw).
  pose proof (traversed_all_subcomponents m _ stack v' Htr Hnw) as Helems.
  destruct Htr as ((Hnd & _) & _ & _ & Hor).
  assert (Horder : forall c cc,
            is_subcomponent m c -> is_subcomponent m cc -> cc ∈ getOutputComponents c ->
            before stack c cc
            \/ tc (edge_in getOutputComponents (is_subcomponent m)) cc cc).
  { intros c cc Hc Hcc Hout.
    destruct (Hor c cc) as [Hb | [[Htrue _] | Hcyc]].
    - now apply Helems.
    - exact Hout.
    - exists false. apply all_unvisited_lookup. now split.
    - left. now rewrite app_nil_r in Hb.
    - now apply all_unvisited_lookup in Htrue as [[=] _].
    - now right. }
  exists stack. split; [exact Hrun |]. split; [exact Hnd |]. split; [exact Helems |].
  split; [exact Horder |].
  intros Hacyclic c cc Hc Hcc Hout.
  destruct (Horder c cc Hc Hcc Hout) as [Hb | Hcyc]; [exact Hb |].
  now apply Hacyclic in Hcyc.
Qed.

Lemma position_loop_ok (m : gmap Z Z) (stack : list Z) :
  m !! nullptr = None ->
  (forall c, c ∈ stack -> is_subcomponent m c) ->
  exists gs, position_loop m stack = Ok gs
             /\ Forall2 (fun g c => m !! g = Some c) gs stack.
Proof.
  intros Hnull. induction stack as [| c rest IH]; intros Hsub; cbn [position_loop].
  - exists []. split; [reflexivity | constructor].
  - destruct IH as (gs & Hrun & Hall).
    { intros c' Hin. apply Hsub, elem_of_cons. now right. }
    assert (Hg : m !! reverseLookup m c = Some c).
    { unfold reverseLookup.
      destruct (reverseLookup_loop_spec (in_key_order m) c (in_key_order_sorted m))
        as [[Hin _] | [_ Hnone]].
      - now apply elem_of_in_key_order.
      - destruct (Hsub c) as [g Hg]; [apply elem_of_cons; now left |].
        exfalso. apply (Hnone g). now apply elem_of_in_key_order. }
    cbn zeta. destruct (decide (reverseLookup m c = nullptr)) as [Heq | Hne].
    + rewrite Heq in Hg. congruence.
    + rewrite Hrun. eexists. split; [reflexivity |]. now constructor.
Qed.

(** X16. When no graphic is stored at the null address, the assertion of
    [orderSubcomponents] that each component of the stack has a graphic
    never fails: the graphics are positioned in the order of the stack,
    each one a graphic of its component. *)
Theorem orderSubcomponents_finds_graphics (m : gmap Z Z) :
  m !! nullptr = None ->
  exists stack gs,
    orderSubcomponents_stack getOutputComponents m = Some stack
    /\ orderSubcomponents getOutputComponents m = Some (Ok gs)
    /\ Forall2 (fun g c => m !! g = Some c) gs stack.
Proof.
  intros Hnull. unfold orderSubcomponents.
  destruct (orderSubcomponents_stack_traversed m) as (stack & v' & Hrun & Htr & Hnw).
  pose proof (traversed_all_subcomponents m _ stack v' Htr Hnw) as Helems.
  destruct (position_loop_ok m stack Hnull) as (gs & Hpos & Hall).
  { intros c Hc. now apply Helems. }
  exists stack, gs. rewrite Hrun, Hpos. auto.
Qed.

End OrderSubcomponents.

Lemma chain_outputs_acyclic :
  ComponentGraphic.acyclic_in chain_outputs
    (ComponentGraphic.is_subcomponent chain_subcomponents).
Proof.
  assert (Hdown : forall a b,
            tc (ComponentGraphic.edge_in chain_outputs
                  (ComponentGraphic.is_subcomponent chain_subcomponents)) a b -> b < a).
  { intros a b Hpath. induction Hpath as [a b Hedge | a b c Hedge _ IH].
    - destruct Hedge as (_ & _ & Hout). unfold chain_outputs in Hout.
      repeat destruct (decide _) as [-> | _] in Hout;
        repeat (apply elem_of_cons in Hout as [-> | Hout]; [lia |]);
        now apply elem_of_nil in Hout.
    - enough (b < a) by lia.
      destruct Hedge as (_ & _ & Hout). unfold chain_outputs in Hout.
      repeat destruct (decide _) as [-> | _] in Hout;
        repeat (apply elem_of_cons in Hout as [-> | Hout]; [lia |]);
        now apply elem_of_nil in Hout. }
  intros c Hcyc. apply Hdown in Hcyc. lia.
Qed.

(** The stack of the three components of [chain_subcomponents] and the
    graphics in the order in which they are positioned. *)
Lemma orderSubcomponents_of_chain :
  ComponentGraphic.orderSubcomponents_stack chain_outputs chain_subcomponents
  = Some [0x30; 0x20; 0x10]
  /\ ComponentGraphic.orderSubcomponents chain_outputs chain_subcomponents
     = Some (Ok [0x300; 0x100; 0x200]).
Proof. split; vm_compute; reflexivity. Qed.

(** Two components on a cycle are both on the stack. *)
Lemma orderSubcomponents_of_loop :
  ComponentGraphic.orderSubcomponents_stack loop_outputs loop_subcomponents
  = Some [0x10; 0x20].
Proof. vm_compute. reflexivity. Qed.

Lemma orderSubcomponents_finds_graphics_witness :
  chain_subcomponents !! nullptr = None
  /\ exists stack gs,
       ComponentGraphic.orderSubcomponents_stack chain_outputs chain_subcomponents
       = Some stack
       /\ ComponentGraphic.orderSubcomponents chain_outputs chain_subcomponents
          = Some (Ok gs)
       /\ Forall2 (fun g c => chain_subcomponents !! g = Some c) gs stack.
Proof.
  assert (Hnull : chain_subcomponents !! nullptr = None) by (vm_compute; reflexivity).
  split; [exact Hnull |].
  exact (orderSubcomponents_finds_graphics chain_outputs chain_subcomponents Hnull).
Defined.

(** The three components of [chain_subcomponents], whose outputs have no
    cycle, come out in a topological order. *)
Lemma orderSubcomponents_stack_order_witness :
  exists stack,
    ComponentGraphic.orderSubcomponents_stack chain_outputs chain_subcomponents
    = Some stack
    /\ NoDup stack
    /\ forall c cc,
         ComponentGraphic.is_subcomponent chain_subcomponents c ->
         ComponentGraphic.is_subcomponent chain_subcomponents cc ->
         cc ∈ chain_outputs c ->
         before stack c cc.
Proof.
  destruct (orderSubcomponents_stack_order chain_outputs chain_subcomponents)
    as (stack & Hrun & Hnd & _ & _ & Horder).
  exists stack. split; [exact Hrun |]. split; [exact Hnd |].
  exact (Horder chain_outputs_acyclic).
Defined.

(** With the region [0x1000, 0x100F], the byte of the initialization memory
    at [0x0FFF] is stored and the bytes at [0x1000] and [0x1001] are
    written to the functor, here in the order of their addresses. *)
Lemma reset_skips_io_regions_witness :
  (segments_wf (AddressSpaceMM.super segment_across_region)
   /\ Forall (fun mem => in_key_order (m_data mem) ≡ₚ map_to_list (m_data mem))
        (m_initializationMemories (AddressSpaceMM.super segment_across_region)))
  /\ exists st',
       AddressSpaceMM.reset in_key_order segment_across_region = Ok (tt, st')
       /\ AddressSpaceMM.m_mmapRegions st'
          = AddressSpaceMM.m_mmapRegions segment_across_region
       /\ m_initializationMemories (AddressSpaceMM.super st')
          = m_initializationMemories (AddressSpaceMM.super segment_across_region)
       /\ (forall x, m_data (AddressSpaceMM.super st') !! x
             = match AddressSpaceMM.findMMapRegion
                       (AddressSpaceMM.m_mmapRegions segment_across_region) x with
               | Some _ => None
               | None =>
                   last_segment_byte
                     (m_initializationMemories
                        (AddressSpaceMM.super segment_across_region)) x
               end)
       /\ AddressSpaceMM.io_calls st'
          = AddressSpaceMM.io_calls segment_across_region
            ++ forwarded_calls (AddressSpaceMM.m_mmapRegions segment_across_region)
                 (replayed in_key_order
                    (m_initializationMemories
                       (AddressSpaceMM.super segment_across_region)))
       /\ AddressSpaceMM.peripherals st'
          = forwarded_effect (AddressSpaceMM.m_mmapRegions segment_across_region)
              (replayed in_key_order
                 (m_initializationMemories
                    (AddressSpaceMM.super segment_across_region)))
              (AddressSpaceMM.peripherals segment_across_region).
Proof.
  assert (Hwf : segments_wf (AddressSpaceMM.super segment_across_region)).
  { constructor; [| constructor]. intros k b Hk. cbn [m_data] in Hk.
    lookup_cases Hk; lia. }
  assert (Horder : Forall (fun mem => in_key_order (m_data mem)
                                      ≡ₚ map_to_list (m_data mem))
                     (m_initializationMemories
                        (AddressSpaceMM.super segment_across_region))).
  { constructor; [apply in_key_order_Permutation | constructor]. }
  split; [split; [exact Hwf | exact Horder] |].
  exact (reset_skips_io_regions in_key_order segment_across_region Hwf Horder).
Defined.
